(** * Lightshow: the XSpectra input writer

    A shallow embedding of [lightshow/parameters/xspectra.py]
    ([XSpectraParameters.__init__], [packPsps], [_unpackPsps],
    [_write_xspectra_in] and [write]) together with the properties of the
    file-generation engine.

    Python objects are modelled as follows.
    - A Python [str] is a [string]; [bytes] is a list of bytes.
    - A JSON-like value (what [json.load] returns, and the nested "cards"
      dictionary) is a [pyval]; a [dict] keeps its insertion order and is an
      association list with unique keys.
    - Numbers of the cards and of the cut-off catalogue are rationals: every
      Python [int] and finite [float] is one, and the comparison [>] of the
      source is exact on them.  The normalised photon weight, the one place
      where the source divides, is a binary64 float.
    - An exception is a value of [exn]; a statement that raises leaves the
      mutations made so far in place, so a computation is a function
      [world -> result A * world].
    - The filesystem maps a path to the text of the file, paths being joined
      with ["/"]; the structure is the caller's mutable object and lives in
      the [world] as well, as does the trace of what the call did to the
      outside.
    - The cards are a tree: two sections of the cards are never the same
      dictionary object. *)

From Stdlib Require Import PrimFloat.
From Stdlib Require Uint63.
From Stdlib Require Import List String Ascii Bool Arith ZArith QArith Qminmax Lia.
From Stdlib Require Import Sorting.Sorted Sorting.Permutation Sorting.Mergesort.
From Stdlib Require Import Numbers.DecimalString Numbers.DecimalNat Strings.Byte.
Import ListNotations.

Local Close Scope Q_scope.
Local Open Scope list_scope.
Local Open Scope string_scope.
Local Set Warnings "-register-all".

(** ** Python values, exceptions and dictionaries *)

Inductive exn : Type :=
| FileNotFoundError
| SameFileError
| AttributeError
| KeyError
| IndexError
| TypeError
| UnboundLocalError
| JSONDecodeError
| ValueError
| UnicodeDecodeError
| ZeroDivisionError.

Inductive result (A : Type) : Type :=
| Ok (a : A)
| Raise (e : exn).

Arguments Ok {A} a.
Arguments Raise {A} e.

Definition bytes := list byte.

Module Dict.

Definition t (V : Type) := list (string * V).

Fixpoint get {V} (d : t V) (k : string) : option V :=
  match d with
  | [] => None
  | (k', v) :: d' => if String.eqb k k' then Some v else get d' k
  end.

(** [d[k] = v]: an existing key keeps its place, a new one goes last. *)
Fixpoint set {V} (d : t V) (k : string) (v : V) : t V :=
  match d with
  | [] => [(k, v)]
  | (k', v') :: d' =>
      if String.eqb k k' then (k', v) :: d' else (k', v') :: set d' k v
  end.

(** [d.keys()]: the distinct keys. *)
Definition keys {V} (d : t V) : list string := nodup string_dec (map fst d).

End Dict.

Inductive pyval : Type :=
| VNone
| VNum (q : Q)
| VStr (s : string)
| VDict (d : list (string * pyval)).

(** [v[k]] *)
Definition getitem (v : pyval) (k : string) : result pyval :=
  match v with
  | VDict d =>
      match Dict.get d k with
      | Some x => Ok x
      | None => Raise KeyError
      end
  | _ => Raise TypeError
  end.

(** [v[k] = x] *)
Definition setitem (v : pyval) (k : string) (x : pyval) : result pyval :=
  match v with
  | VDict d => Ok (VDict (Dict.set d k x))
  | _ => Raise TypeError
  end.

(** [v[k1]...[kn]] *)
Fixpoint get_path (v : pyval) (p : list string) : result pyval :=
  match p with
  | [] => Ok v
  | k :: p' =>
      match getitem v k with
      | Ok x => get_path x p'
      | Raise e => Raise e
      end
  end.

(** [v[k1]...[kn][k] = x]; the inner dictionaries are shared objects, so the
    assignment is seen through [v]. *)
Fixpoint set_path (v : pyval) (p : list string) (k : string) (x : pyval)
  : result pyval :=
  match p with
  | [] => setitem v k x
  | k1 :: p' =>
      match getitem v k1 with
      | Ok inner =>
          match set_path inner p' k x with
          | Ok inner' => setitem v k1 inner'
          | Raise e => Raise e
          end
      | Raise e => Raise e
      end
  end.

(** [a > b] on two Python values: numbers by value, strings lexicographically,
    anything else raises. *)
Definition py_gt (a b : pyval) : result bool :=
  match a, b with
  | VNum x, VNum y => Ok (if Qlt_le_dec y x then true else false)
  | VStr x, VStr y => Ok (String.ltb y x)
  | _, _ => Raise TypeError
  end.

(** [a < b] *)
Definition py_lt (a b : pyval) : result bool := py_gt b a.

(** A value used where the source needs a [str] (concatenation, [Path]). *)
Definition as_str (v : pyval) : result string :=
  match v with
  | VStr s => Ok s
  | _ => Raise TypeError
  end.

(** ** Formatting *)

(** ["%d" % n] *)
Definition str_nat (n : nat) : string := NilEmpty.string_of_uint (Nat.to_uint n).

Definition str_Z (z : Z) : string := NilZero.string_of_int (Z.to_int z).

(** [f"{site:03}"]: decimal, padded with zeros to three characters. *)
Definition fmt_03 (n : nat) : string :=
  let s := str_nat n in
  match String.length s with
  | 1 => "00" ++ s
  | 2 => "0" ++ s
  | _ => s
  end.

(** ["\n".join(l)] *)
Fixpoint join_lines (l : list string) : string :=
  match l with
  | [] => ""
  | [s] => s
  | s :: l' => s ++ String (ascii_of_nat 10) (join_lines l')
  end.

Definition newline : string := String (ascii_of_nat 10) "".

(** [Path(a) / Path(b)] for a relative [b]. *)
Definition path_join (a b : string) : string := a ++ "/" ++ b.

(** [Path(x)]: [None] is not path-like. *)
Definition Path (x : option string) : result string :=
  match x with
  | Some s => Ok s
  | None => Raise TypeError
  end.

(** ** Floats *)

(** The float of a small Python [int]. *)
Definition float_of_Z (z : Z) : PrimFloat.float :=
  match z with
  | Z0 => PrimFloat.zero
  | Zpos _ => PrimFloat.of_uint63 (Uint63.of_Z z)
  | Zneg _ => PrimFloat.opp (PrimFloat.of_uint63 (Uint63.of_Z (Z.opp z)))
  end.

(** [a / b] on two Python [int]s below 2^53: the correctly rounded quotient. *)
Definition truediv (a b : Z) : result PrimFloat.float :=
  if Z.eqb b 0 then Raise ZeroDivisionError
  else Ok (PrimFloat.div (float_of_Z a) (float_of_Z b)).

(** ** What the module imports

    The libraries the source calls ([json], [bz2], [base64], the text codec,
    [str] on a number, pymatgen's [PWInput]) are taken as given functions. *)

(** A pymatgen [Structure] as the writer sees it: the species label of every
    site (for a structure without oxidation states, [spec.symbol] is the
    label), and the number of sites of its primitive cell. *)
Record structure : Type := {
  species : list string;
  primitive_sites : nat }.

Record externals : Type := {
  json_loads : string -> option pyval;
  json_dumps : pyval -> string;
  utf8_encode : string -> bytes;
  utf8_decode : bytes -> option string;
  bz2_compress : bytes -> bytes;
  bz2_decompress : bytes -> option bytes;
  b64encode : bytes -> bytes;
  b64decode : string -> option bytes;
  py_repr : pyval -> string;
  str_float : PrimFloat.float -> string;
  fmt_10f : Z -> string;
  PWInput : structure -> Dict.t pyval -> pyval -> pyval -> pyval ->
            Z * Z * Z -> string }.

(** ** The instance and the world *)

(** The attributes [__init__] assigns. *)
Record instance : Type := {
  _cards : pyval;
  _chpsp_directory : option string;
  _psp_cutoff_table : option string;
  _psp_json : option string;
  _psp_directory : option string;
  _kpoints : structure -> Z * Z * Z;
  _defaultConvPerAtom : Q;
  _edge : pyval;
  _name : string }.

(** What a call does to the outside, in order: the diagnostics it emits, the
    directories it makes, the files it copies and the text it writes. *)
Inductive event : Type :=
| EWarn (msg : string)
| EMkdir (p : string)
| ECopy (src dst : string)
| EWrite (p text : string).

(** The variables of [write] that are assigned inside its [try] blocks and
    read after them. *)
Record frame : Type := {
  psp : option (Dict.t pyval);
  ecutwfc : pyval;
  ecutrho : pyval }.

Record world : Type := {
  self : instance;
  structure_sc : structure;
  fs : Dict.t string;
  trace : list event;
  locals : frame }.

Definition with_self (i : instance) (w : world) : world :=
  {| self := i; structure_sc := structure_sc w; fs := fs w;
     trace := trace w; locals := locals w |}.

Definition with_structure (s : structure) (w : world) : world :=
  {| self := self w; structure_sc := s; fs := fs w;
     trace := trace w; locals := locals w |}.

Definition with_fs (f : Dict.t string) (w : world) : world :=
  {| self := self w; structure_sc := structure_sc w; fs := f;
     trace := trace w; locals := locals w |}.

Definition with_event (e : event) (w : world) : world :=
  {| self := self w; structure_sc := structure_sc w; fs := fs w;
     trace := (trace w ++ [e])%list; locals := locals w |}.

Definition with_locals (l : frame) (w : world) : world :=
  {| self := self w; structure_sc := structure_sc w; fs := fs w;
     trace := trace w; locals := l |}.

Definition with_cards (c : pyval) (i : instance) : instance :=
  {| _cards := c; _chpsp_directory := _chpsp_directory i;
     _psp_cutoff_table := _psp_cutoff_table i; _psp_json := _psp_json i;
     _psp_directory := _psp_directory i; _kpoints := _kpoints i;
     _defaultConvPerAtom := _defaultConvPerAtom i; _edge := _edge i;
     _name := _name i |}.

Definition with_psp_directory (d : option string) (i : instance) : instance :=
  {| _cards := _cards i; _chpsp_directory := _chpsp_directory i;
     _psp_cutoff_table := _psp_cutoff_table i; _psp_json := _psp_json i;
     _psp_directory := d; _kpoints := _kpoints i;
     _defaultConvPerAtom := _defaultConvPerAtom i; _edge := _edge i;
     _name := _name i |}.

(** ** Computations that may raise *)

Definition M (A : Type) : Type := world -> result A * world.

Definition ret {A} (a : A) : M A := fun w => (Ok a, w).

Definition bind {A B} (m : M A) (k : A -> M B) : M B :=
  fun w =>
    match m w with
    | (Ok a, w') => k a w'
    | (Raise e, w') => (Raise e, w')
    end.

Definition lift {A} (r : result A) : M A := fun w => (r, w).

Definition raise {A} (e : exn) : M A := fun w => (Raise e, w).

Definition exn_eqb (a b : exn) : bool :=
  match a, b with
  | FileNotFoundError, FileNotFoundError
  | SameFileError, SameFileError
  | AttributeError, AttributeError
  | KeyError, KeyError
  | IndexError, IndexError
  | TypeError, TypeError
  | UnboundLocalError, UnboundLocalError
  | JSONDecodeError, JSONDecodeError
  | ValueError, ValueError
  | UnicodeDecodeError, UnicodeDecodeError
  | ZeroDivisionError, ZeroDivisionError => true
  | _, _ => false
  end.

(** [try: m  except e: h] *)
Definition try_except {A} (m : M A) (e : exn) (h : M A) : M A :=
  fun w =>
    match m w with
    | (Raise e', w') => if exn_eqb e' e then h w' else (Raise e', w')
    | r => r
    end.

Declare Scope py_scope.
Delimit Scope py_scope with py.
Notation "x <- m ;; k" := (bind m (fun x => k))
  (at level 61, m at next level, right associativity) : py_scope.
Notation "m ;; k" := (bind m (fun _ => k))
  (at level 61, right associativity) : py_scope.
Local Open Scope py_scope.

Definition of_option {A} (o : option A) (e : exn) : M A :=
  match o with
  | Some a => ret a
  | None => raise e
  end.

(** [for x in l: body x] *)
Fixpoint for_each {A} (l : list A) (body : A -> M unit) : M unit :=
  match l with
  | [] => ret tt
  | x :: l' => body x ;; for_each l' body
  end.

(** *** Attributes *)

(** [self.<name>] for the path-like attributes; a name that [__init__] never
    assigned raises. *)
Definition getattr (name : string) : M (option string) :=
  fun w =>
    let i := self w in
    if String.eqb name "_chpsp_directory" then (Ok (_chpsp_directory i), w)
    else if String.eqb name "_psp_cutoff_table" then (Ok (_psp_cutoff_table i), w)
    else if String.eqb name "_psp_json" then (Ok (_psp_json i), w)
    else if String.eqb name "_psp_directory" then (Ok (_psp_directory i), w)
    else (Raise AttributeError, w).

(** [self.<attribute>] for the other attributes. *)
Definition get_self {A} (f : instance -> A) : M A :=
  fun w => (Ok (f (self w)), w).

(** [self._psp_directory = d] *)
Definition set_psp_directory (d : option string) : M unit :=
  fun w => (Ok tt, with_self (with_psp_directory d (self w)) w).

(** [self._cards[k1]...[kn]] *)
Definition cards_get (p : list string) : M pyval :=
  fun w => (get_path (_cards (self w)) p, w).

(** [self._cards[k1]...[kn][k] = x] *)
Definition cards_set (p : list string) (k : string) (x : pyval) : M unit :=
  fun w =>
    match set_path (_cards (self w)) p k x with
    | Ok c => (Ok tt, with_self (with_cards c (self w)) w)
    | Raise e => (Raise e, w)
    end.

(** *** Files and diagnostics *)

Definition warn (msg : string) : M unit :=
  fun w => (Ok tt, with_event (EWarn msg) w).

(** [p.mkdir(exist_ok=True, parents=True)] *)
Definition mkdir (p : string) : M unit :=
  fun w => (Ok tt, with_event (EMkdir p) w).

(** [open(p, "r").read()] *)
Definition read_text (p : string) : M string :=
  fun w =>
    match Dict.get (fs w) p with
    | Some s => (Ok s, w)
    | None => (Raise FileNotFoundError, w)
    end.

(** [open(p, "w")]: the file exists and is empty from here on. *)
Definition open_w (p : string) : M unit :=
  fun w => (Ok tt, with_fs (Dict.set (fs w) p "") w).

(** [f.write(s)] on the file just opened at [p]. *)
Definition f_write (p s : string) : M unit :=
  fun w => (Ok tt, with_event (EWrite p s) (with_fs (Dict.set (fs w) p s) w)).

(** [shutil.copyfile(src, dst)] *)
Definition copyfile (src dst : string) : M unit :=
  fun w =>
    if String.eqb src dst then
      match Dict.get (fs w) src with
      | Some _ => (Raise SameFileError, w)
      | None => (Raise FileNotFoundError, w)
      end
    else
      match Dict.get (fs w) src with
      | Some s =>
          (Ok tt, with_event (ECopy src dst) (with_fs (Dict.set (fs w) dst s) w))
      | None => (Raise FileNotFoundError, w)
      end.

(** *** The frame of [write] *)

Definition get_local {A} (f : frame -> A) : M A :=
  fun w => (Ok (f (locals w)), w).

Definition set_psp (d : Dict.t pyval) : M unit :=
  fun w => (Ok tt, with_locals {| psp := Some d; ecutwfc := ecutwfc (locals w);
                                  ecutrho := ecutrho (locals w) |} w).

Definition set_ecutwfc (v : pyval) : M unit :=
  fun w => (Ok tt, with_locals {| psp := psp (locals w); ecutwfc := v;
                                  ecutrho := ecutrho (locals w) |} w).

Definition set_ecutrho (v : pyval) : M unit :=
  fun w => (Ok tt, with_locals {| psp := psp (locals w);
                                  ecutwfc := ecutwfc (locals w);
                                  ecutrho := v |} w).

(** Reading [psp] before any assignment to it. *)
Definition get_psp : M (Dict.t pyval) :=
  d <- get_local psp ;; of_option d UnboundLocalError.

(** *** The structure *)

Fixpoint list_set {A} (l : list A) (i : nat) (x : A) : option (list A) :=
  match l, i with
  | [], _ => None
  | _ :: l', O => Some (x :: l')
  | y :: l', S i' =>
      match list_set l' i' x with
      | Some r => Some (y :: r)
      | None => None
      end
  end.

(** [structure[i].specie.symbol] *)
Definition structure_getitem (i : nat) : M string :=
  fun w =>
    match nth_error (species (structure_sc w)) i with
    | Some s => (Ok s, w)
    | None => (Raise IndexError, w)
    end.

(** [structure[i] = label] *)
Definition structure_setitem (i : nat) (label : string) : M unit :=
  fun w =>
    match list_set (species (structure_sc w)) i label with
    | Some l =>
        (Ok tt, with_structure
                  {| species := l;
                     primitive_sites := primitive_sites (structure_sc w) |} w)
    | None => (Raise IndexError, w)
    end.

Definition get_structure : M structure := fun w => (Ok (structure_sc w), w).

(** [index_mapping[site]] *)
Fixpoint index_lookup (m : list (nat * nat)) (site : nat) : result nat :=
  match m with
  | [] => Raise KeyError
  | (k, v) :: m' => if Nat.eqb site k then Ok v else index_lookup m' site
  end.

(** *** Sorting the keys *)

Module StringOrder <: Orders.TotalLeBool.
Definition t := string.
Definition leb := String.leb.
Definition leb_total : forall a b, leb a b = true \/ leb b a = true :=
  String.leb_total.
End StringOrder.

Module StringSort := Sort StringOrder.

(** [sorted(l)] on strings *)
Definition sorted (l : list string) : list string := StringSort.sort l.

(** [v[key]] for a key that is itself a value. *)
Definition getitem_v (v key : pyval) : result pyval :=
  match key with
  | VStr s => getitem v s
  | VDict _ => Raise TypeError
  | _ => match v with VDict _ => Raise KeyError | _ => Raise TypeError end
  end.

(** The characters of a string, what iterating over it yields. *)
Fixpoint chars (s : string) : list string :=
  match s with
  | EmptyString => []
  | String c s' => String c "" :: chars s'
  end.

(** [for k in v] *)
Definition iter_keys (v : pyval) : result (list string) :=
  match v with
  | VDict d => Ok (Dict.keys d)
  | VStr s => Ok (chars s)
  | _ => Raise TypeError
  end.

(** The status record [write] returns. *)
Record status : Type := {
  pass : bool;
  errors : Dict.t pyval }.

Record photon : Type := { dipole : list Z }.

(** [l[i]] *)
Definition list_getitem {A} (l : list A) (i : nat) : result A :=
  match nth_error l i with
  | Some x => Ok x
  | None => Raise IndexError
  end.

(** ** [XSpectraParameters] *)

Section XSpectraParameters.

Variable X : externals.

Definition json_load (text : string) : M pyval :=
  of_option (json_loads X text) JSONDecodeError.

(** *** [packPsps] *)

Fixpoint packPsps_loop (inJSON : pyval) (elements : list string)
    (outJSON : Dict.t pyval) : M (Dict.t pyval) :=
  match elements with
  | [] => ret outJSON
  | element :: rest =>
      d <- getattr "_psp_directory" ;;
      dir <- lift (Path d) ;;
      entry <- lift (getitem inJSON element) ;;
      fn <- lift (getitem entry "filename") ;;
      name <- lift (as_str fn) ;;
      pspString <- read_text (path_join dir name) ;;
      packed <- of_option
                  (utf8_decode X
                     (b64encode X (bz2_compress X (utf8_encode X pspString))))
                  UnicodeDecodeError ;;
      packPsps_loop inJSON rest (Dict.set outJSON name (VStr packed))
  end.

Definition packPsps (pspJsonOut : string) : M unit :=
  d <- getattr "_psp_directory" ;;
  dir <- lift (Path d) ;;
  t <- getattr "_psp_cutoff_table" ;;
  table <- lift (Path t) ;;
  let cutofftable := path_join dir table in
  text <- read_text cutofftable ;;
  inJSON <- json_load text ;;
  elements <- lift (iter_keys inJSON) ;;
  outJSON <- packPsps_loop inJSON elements [] ;;
  open_w pspJsonOut ;;
  f_write pspJsonOut (json_dumps X (VDict outJSON)).

(** *** [_unpackPsps] *)

Fixpoint unpack_table_loop (pspDatabase : pyval) (minSymbols : list string)
    (psp : Dict.t pyval) (ecutwfc ecutrho : pyval)
  : M (Dict.t pyval * pyval * pyval) :=
  match minSymbols with
  | [] => ret (psp, ecutwfc, ecutrho)
  | symbol :: rest =>
      entry <- lift (getitem pspDatabase symbol) ;;
      fn <- lift (getitem entry "filename") ;;
      let psp := Dict.set psp symbol fn in
      c <- lift (getitem entry "cutoff") ;;
      lt <- lift (py_lt ecutwfc c) ;;
      let ecutwfc := if lt then c else ecutwfc in
      r <- lift (getitem entry "rho_cutoff") ;;
      lt <- lift (py_lt ecutrho r) ;;
      let ecutrho := if lt then r else ecutrho in
      unpack_table_loop pspDatabase rest psp ecutwfc ecutrho
  end.

Fixpoint unpack_files_loop (pspJSON : pyval) (psp : Dict.t pyval)
    (folder : string) (minSymbols : list string) : M unit :=
  match minSymbols with
  | [] => ret tt
  | symbol :: rest =>
      fileName <- of_option (Dict.get psp symbol) KeyError ;;
      packed <- lift (getitem_v pspJSON fileName) ;;
      text <- lift (as_str packed) ;;
      raw <- of_option (b64decode X text) ValueError ;;
      pspString <- of_option (bz2_decompress X raw) ValueError ;;
      name <- lift (as_str fileName) ;;
      open_w (path_join folder name) ;;
      decoded <- of_option (utf8_decode X pspString) UnicodeDecodeError ;;
      f_write (path_join folder name) decoded ;;
      unpack_files_loop pspJSON psp folder rest
  end.

(** The first path is built from the attribute [_psp_directoy], as the
    source spells it.  [set(symbols)] is taken in order of first
    occurrence. *)
Definition _unpackPsps (ecutwfc ecutrho : pyval) (symbols : list string)
    (folder : string) : M (Dict.t pyval * pyval * pyval) :=
  let psp : Dict.t pyval := [] in
  d <- getattr "_psp_directoy" ;;
  dir <- lift (Path d) ;;
  t <- getattr "_psp_cutoff_table" ;;
  table <- lift (Path t) ;;
  let sssp_fn := path_join dir table in
  text <- read_text sssp_fn ;;
  pspDatabase <- json_load text ;;
  let minSymbols := nodup string_dec symbols in
  r <- unpack_table_loop pspDatabase minSymbols psp ecutwfc ecutrho ;;
  let '(psp, ecutwfc, ecutrho) := r in
  d <- getattr "_psp_directory" ;;
  dir <- lift (Path d) ;;
  j <- getattr "_psp_json" ;;
  archive <- lift (Path j) ;;
  let sssp_fn := path_join dir archive in
  text <- read_text sssp_fn ;;
  pspJSON <- json_load text ;;
  unpack_files_loop pspJSON psp folder minSymbols ;;
  ret (psp, ecutwfc, ecutrho).

(** *** [_write_xspectra_in] *)

(** [str(v)] *)
Definition py_str (v : pyval) : string :=
  match v with
  | VStr s => s
  | _ => py_repr X v
  end.

Definition _write_xspectra_in (mode : string) (iabs : nat) (dirs xkvec : list Z)
  : M string :=
  XSparams <- cards_get ["XS"] ;;
  e <- lift (getitem XSparams "element") ;;
  let element := py_str e in
  ix <- lift (getitem XSparams "input_xspectra") ;;
  edge <- lift (getitem ix "edge") ;;
  edge <- lift (as_str edge) ;;
  xniter <- lift (getitem ix "xniter") ;;
  xerror <- lift (getitem ix "xerror") ;;
  xcoordcrys <- lift (getitem ix "xcoordcrys") ;;
  xcoordcrys <- lift (as_str xcoordcrys) ;;
  xcheck_conv <- lift (getitem ix "xcheck_conv") ;;
  d0 <- lift (list_getitem dirs 0) ;;
  d1 <- lift (list_getitem dirs 1) ;;
  d2 <- lift (list_getitem dirs 2) ;;
  let inp :=
    [ "&input_xspectra";
      "    calculation = 'xanes_" ++ mode ++ "'";
      "    edge = '" ++ edge ++ "'";
      "    prefix = 'pwscf'";
      "    outdir = '../'";
      "    xniter = " ++ py_str xniter;
      "    xiabs = " ++ str_nat iabs;
      "    xerror = " ++ py_str xerror;
      "    xcoordcrys = " ++ xcoordcrys;
      "    xcheck_conv = " ++ py_str xcheck_conv;
      "    xepsilon(1) = " ++ str_Z d0;
      "    xepsilon(2) = " ++ str_Z d1;
      "    xepsilon(3) = " ++ str_Z d2 ] in
  inp <- (if String.eqb mode "quadrupole" then
            k0 <- lift (list_getitem xkvec 0) ;;
            k1 <- lift (list_getitem xkvec 1) ;;
            k2 <- lift (list_getitem xkvec 2) ;;
            ret (app inp [ "    xkvec(1) = " ++ fmt_10f X k0;
                           "    xkvec(2) = " ++ fmt_10f X k1;
                           "    xkvec(3) = " ++ fmt_10f X k2 ])
          else ret inp) ;;
  plot <- lift (getitem XSparams "plot") ;;
  xnepoint <- lift (getitem plot "xnepoint") ;;
  xemin <- lift (getitem plot "xemin") ;;
  xemax <- lift (getitem plot "xemax") ;;
  terminator <- lift (getitem plot "terminator") ;;
  terminator <- lift (as_str terminator) ;;
  cut_occ_states <- lift (getitem plot "cut_occ_states") ;;
  cut_occ_states <- lift (as_str cut_occ_states) ;;
  let inp := app inp
    [ "/";
      "&plot";
      "    xnepoint = " ++ py_str xnepoint;
      "    xemin = " ++ py_str xemin;
      "    xemax = " ++ py_str xemax;
      "    terminator = " ++ terminator;
      "    cut_occ_states = " ++ cut_occ_states;
      "    gamma_mode = 'constant'";
      "    xgamma = 0.01 ";
      "/" ] in
  cut_occ <- lift (getitem XSparams "cut_occ") ;;
  cut_desmooth <- lift (getitem cut_occ "cut_desmooth") ;;
  kpts <- lift (getitem XSparams "kpts") ;;
  k <- lift (getitem kpts "kpts") ;;
  k <- lift (as_str k) ;;
  shift <- lift (getitem kpts "shift") ;;
  shift <- lift (as_str shift) ;;
  let inp := app inp
    [ "&pseudos";
      "    filecore = '../../Core_" ++ element ++ ".wfc'";
      "/";
      "&cut_occ";
      "    cut_desmooth = " ++ py_str cut_desmooth;
      "/";
      k ++ " " ++ shift ] in
  ret (join_lines inp ++ newline).

(** *** [write] *)

(** [species = [structure[index_mapping[site]].specie.symbol for site in sites]] *)
Fixpoint site_species (index_mapping : list (nat * nat)) (sites : list nat)
  : M (list string) :=
  match sites with
  | [] => ret []
  | site :: rest =>
      i <- lift (index_lookup index_mapping site) ;;
      s <- structure_getitem i ;;
      r <- site_species index_mapping rest ;;
      ret (s :: r)
  end.

(** [if entry["cutoff_wfc"] > ecutwfc: ecutwfc = entry["cutoff_wfc"]] *)
Definition raise_ecutwfc (entry : pyval) : M unit :=
  c <- lift (getitem entry "cutoff_wfc") ;;
  e <- get_local ecutwfc ;;
  gt <- lift (py_gt c e) ;;
  if gt then set_ecutwfc c else ret tt.

(** [if entry["cutoff_rho"] > ecutrho: ecutrho = entry["cutoff_rho"]] *)
Definition raise_ecutrho (entry : pyval) : M unit :=
  c <- lift (getitem entry "cutoff_rho") ;;
  e <- get_local ecutrho ;;
  gt <- lift (py_gt c e) ;;
  if gt then set_ecutrho c else ret tt.

(** Tier 1, the body of the first [try]: one pass over [symbols]. *)
Fixpoint direct_lookup_loop (psp_dict : pyval) (target_directory : string)
    (symbols : list string) : M unit :=
  match symbols with
  | [] => ret tt
  | symbol :: rest =>
      entry <- lift (getitem psp_dict symbol) ;;
      psp_filename <- lift (getitem entry "filename") ;;
      p <- get_psp ;;
      set_psp (Dict.set p symbol psp_filename) ;;
      d <- getattr "_psp_directory" ;;
      dir <- lift (Path d) ;;
      name <- lift (as_str psp_filename) ;;
      copyfile (path_join dir name) (path_join target_directory name) ;;
      raise_ecutwfc entry ;;
      raise_ecutrho entry ;;
      direct_lookup_loop psp_dict target_directory rest
  end.

Definition direct_lookup (symbols : list string) (target_directory : string)
  : M unit :=
  d <- getattr "_psp_directory" ;;
  dir <- lift (Path d) ;;
  t <- getattr "_psp_cutoff_table" ;;
  table <- lift (Path t) ;;
  text <- read_text (path_join dir table) ;;
  psp_dict <- json_load text ;;
  set_psp [] ;;
  direct_lookup_loop psp_dict target_directory symbols.

(** Tier 2, the body of the second [try]. *)
Definition archive_unpack (symbols : list string) (target_directory : string)
  : M unit :=
  e1 <- get_local ecutwfc ;;
  e2 <- get_local ecutrho ;;
  r <- _unpackPsps e1 e2 symbols target_directory ;;
  let '(p, e1, e2) := r in
  set_psp p ;;
  set_ecutwfc e1 ;;
  set_ecutrho e2.

(** Tier 3 begins in the handler of the second [try]. *)
Definition give_up_directory : M unit :=
  d <- getattr "_psp_directory" ;;
  warn ("Some pseudo potential files are not present in " ++ "f"
        ++ match d with Some s => s | None => "None" end) ;;
  set_psp_directory None.

(** [{symbol: symbol + ".upf" for symbol in symbols}] *)
Definition placeholder_psp (symbols : list string) : Dict.t pyval :=
  fold_left (fun d symbol => Dict.set d symbol (VStr (symbol ++ ".upf")))
            symbols [].

Definition resolve_psp (symbols : list string) (target_directory : string)
  : M unit :=
  d <- getattr "_psp_directory" ;;
  (match d with
   | Some _ =>
       try_except (direct_lookup symbols target_directory)
         FileNotFoundError
         (try_except (archive_unpack symbols target_directory)
            FileNotFoundError
            give_up_directory)
   | None => ret tt
   end) ;;
  d <- getattr "_psp_directory" ;;
  match d with
  | None => set_psp (placeholder_psp symbols)
  | Some _ => ret tt
  end.

(** [PWInput(structure, pseudo=psp, control=..., system=..., electrons=...,
    kpoints_grid=...)] rendered. *)
Definition pwinput (kpoints_grid : Z * Z * Z) : M string :=
  s <- get_structure ;;
  p <- get_psp ;;
  control <- cards_get ["QE"; "control"] ;;
  system <- cards_get ["QE"; "system"] ;;
  electrons <- cards_get ["QE"; "electrons"] ;;
  ret (PWInput X s p control system electrons kpoints_grid).

(** Registering the ionised entry and copying the core-hole files. *)
Definition inject_core_hole (element target_directory : string) : M unit :=
  p <- get_psp ;;
  set_psp (Dict.set p (element ++ "+") (VStr (element ++ ".fch.upf"))) ;;
  ch <- getattr "_chpsp_directory" ;;
  match ch with
  | Some chpsp =>
      try_except
        (copyfile (chpsp ++ "/" ++ element ++ ".fch.upf")
                  (path_join target_directory "{element}.fch.upf") ;;
         copyfile (chpsp ++ "/Core_" ++ element ++ ".wfc")
                  (path_join target_directory "Core_{element}.wfc"))
        FileNotFoundError
        (warn (element ++ ".fch.upf or Core_" ++ element ++ ".wfc not found "
               ++ "in " ++ chpsp))
  | None => ret tt
  end.

(** [for i, j in enumerate(keys): if j == target: iabs = i + 1] *)
Fixpoint determine_iabs (keys : list string) (i : nat) (target : string)
    (iabs : option nat) : option nat :=
  match keys with
  | [] => iabs
  | j :: rest =>
      determine_iabs rest (S i) target
        (if String.eqb j target then Some (i + 1) else iabs)
  end.

Definition photons : list photon :=
  [ {| dipole := [1; 0; 0; 1]%Z |};
    {| dipole := [0; 1; 0; 1]%Z |};
    {| dipole := [0; 0; 1; 1]%Z |} ].

(** [for photon in photons: totalweight += photon["dipole"][3]] *)
Fixpoint sum_weights (l : list photon) (totalweight : Z) : result Z :=
  match l with
  | [] => Ok totalweight
  | photon :: rest =>
      match list_getitem (dipole photon) 3 with
      | Ok w => sum_weights rest (totalweight + w)%Z
      | Raise e => Raise e
      end
  end.

Fixpoint photon_loop (path : string) (iabs : option nat) (totalweight : Z)
    (l : list photon) (photonCount : nat) : M unit :=
  match l with
  | [] => ret tt
  | photon :: rest =>
      let photonCount := (photonCount + 1)%nat in
      let dir1 := firstn 3 (dipole photon) in
      let dir2 := dir1 in
      w <- lift (list_getitem (dipole photon) 3) ;;
      weight <- lift (truediv w totalweight) ;;
      let mode := "dipole" in
      let xanesfolder := path_join path (mode ++ str_nat photonCount) in
      mkdir xanesfolder ;;
      open_w (path_join xanesfolder "xanes.in") ;;
      i <- of_option iabs UnboundLocalError ;;
      deck <- _write_xspectra_in mode i dir1 dir2 ;;
      f_write (path_join xanesfolder "xanes.in") deck ;;
      open_w (path_join xanesfolder "weight.txt") ;;
      f_write (path_join xanesfolder "weight.txt")
              (str_float X weight ++ newline) ;;
      photon_loop path iabs totalweight rest photonCount
  end.

(** The body of [for site, specie in zip(sites, species)]. *)
Definition site_body (target_directory element : string)
    (index_mapping : list (nat * nat)) (kpoints_scf : Z * Z * Z)
    (iabs : option nat) (site_specie : nat * string) : M unit :=
  let '(site, specie) := site_specie in
  let path := path_join target_directory (fmt_03 site ++ "_" ++ specie) in
  mkdir path ;;
  i <- lift (index_lookup index_mapping site) ;;
  structure_setitem i (element ++ "+") ;;
  cards_set ["QE"; "control"] "pseudo_dir" (VStr "../") ;;
  es_in <- pwinput kpoints_scf ;;
  open_w (path_join path "es.in") ;;
  f_write (path_join path "es.in") es_in ;;
  i <- lift (index_lookup index_mapping site) ;;
  structure_setitem i element ;;
  totalweight <- lift (sum_weights photons 0) ;;
  photon_loop path iabs totalweight photons 0.

Definition fresh_frame : M unit :=
  fun w => (Ok tt, with_locals {| psp := None; ecutwfc := VNone;
                                  ecutrho := VNone |} w).

(** Lines 368-398: the absorbing element, the k-point meshes and the
    convergence threshold go into the cards.  Returns [symbols], [species],
    [element] and [kpoints_scf]. *)
Definition prepare_cards (target_directory : string) (sites : list nat)
    (index_mapping : list (nat * nat))
  : M (list string * list string * string * (Z * Z * Z)) :=
  mkdir target_directory ;;
  structure <- get_structure ;;
  let symbols := species structure in
  let len_structure := List.length symbols in
  species <- site_species index_mapping sites ;;
  element <- lift (list_getitem species 0) ;;
  cards_set ["XS"] "element" (VStr element) ;;
  edge <- get_self _edge ;;
  cards_set ["XS"; "input_xspectra"] "edge" edge ;;
  kpoints <- get_self _kpoints ;;
  let kpoints_scf :=
    if negb (Nat.eqb (primitive_sites structure) len_structure)
    then (1, 1, 1)%Z
    else kpoints structure in
  let kpoints_xas := kpoints structure in
  cards_set ["XS"; "kpts"] "kpts"
            (VStr (str_Z (fst (fst kpoints_xas)) ++ " "
                   ++ str_Z (snd (fst kpoints_xas)) ++ " "
                   ++ str_Z (snd kpoints_xas))) ;;
  conv <- get_self _defaultConvPerAtom ;;
  cards_set ["QE"; "electrons"] "conv_thr"
            (VNum (Qmult conv (inject_Z (Z.of_nat len_structure)))) ;;
  ret (symbols, species, element, kpoints_scf).

(** Lines 403-404 *)
Definition read_cutoffs : M unit :=
  e <- cards_get ["QE"; "system"; "ecutwfc"] ;;
  set_ecutwfc e ;;
  e <- cards_get ["QE"; "system"; "ecutrho"] ;;
  set_ecutrho e.

(** Lines 443-445 *)
Definition store_cutoffs : M unit :=
  e <- get_local ecutwfc ;;
  cards_set ["QE"; "system"] "ecutwfc" e ;;
  e <- get_local ecutrho ;;
  cards_set ["QE"; "system"] "ecutrho" e ;;
  cards_set ["QE"; "control"] "pseudo_dir" (VStr "../").

(** Lines 447-457 *)
Definition write_ground_state (target_directory : string)
    (kpoints_scf : Z * Z * Z) : M unit :=
  let path := path_join target_directory "GS" in
  mkdir path ;;
  gs_in <- pwinput kpoints_scf ;;
  open_w (path_join path "gs.in") ;;
  f_write (path_join path "gs.in") gs_in.

(** Lines 477-480 *)
Definition absorber_index (symTarg : string) : M (option nat) :=
  p <- get_psp ;;
  ret (determine_iabs (sorted (Dict.keys p)) 0 (symTarg ++ "+") None).

Definition write (target_directory : string) (sites : list nat)
    (index_mapping : list (nat * nat)) : M status :=
  fresh_frame ;;
  prepared <- prepare_cards target_directory sites index_mapping ;;
  let '(symbols, species, element, kpoints_scf) := prepared in
  let symTarg := element in
  read_cutoffs ;;
  resolve_psp symbols target_directory ;;
  store_cutoffs ;;
  write_ground_state target_directory kpoints_scf ;;
  inject_core_hole element target_directory ;;
  iabs <- absorber_index symTarg ;;
  for_each (combine sites species)
           (site_body target_directory element index_mapping kpoints_scf iabs) ;;
  ret {| pass := true; errors := [] |}.

End XSpectraParameters.

(** ** Example data *)

(** [XSPECTRA_DEFAULT_CARDS], the decimal literals at their nominal values. *)
Definition XSPECTRA_DEFAULT_CARDS : pyval :=
  VDict
    [ ("QE", VDict
        [ ("control", VDict [ ("restart_mode", VStr "from_scratch") ]);
          ("electrons", VDict [ ("conv_thr", VNum (1 # 100000000));
                                ("mixing_beta", VNum (4 # 10)) ]);
          ("system", VDict [ ("degauss", VNum (2 # 1000));
                             ("ecutrho", VNum (320 # 1));
                             ("ecutwfc", VNum (40 # 1));
                             ("nspin", VNum (1 # 1));
                             ("occupations", VStr "smearing");
                             ("smearing", VStr "gauss") ]) ]);
      ("XS", VDict
        [ ("cut_occ", VDict [ ("cut_desmooth", VNum (3 # 10)) ]);
          ("input_xspectra", VDict [ ("outdir", VStr "../");
                                     ("prefix", VStr "pwscf");
                                     ("xcheck_conv", VNum (200 # 1));
                                     ("xerror", VNum (1 # 100));
                                     ("xniter", VNum (5000 # 1));
                                     ("xcoordcrys", VStr ".false.") ]);
          ("kpts", VDict [ ("kpts", VStr "2 2 2"); ("shift", VStr "0 0 0") ]);
          ("plot", VDict [ ("cut_occ_states", VStr ".true.");
                           ("terminator", VStr ".true.");
                           ("xemax", VNum (70 # 1));
                           ("xemin", VNum (-15 # 1));
                           ("xnepoint", VNum (400 # 1)) ]) ]) ].

(** A cut-off catalogue for Ti and O in the format tier 1 reads. *)
Definition example_table : pyval :=
  VDict
    [ ("Ti", VDict [ ("filename", VStr "ti.upf");
                     ("cutoff_wfc", VNum (45 # 1));
                     ("cutoff_rho", VNum (360 # 1)) ]);
      ("O", VDict [ ("filename", VStr "o.upf");
                    ("cutoff_wfc", VNum (50 # 1));
                    ("cutoff_rho", VNum (300 # 1)) ]) ].

(** Stand-ins for the imported libraries, enough to run the writer on the
    examples: the only JSON text is that of [example_table], the codecs are
    the identity on ASCII text. *)
Definition example_externals : externals :=
  {| json_loads := fun s => if String.eqb s "<table>" then Some example_table
                            else None;
     json_dumps := fun _ => "<archive>";
     utf8_encode := list_byte_of_string;
     utf8_decode := fun b => Some (string_of_list_byte b);
     bz2_compress := fun b => b;
     bz2_decompress := fun b => Some b;
     b64encode := fun b => b;
     b64decode := fun s => Some (list_byte_of_string s);
     py_repr := fun _ => "<repr>";
     str_float := fun f =>
       if PrimFloat.eqb f 0x1.5555555555555p-2%float
       then "0.3333333333333333" else "<float>";
     fmt_10f := fun _ => "<%.10f>";
     PWInput := fun _ _ _ _ _ _ => "<pwscf>" |}.

Definition example_instance (psp_directory chpsp_directory : option string)
  : instance :=
  {| _cards := XSPECTRA_DEFAULT_CARDS;
     _chpsp_directory := chpsp_directory;
     _psp_cutoff_table := Some "table.json";
     _psp_json := Some "psp.json";
     _psp_directory := psp_directory;
     _kpoints := fun _ => (2, 2, 2)%Z;
     _defaultConvPerAtom := 1 # 10000000000;
     _edge := VStr "K";
     _name := "XSpectra" |}.

Definition TiO : structure :=
  {| species := ["Ti"; "O"]; primitive_sites := 2 |}.

Definition example_world (i : instance) (files : Dict.t string) : world :=
  {| self := i; structure_sc := TiO; fs := files; trace := [];
     locals := {| psp := None; ecutwfc := VNone; ecutrho := VNone |} |}.

Definition identity_mapping : list (nat * nat) := [(0, 0); (1, 1)]%nat.

(** An asset directory [psp] with the catalogue and both files, and a
    core-hole directory [ch] with the two files of Ti. *)
Definition full_assets : Dict.t string :=
  [ ("psp/table.json", "<table>"); ("psp/ti.upf", "TI"); ("psp/o.upf", "OX");
    ("ch/Ti.fch.upf", "TIFCH"); ("ch/Core_Ti.wfc", "CORE") ].

(** Nothing configured: neither directory is set. *)
Definition w_unconfigured : world :=
  example_world (example_instance None None) [].

(** Both directories configured and complete. *)
Definition w_direct : world :=
  example_world (example_instance (Some "psp") (Some "ch")) full_assets.

(** Both directories configured, the disk empty. *)
Definition w_missing : world :=
  example_world (example_instance (Some "psp") (Some "ch")) [].

(** Only the core-hole directory configured, its files absent. *)
Definition w_no_core_hole : world :=
  example_world (example_instance None (Some "ch")) [].

(** The world of [w_unconfigured] at the head of the site loop of
    [write "out" [0]]. *)
Definition w_resolved : world :=
  snd ((fresh_frame ;;
        prepare_cards "out" [0%nat] identity_mapping ;;
        read_cutoffs ;;
        resolve_psp example_externals ["Ti"; "O"] "out" ;;
        store_cutoffs ;;
        write_ground_state example_externals "out" (2, 2, 2)%Z ;;
        inject_core_hole "Ti" "out")%py w_unconfigured).

(** The binary64 number nearest to one third. *)
Definition third : PrimFloat.float := 0x1.5555555555555p-2%float.

(** A deck carries the absorber index [i] when its seventh line is
    ["    xiabs = i"]. *)
Definition has_xiabs (deck : string) (i : nat) : Prop :=
  exists lines, deck = join_lines lines ++ newline /\
                nth_error lines 6 = Some ("    xiabs = " ++ str_nat i).

(** [path] names a file called [name] in some directory. *)
Definition is_file (name path : string) : Prop :=
  exists d, path = path_join d name.

(** What the call writes: every [xanes.in] carries the absorber index [i] and
    every [weight.txt] holds one third. *)
Definition deck_event (X : externals) (i : nat) (e : event) : Prop :=
  match e with
  | EWrite path text =>
      (is_file "xanes.in" path -> has_xiabs text i) /\
      (is_file "weight.txt" path -> text = str_float X third ++ newline)
  | _ => True
  end.

Definition xanes_event (i : nat) (e : event) : Prop :=
  match e with
  | EWrite path text => is_file "xanes.in" path -> has_xiabs text i
  | _ => True
  end.

Definition weight_event (X : externals) (e : event) : Prop :=
  match e with
  | EWrite path text =>
      is_file "weight.txt" path -> text = str_float X third ++ newline
  | _ => True
  end.

(** The directory of the [n]-th photon of a site. *)
Definition dipole_dir (target : string) (site : nat) (specie : string)
    (n : nat) : string :=
  path_join (path_join target (fmt_03 site ++ "_" ++ specie))
            ("dipole" ++ str_nat n).

(** One call of [write] after another on the same instance; between two calls
    the caller may hand over another structure and the disk may have
    changed. *)
Record call : Type := {
  c_target : string;
  c_sites : list nat;
  c_mapping : list (nat * nat);
  c_structure : structure;
  c_files : Dict.t string }.

Definition run_call (X : externals) (c : call) (w : world) : world :=
  snd (write X (c_target c) (c_sites c) (c_mapping c)
         (with_fs (c_files c) (with_structure (c_structure c) w))).

Definition run_calls (X : externals) (cs : list call) (w : world) : world :=
  fold_left (fun w c => run_call X c w) cs w.

(** The labels the structure [l] carries at the requested sites. *)
Fixpoint labels_at (l : list string) (index_mapping : list (nat * nat))
    (sites : list nat) : result (list string) :=
  match sites with
  | [] => Ok []
  | site :: rest =>
      match index_lookup index_mapping site with
      | Ok i =>
          match nth_error l i with
          | Some s =>
              match labels_at l index_mapping rest with
              | Ok r => Ok (s :: r)
              | Raise e => Raise e
              end
          | None => Raise IndexError
          end
      | Raise e => Raise e
      end
  end.

(** The value of a cut-off in the cards. *)
Definition card_cutoff (key : string) (w : world) : result pyval :=
  get_path (_cards (self w)) ["QE"; "system"; key].

(** The variable of [write] that holds the cut-off [key]. *)
Definition local_cutoff (key : string) (w : world) : pyval :=
  if String.eqb key "ecutwfc" then ecutwfc (locals w) else ecutrho (locals w).

(** The stored cut-off [key] is a number not below [a]. *)
Definition card_at_least (key : string) (a : Q) (w : world) : Prop :=
  exists b, card_cutoff key w = Ok (VNum b) /\ (a <= b)%Q.

(** The variable holding the cut-off [key] is a number not below [a]. *)
Definition local_at_least (key : string) (a : Q) (w : world) : Prop :=
  exists e, local_cutoff key w = VNum e /\ (a <= e)%Q.

(** The catalogue's cut-off [key] of [symbol] is the number [q]. *)
Definition table_cutoff (psp_dict : pyval) (key symbol : string) (q : Q) : Prop :=
  exists entry, getitem psp_dict symbol = Ok entry /\
                getitem entry key = Ok (VNum q).

(** [m] is the largest of [e0] and the catalogue's cut-offs of [symbols]. *)
Definition is_max_cutoff (psp_dict : pyval) (key : string)
    (symbols : list string) (e0 m : Q) : Prop :=
  (e0 <= m)%Q /\
  (forall s, In s symbols ->
             exists q, table_cutoff psp_dict key s q /\ (q <= m)%Q) /\
  (m = e0 \/ exists s, In s symbols /\ table_cutoff psp_dict key s m).

(** ** The vocabulary of the properties *)

(** A computation whose every normal return is the value [c]. *)
Definition returns_only {A} (m : M A) (c : A) : Prop :=
  forall w a w', m w = (Ok a, w') -> a = c.

(** A computation that leaves the world as it found it. *)
Definition reader {A} (m : M A) : Prop := forall w, snd (m w) = w.

(** Whatever its outcome, [m] takes a world to one related to it by [R]. *)
Definition stable (R : world -> world -> Prop) {A} (m : M A) : Prop :=
  forall w, R w (snd (m w)).

(** The projection [f] of the world is left as it was. *)
Definition same {T} (f : world -> T) : world -> world -> Prop :=
  fun w w' => f w' = f w.

(** The property [I] of the world, once true, stays true. *)
Definition preserves (I : world -> Prop) : world -> world -> Prop :=
  fun w w' => I w -> I w'.

(** Two paths part ways at some key. *)
Fixpoint diverges (l q : list string) : bool :=
  match l, q with
  | a :: l', b :: q' => if String.eqb a b then diverges l' q' else true
  | _, _ => false
  end.

(** Between [w] and [w'] the event [e] has been added to the trace. *)
Definition adds (e : event) : world -> world -> Prop :=
  fun w w' => exists evs, trace w' = (trace w ++ evs)%list /\ In e evs.

(** Between [w] and [w'] the trace has grown by events that satisfy [G]. *)
Definition extends_by (G : event -> Prop) : world -> world -> Prop :=
  fun w w' => exists evs, trace w' = (trace w ++ evs)%list /\ Forall G evs.

(** The asset directory, the catalogue's name and the disk. *)
Definition assets (w : world) : option string * option string * Dict.t string :=
  (_psp_directory (self w), _psp_cutoff_table (self w), fs w).

(** Every copy goes to one of the two names written with the braces. *)
Definition to_literal_names (target : string) (e : event) : Prop :=
  match e with
  | ECopy _ dst => dst = path_join target "{element}.fch.upf" \/
                   dst = path_join target "Core_{element}.wfc"
  | _ => True
  end.

(** The two cut-offs as [write] holds them in its variables. *)
Definition local_cutoffs (w : world) : pyval * pyval :=
  (ecutwfc (locals w), ecutrho (locals w)).

(** The part of the world the resolver reads, and the stored cut-offs. *)
Definition system_view (w : world)
  : result pyval * option string * option string * Dict.t string * structure :=
  (get_path (_cards (self w)) ["QE"; "system"], _psp_directory (self w),
   _psp_cutoff_table (self w), fs w, structure_sc w).

(** The two cut-offs as the cards hold them. *)
Definition stored_cutoffs (w : world) : result pyval * result pyval :=
  (card_cutoff "ecutwfc" w, card_cutoff "ecutrho" w).

(** [s.endswith(suffix)] *)
Fixpoint ends_with (suffix s : string) : bool :=
  if String.eqb s suffix then true
  else match s with
       | EmptyString => false
       | String _ s' => ends_with suffix s'
       end.

(** [j] is the place of [key] in the sorted keys, counted from 0. *)
Definition is_position (keys : list string) (key : string) (j : nat) : Prop :=
  nth_error (sorted keys) j = Some key /\
  forall j', nth_error (sorted keys) j' = Some key -> j' = j.

(** The mapping [psp] of [write], once assigned. *)
Definition local_psp (w : world) : option (Dict.t pyval) := psp (locals w).

(** No constraint on an event. *)
Definition anything (e : event) : Prop := True.

(** The six orders in which the keys O, Ti and Ti+ can have been inserted. *)
Definition O_Ti_orders : list (list string) :=
  [ ["O"; "Ti"; "Ti+"]; ["O"; "Ti+"; "Ti"]; ["Ti"; "O"; "Ti+"];
    ["Ti"; "Ti+"; "O"]; ["Ti+"; "O"; "Ti"]; ["Ti+"; "Ti"; "O"] ].

(** ** The constructor and the [cards] property

    [__init__] (lines 139-184) takes the two lookups of the environment, which
    live in [lightshow/__init__.py], as their results. *)

(** What [_get_CHPSP_DIRECTORY_from_environ()] and
    [_get_PSP_DIRECTORY_from_environ()] of [lightshow/__init__.py] return. *)
Record environ : Type := {
  _get_CHPSP_DIRECTORY_from_environ : option string;
  _get_PSP_DIRECTORY_from_environ : option string }.

Definition chpsp_warning : string :=
  "chpsp_directory not provided, and XS_CHPSP_DIRECTORY not in "
  ++ "the current environment variables. core-hole pseudo "
  ++ "potential files will not be written.".

Definition psp_warning : string :=
  "psp_directory not provided XS_PSP_DIRECTORY not in the "
  ++ "current environment variables OR psp_cutoff_table not "
  ++ "provided. neutral pseudo potential files will not be written.".

Definition set_self (i : instance) : M unit :=
  fun w => (Ok tt, with_self i w).

(** [__init__]: the attributes are assigned in one step at the end; the
    warnings come in the order of the source. *)
Definition __init__ (env : environ) (cards : pyval)
    (kpoints : structure -> Z * Z * Z)
    (chpsp_directory psp_directory psp_cutoff_table psp_json : option string)
    (defaultConvPerAtom : Q) (edge : pyval) (name : string) : M unit :=
  let chpsp_directory :=
    match chpsp_directory with
    | None => _get_CHPSP_DIRECTORY_from_environ env
    | Some _ => chpsp_directory
    end in
  (match chpsp_directory with
   | None => warn chpsp_warning
   | Some _ => ret tt
   end) ;;
  let psp_directory :=
    match psp_directory with
    | None => _get_PSP_DIRECTORY_from_environ env
    | Some _ => psp_directory
    end in
  (match psp_directory, psp_cutoff_table with
   | Some _, Some _ => ret tt
   | _, _ => warn psp_warning
   end) ;;
  set_self {| _cards := cards;
              _chpsp_directory := chpsp_directory;
              _psp_cutoff_table := psp_cutoff_table;
              _psp_json := psp_json;
              _psp_directory := psp_directory;
              _kpoints := kpoints;
              _defaultConvPerAtom := defaultConvPerAtom;
              _edge := edge;
              _name := name |}.

(** The property [cards] *)
Definition cards : M pyval := get_self _cards.

(** The directory the constructor settles on: the argument, or else the
    environment's. *)
Definition settled (argument environment : option string) : option string :=
  match argument with
  | None => environment
  | Some _ => argument
  end.

(** The warnings of the constructor. *)
Definition init_warnings (chpsp_directory psp_directory psp_cutoff_table
                          : option string) : list event :=
  (match chpsp_directory with
   | None => [EWarn chpsp_warning]
   | Some _ => []
   end ++
   match psp_directory, psp_cutoff_table with
   | Some _, Some _ => []
   | _, _ => [EWarn psp_warning]
   end)%list.

(** ** The codec of the archive *)

(** What [packPsps] stores for a file with the text [pspString] (lines
    211-213). *)
Definition encode_psp (X : externals) (pspString : string) : option string :=
  utf8_decode X (b64encode X (bz2_compress X (utf8_encode X pspString))).

(** What [_unpackPsps] does to an entry of the archive (lines 267 and 271):
    base64, then bz2, then the text codec. *)
Definition decode_psp (X : externals) (packed : string) : option string :=
  match b64decode X packed with
  | Some raw =>
      match bz2_decompress X raw with
      | Some pspString => utf8_decode X pspString
      | None => None
      end
  | None => None
  end.

(** Every entry of [outJSON] is the packed text of the file of that name in
    the directory [dir]. *)
Definition packed_from (X : externals) (files : Dict.t string) (dir : string)
    (outJSON : Dict.t pyval) : Prop :=
  forall name v, Dict.get outJSON name = Some v ->
    exists content packed,
      Dict.get files (path_join dir name) = Some content /\
      encode_psp X content = Some packed /\
      v = VStr packed.

(** The files [folder/name], for the names of [names], hold the texts
    [original]. *)
Definition restored (folder : string) (original : string -> option string)
    (names : list string) (w : world) : Prop :=
  forall name, In name names ->
    Dict.get (fs w) (path_join folder name) = original name /\
    original name <> None.

(** The catalogue names the file [name] for [symbol]. *)
Definition table_filename (psp_dict : pyval) (symbol name : string) : Prop :=
  exists entry, getitem psp_dict symbol = Ok entry /\
                getitem entry "filename" = Ok (VStr name).

(** ** The lines of a deck *)

(** The lines of a deck: the thirteen of [&input_xspectra], the [xkvec] lines
    of a quadrupole calculation, the ten of [&plot] and the seven that
    follow. *)
Definition deck_lines (X : externals) (mode : string) (iabs : nat)
    (d0 d1 d2 : Z) (xk : list string)
    (element edge xcoordcrys terminator cut_occ_states kpts shift : string)
    (xniter xerror xcheck_conv xnepoint xemin xemax cut_desmooth : pyval)
  : list string :=
  app (app (app [ "&input_xspectra";
      "    calculation = 'xanes_" ++ mode ++ "'";
      "    edge = '" ++ edge ++ "'";
      "    prefix = 'pwscf'";
      "    outdir = '../'";
      "    xniter = " ++ py_str X xniter;
      "    xiabs = " ++ str_nat iabs;
      "    xerror = " ++ py_str X xerror;
      "    xcoordcrys = " ++ xcoordcrys;
      "    xcheck_conv = " ++ py_str X xcheck_conv;
      "    xepsilon(1) = " ++ str_Z d0;
      "    xepsilon(2) = " ++ str_Z d1;
      "    xepsilon(3) = " ++ str_Z d2 ] xk)
    [ "/";
        "&plot";
        "    xnepoint = " ++ py_str X xnepoint;
        "    xemin = " ++ py_str X xemin;
        "    xemax = " ++ py_str X xemax;
        "    terminator = " ++ terminator;
        "    cut_occ_states = " ++ cut_occ_states;
        "    gamma_mode = 'constant'";
        "    xgamma = 0.01 ";
        "/" ])
    [ "&pseudos";
       "    filecore = '../../Core_" ++ element ++ ".wfc'";
       "/";
       "&cut_occ";
       "    cut_desmooth = " ++ py_str X cut_desmooth;
       "/";
       kpts ++ " " ++ shift ].

(** The [xkvec] lines: three for a quadrupole calculation, none otherwise. *)
Definition xkvec_lines (X : externals) (mode : string) (xkvec : list Z)
  : result (list string) :=
  if String.eqb mode "quadrupole" then
    match list_getitem xkvec 0, list_getitem xkvec 1, list_getitem xkvec 2 with
    | Ok k0, Ok k1, Ok k2 =>
        Ok [ "    xkvec(1) = " ++ fmt_10f X k0;
             "    xkvec(2) = " ++ fmt_10f X k1;
             "    xkvec(3) = " ++ fmt_10f X k2 ]
    | _, _, _ => Raise IndexError
    end
  else Ok [].

(** The polarisation of the [n]-th photon. *)
Definition axes : list (nat * (Z * Z * Z)) :=
  [ (1%nat, (1, 0, 0)%Z); (2%nat, (0, 1, 0)%Z); (3%nat, (0, 0, 1)%Z) ].

(** [f"{k[0]} {k[1]} {k[2]}"] *)
Definition grid_text (k : Z * Z * Z) : string :=
  str_Z (fst (fst k)) ++ " " ++ str_Z (snd (fst k)) ++ " " ++ str_Z (snd k).

(** The grid of the two self-consistent runs: the Gamma point alone when the
    primitive cell has another number of sites than the structure. *)
Definition scf_grid (w : world) : Z * Z * Z :=
  if negb (Nat.eqb (primitive_sites (structure_sc w))
                   (List.length (species (structure_sc w))))
  then (1, 1, 1)%Z
  else _kpoints (self w) (structure_sc w).

(** ** What a call reads, writes and leaves alone *)

(** The statements of [write] before the pseudopotentials are resolved
    (lines 368-404). *)
Definition preamble (target_directory : string) (sites : list nat)
    (index_mapping : list (nat * nat))
  : M (list string * list string * string * (Z * Z * Z)) :=
  fresh_frame ;;
  prepared <- prepare_cards target_directory sites index_mapping ;;
  read_cutoffs ;;
  ret prepared.

(** What the call has not written to. *)
Definition outside (w : world)
  : list event * Dict.t string * structure * option string * option string
    * option string :=
  (trace w, fs w, structure_sc w, _psp_directory (self w),
   _psp_cutoff_table (self w), _chpsp_directory (self w)).

(** [p] is the directory [target] or a path below it. *)
Definition below (target p : string) : Prop :=
  p = target \/ exists rest, p = path_join target rest.

(** The directories the call makes and the files it writes or copies to lie
    below [target]. *)
Definition inside (target : string) (e : event) : Prop :=
  match e with
  | EWarn _ => True
  | EMkdir p => below target p
  | ECopy _ dst => below target dst
  | EWrite p _ => below target p
  end.

(** The files that are not below [target] are as they were. *)
Definition confined (target : string) : world -> world -> Prop :=
  fun w w' =>
    forall p, ~ below target p -> Dict.get (fs w') p = Dict.get (fs w) p.

(** The entry of the cards at the path [q]. *)
Definition card (q : list string) (w : world) : result pyval :=
  get_path (_cards (self w)) q.

(** The entries of the cards that [write] assigns. *)
Definition written_cards : list (list string) :=
  [ ["XS"; "element"];
    ["XS"; "input_xspectra"; "edge"];
    ["XS"; "kpts"; "kpts"];
    ["QE"; "electrons"; "conv_thr"];
    ["QE"; "system"; "ecutwfc"];
    ["QE"; "system"; "ecutrho"];
    ["QE"; "control"; "pseudo_dir"] ].

(** The attributes of the instance other than the cards. *)
Definition settings (w : world)
  : pyval * (structure -> Z * Z * Z) * Q * structure :=
  (_edge (self w), _kpoints (self w), _defaultConvPerAtom (self w),
   structure_sc w).

(** The part of the world [PWInput] is rendered from. *)
Definition scf_inputs (w : world)
  : structure * option (Dict.t pyval) * result pyval * result pyval
    * result pyval :=
  (structure_sc w, psp (locals w), card ["QE"; "control"] w,
   card ["QE"; "system"] w, card ["QE"; "electrons"] w).

(** The entries of the cards a deck takes from the call. *)
Definition deck_cards (w : world)
  : result pyval * result pyval * result pyval * result pyval :=
  (card ["XS"; "element"] w, card ["XS"; "input_xspectra"; "edge"] w,
   card ["XS"; "kpts"; "kpts"] w, card ["XS"; "kpts"; "shift"] w).

(** A computation that does not raise [e], whatever the world. *)
Definition never (e : exn) {A} (m : M A) : Prop :=
  forall w, fst (m w) <> Raise e.

(** The warning of a missing core-hole file. *)
Definition core_hole_warning (element chpsp : string) : event :=
  EWarn (element ++ ".fch.upf or Core_" ++ element ++ ".wfc not found "
         ++ "in " ++ chpsp).

(** The world once the ionised entry is in the mapping [p]. *)
Definition with_ionised (element : string) (p : Dict.t pyval) (w : world)
  : world :=
  with_locals {| psp := Some (Dict.set p (element ++ "+")
                                       (VStr (element ++ ".fch.upf")));
                 ecutwfc := ecutwfc (locals w);
                 ecutrho := ecutrho (locals w) |} w.

(** [int(s)] on a string of decimal digits. *)
Definition int (s : string) : option nat :=
  option_map Nat.of_uint (NilEmpty.uint_of_string s).


(** The structure has as many sites as before, the same primitive cell, and
    the same label at every atom outside [atoms]. *)
Definition relabelled_within (atoms : list nat) : world -> world -> Prop :=
  fun w w' =>
    List.length (species (structure_sc w'))
    = List.length (species (structure_sc w)) /\
    primitive_sites (structure_sc w') = primitive_sites (structure_sc w) /\
    forall i, ~ In i atoms ->
              nth_error (species (structure_sc w')) i
              = nth_error (species (structure_sc w)) i.

(** Every file written or received lies, by its name, directly in one of the
    directories [dirs] or in one made by an earlier event of the list. *)
Fixpoint housed_from (dirs : list string) (evs : list event) : Prop :=
  match evs with
  | [] => True
  | EMkdir d :: rest => housed_from (d :: dirs) rest
  | EWrite p _ :: rest =>
      (exists d name, p = path_join d name /\ In d dirs) /\
      housed_from dirs rest
  | ECopy _ p :: rest =>
      (exists d name, p = path_join d name /\ In d dirs) /\
      housed_from dirs rest
  | EWarn _ :: rest => housed_from dirs rest
  end.

(** Between [w] and [w'] the trace has grown by events that are housed. *)
Definition housed (dirs : list string) : world -> world -> Prop :=
  fun w w' => exists evs, trace w' = (trace w ++ evs)%list /\
                          housed_from dirs evs.

(** ** More example data *)

Definition w_no_table : world :=
  example_world
    {| _cards := XSPECTRA_DEFAULT_CARDS;
       _chpsp_directory := None;
       _psp_cutoff_table := None;
       _psp_json := None;
       _psp_directory := Some "psp";
       _kpoints := fun _ => (2, 2, 2)%Z;
       _defaultConvPerAtom := 1 # 10000000000;
       _edge := VStr "K";
       _name := "XSpectra" |} full_assets.

(** A world at the point of the injection: the placeholder mapping is in
    place, the core-hole directory holds the potential of Ti only. *)
Definition w_half_core_hole : world :=
  with_locals {| psp := Some (placeholder_psp ["Ti"; "O"]);
                 ecutwfc := VNum (40 # 1); ecutrho := VNum (320 # 1) |}
    (example_world (example_instance None (Some "ch"))
                   [("ch/Ti.fch.upf", "TIFCH")]).

(** Nothing in the environment. *)
Definition empty_environ : environ :=
  {| _get_CHPSP_DIRECTORY_from_environ := None;
     _get_PSP_DIRECTORY_from_environ := None |}.

(** The externals of the examples, with a [PWInput] that shows the labels of
    the structure and the grid it is given. *)
Definition show_externals : externals :=
  {| json_loads := json_loads example_externals;
     json_dumps := json_dumps example_externals;
     utf8_encode := utf8_encode example_externals;
     utf8_decode := utf8_decode example_externals;
     bz2_compress := bz2_compress example_externals;
     bz2_decompress := bz2_decompress example_externals;
     b64encode := b64encode example_externals;
     b64decode := b64decode example_externals;
     py_repr := py_repr example_externals;
     str_float := str_float example_externals;
     fmt_10f := fmt_10f example_externals;
     PWInput := fun s _ _ _ _ k =>
       "<pwscf " ++ String.concat " " (species s) ++ " | " ++ grid_text k
       ++ ">" |}.



(** * Properties *)

(** ** Running a computation *)

Lemma bind_Ok {A B} (m : M A) (k : A -> M B) w b w' :
  bind m k w = (Ok b, w') ->
  exists a w1, m w = (Ok a, w1) /\ k a w1 = (Ok b, w').
Proof.
  unfold bind. destruct (m w) as [[a | e] w1]; intro H.
  - exists a, w1. split; [reflexivity | exact H].
  - discriminate H.
Qed.

Lemma lift_Ok {A} (r : result A) w a w' :
  lift r w = (Ok a, w') -> r = Ok a /\ w' = w.
Proof. unfold lift. intro H. inversion H. split; reflexivity. Qed.

Lemma ret_Ok {A} (x : A) w a w' : ret x w = (Ok a, w') -> a = x /\ w' = w.
Proof. unfold ret. intro H. inversion H. split; reflexivity. Qed.

Lemma of_option_Ok {A} (o : option A) e w a w' :
  of_option o e w = (Ok a, w') -> o = Some a /\ w' = w.
Proof.
  destruct o; simpl; unfold ret, raise; intro H; inversion H.
  split; reflexivity.
Qed.

Lemma returns_only_bind {A B} (m : M A) (k : A -> M B) c :
  (forall x, returns_only (k x) c) -> returns_only (bind m k) c.
Proof.
  intros Hk w b w' H. apply bind_Ok in H. destruct H as (a & w1 & _ & H).
  exact (Hk a w1 b w' H).
Qed.

Lemma returns_only_ret {A} (c : A) : returns_only (ret c) c.
Proof. intros w a w' H. apply ret_Ok in H. tauto. Qed.

Lemma snd_bind {A B} (m : M A) (k : A -> M B) w :
  snd (bind m k w) =
  match m w with
  | (Ok a, w1) => snd (k a w1)
  | (Raise _, w1) => w1
  end.
Proof. unfold bind. destruct (m w) as [[a | e] w1]; reflexivity. Qed.

(** *** Computations that only read *)

Lemma reader_Ok {A} (m : M A) w a w' :
  reader m -> m w = (Ok a, w') -> w' = w.
Proof. intros Hm E. specialize (Hm w). rewrite E in Hm. exact Hm. Qed.

Lemma reader_bind {A B} (m : M A) (k : A -> M B) :
  reader m -> (forall a, reader (k a)) -> reader (bind m k).
Proof.
  intros Hm Hk w. rewrite snd_bind. specialize (Hm w).
  destruct (m w) as [[a | e] w1]; simpl in Hm; subst w1.
  - apply Hk.
  - reflexivity.
Qed.

Lemma reader_ret {A} (a : A) : reader (ret a).
Proof. intro w. reflexivity. Qed.

Lemma reader_lift {A} (r : result A) : reader (lift r).
Proof. intro w. reflexivity. Qed.

Lemma reader_raise {A} e : reader (@raise A e).
Proof. intro w. reflexivity. Qed.

Lemma reader_of_option {A} (o : option A) e : reader (of_option o e).
Proof. destruct o; intro w; reflexivity. Qed.

Lemma reader_getattr name : reader (getattr name).
Proof.
  intro w. unfold getattr.
  repeat match goal with |- context [if ?b then _ else _] => destruct b end;
    reflexivity.
Qed.

Lemma reader_get_self {A} (f : instance -> A) : reader (get_self f).
Proof. intro w. reflexivity. Qed.

Lemma reader_cards_get p : reader (cards_get p).
Proof. intro w. reflexivity. Qed.

Lemma reader_read_text p : reader (read_text p).
Proof. intro w. unfold read_text. destruct (Dict.get (fs w) p); reflexivity. Qed.

Lemma reader_get_local {A} (f : frame -> A) : reader (get_local f).
Proof. intro w. reflexivity. Qed.

Lemma reader_get_psp : reader get_psp.
Proof.
  apply reader_bind; [apply reader_get_local | intro; apply reader_of_option].
Qed.

Lemma reader_structure_getitem i : reader (structure_getitem i).
Proof.
  intro w. unfold structure_getitem.
  destruct (nth_error (species (structure_sc w)) i); reflexivity.
Qed.

Lemma reader_get_structure : reader get_structure.
Proof. intro w. reflexivity. Qed.

Lemma reader_json_load X text : reader (json_load X text).
Proof. apply reader_of_option. Qed.

Create HintDb reader.
#[local] Hint Resolve reader_ret reader_lift reader_raise reader_of_option
  reader_getattr reader_get_self reader_cards_get reader_read_text
  reader_get_local reader_get_psp reader_structure_getitem
  reader_get_structure reader_json_load : reader.

Ltac reader_tac :=
  repeat first
    [ apply reader_bind; [ | intro ]
    | solve [ auto with reader ]
    | match goal with
      | |- reader (if ?b then _ else _) => destruct b
      | |- reader (match ?x with _ => _ end) => destruct x
      end ].

Lemma reader_site_species im sites : reader (site_species im sites).
Proof. induction sites as [| s rest IH]; simpl; reader_tac. Qed.

Lemma reader_pwinput X k : reader (pwinput X k).
Proof. unfold pwinput. reader_tac. Qed.

Lemma reader_write_xspectra_in X mode iabs dirs xkvec :
  reader (_write_xspectra_in X mode iabs dirs xkvec).
Proof. unfold _write_xspectra_in. reader_tac. Qed.

Lemma reader_absorber_index s : reader (absorber_index s).
Proof. unfold absorber_index. reader_tac. Qed.

#[local] Hint Resolve reader_site_species reader_pwinput
  reader_write_xspectra_in reader_absorber_index : reader.

(** *** Relations a computation keeps between the world before and after *)

Section Stable.

Context (R : world -> world -> Prop) `{!RelationClasses.PreOrder R}.

Lemma stable_reader {A} (m : M A) : reader m -> stable R m.
Proof. intros Hm w. rewrite (Hm w). reflexivity. Qed.

Lemma stable_bind {A B} (m : M A) (k : A -> M B) :
  stable R m -> (forall a, stable R (k a)) -> stable R (bind m k).
Proof.
  intros Hm Hk w. rewrite snd_bind. specialize (Hm w).
  destruct (m w) as [[a | e] w1]; simpl in Hm.
  - etransitivity; [exact Hm | apply Hk].
  - exact Hm.
Qed.

Lemma stable_try {A} (m h : M A) e :
  stable R m -> stable R h -> stable R (try_except m e h).
Proof.
  intros Hm Hh w. unfold try_except. specialize (Hm w).
  destruct (m w) as [[a | e'] w1]; simpl in *.
  - exact Hm.
  - destruct (exn_eqb e' e); simpl.
    + etransitivity; [exact Hm | apply Hh].
    + exact Hm.
Qed.

Lemma stable_for_each {A} (l : list A) (body : A -> M unit) :
  (forall x, stable R (body x)) -> stable R (for_each l body).
Proof.
  intro Hb. induction l as [| x l IH]; simpl.
  - apply stable_reader, reader_ret.
  - apply stable_bind; [apply Hb | intro; exact IH].
Qed.

End Stable.

#[local] Instance same_PreOrder {T} (f : world -> T)
  : RelationClasses.PreOrder (same f).
Proof.
  split.
  - intro w. reflexivity.
  - intros a b c Hab Hbc. unfold same in *. congruence.
Qed.

#[local] Instance preserves_PreOrder (I : world -> Prop)
  : RelationClasses.PreOrder (preserves I).
Proof.
  split.
  - intros w H. exact H.
  - intros a b c Hab Hbc H. exact (Hbc (Hab H)).
Qed.

Lemma stable_Ok R {A} (m : M A) w a w' :
  stable R m -> m w = (Ok a, w') -> R w w'.
Proof. intros Hm E. specialize (Hm w). rewrite E in Hm. exact Hm. Qed.

Lemma stable_Raise R {A} (m : M A) w e w' :
  stable R m -> m w = (Raise e, w') -> R w w'.
Proof. intros Hm E. specialize (Hm w). rewrite E in Hm. exact Hm. Qed.

(** ** Dictionaries and the cards *)

Lemma dict_get_set_same {V} (d : Dict.t V) k v :
  Dict.get (Dict.set d k v) k = Some v.
Proof.
  induction d as [| [k' v'] d IH]; simpl.
  - rewrite String.eqb_refl. reflexivity.
  - destruct (String.eqb k k') eqn:E; simpl; rewrite E.
    + reflexivity.
    + exact IH.
Qed.

Lemma dict_get_set_other {V} (d : Dict.t V) k v k' :
  k' <> k -> Dict.get (Dict.set d k v) k' = Dict.get d k'.
Proof.
  intro Hne. induction d as [| [k0 v0] d IH]; simpl.
  - apply String.eqb_neq in Hne. rewrite Hne. reflexivity.
  - destruct (String.eqb k k0) eqn:E; simpl.
    + apply String.eqb_eq in E. subst k0.
      apply String.eqb_neq in Hne. rewrite Hne. reflexivity.
    + destruct (String.eqb k' k0); [reflexivity | exact IH].
Qed.

Lemma dict_set_fst {V} (d : Dict.t V) k v x :
  In x (map fst (Dict.set d k v)) <-> x = k \/ In x (map fst d).
Proof.
  induction d as [| [k' v'] d IH]; simpl.
  - intuition.
  - destruct (String.eqb k k') eqn:E; simpl.
    + apply String.eqb_eq in E. subst k'. intuition.
    + rewrite IH. intuition.
Qed.

Lemma dict_keys_NoDup {V} (d : Dict.t V) : NoDup (Dict.keys d).
Proof. apply NoDup_nodup. Qed.

Lemma dict_keys_set {V} (d : Dict.t V) k v : In k (Dict.keys (Dict.set d k v)).
Proof. unfold Dict.keys. apply nodup_In. apply dict_set_fst. left. reflexivity. Qed.

Lemma getitem_setitem_same v k x v' :
  setitem v k x = Ok v' -> getitem v' k = Ok x.
Proof.
  destruct v; simpl; intro H; inversion H; subst. simpl.
  rewrite dict_get_set_same. reflexivity.
Qed.

Lemma getitem_setitem_other v k x v' k' :
  setitem v k x = Ok v' -> k' <> k -> getitem v' k' = getitem v k'.
Proof.
  destruct v; simpl; intros H Hne; inversion H; subst. simpl.
  rewrite dict_get_set_other by exact Hne. reflexivity.
Qed.

Lemma diverges_app l q r : diverges l q = true -> diverges l (q ++ r)%list = true.
Proof.
  revert q. induction l as [| a l IH]; intros [| b q] H; simpl in *;
    try discriminate.
  destruct (String.eqb a b); [apply IH; exact H | reflexivity].
Qed.

Lemma get_set_path_other v p k x v' q :
  set_path v p k x = Ok v' -> diverges (p ++ [k])%list q = true ->
  get_path v' q = get_path v q.
Proof.
  revert v v' q. induction p as [| k1 p IH]; intros v v' q Hset Hdiv.
  - simpl in *. destruct q as [| b q]; [discriminate |].
    destruct (String.eqb k b) eqn:E; [discriminate |].
    simpl. apply String.eqb_neq in E.
    rewrite (getitem_setitem_other _ _ _ _ b Hset) by congruence.
    reflexivity.
  - simpl in Hset. destruct (getitem v k1) as [inner | e] eqn:Eg; [| discriminate].
    destruct (set_path inner p k x) as [inner' | e] eqn:Es; [| discriminate].
    destruct q as [| b q]; [discriminate |]. simpl in Hdiv. simpl.
    destruct (String.eqb k1 b) eqn:E.
    + apply String.eqb_eq in E. subst b.
      rewrite (getitem_setitem_same _ _ _ _ Hset), Eg.
      apply (IH _ _ _ Es Hdiv).
    + apply String.eqb_neq in E.
      rewrite (getitem_setitem_other _ _ _ _ b Hset) by congruence.
      reflexivity.
Qed.

Lemma get_set_path_same v p k x v' :
  set_path v p k x = Ok v' -> get_path v' (p ++ [k])%list = Ok x.
Proof.
  revert v v'. induction p as [| k1 p IH]; intros v v' Hset; simpl in *.
  - rewrite (getitem_setitem_same _ _ _ _ Hset). reflexivity.
  - destruct (getitem v k1) as [inner | e] eqn:Eg; [| discriminate].
    destruct (set_path inner p k x) as [inner' | e] eqn:Es; [| discriminate].
    rewrite (getitem_setitem_same _ _ _ _ Hset). apply (IH _ _ Es).
Qed.

Lemma cards_set_Ok p k x w u w' :
  cards_set p k x w = (Ok u, w') ->
  exists c, set_path (_cards (self w)) p k x = Ok c /\
            w' = with_self (with_cards c (self w)) w.
Proof.
  unfold cards_set. destruct (set_path (_cards (self w)) p k x) as [c | e];
    intro H; inversion H. exists c. split; reflexivity.
Qed.

Lemma cards_set_cutoff p k x key :
  diverges (p ++ [k])%list ["QE"; "system"; key] = true ->
  stable (same (card_cutoff key)) (cards_set p k x).
Proof.
  intros Hdiv w. unfold same, card_cutoff, cards_set.
  destruct (set_path (_cards (self w)) p k x) as [c | e] eqn:E; simpl.
  - apply (get_set_path_other _ _ _ _ _ _ E Hdiv).
  - reflexivity.
Qed.

(** ** The archive tier never runs *)

(** The first statement of [_unpackPsps] that touches the instance reads an
    attribute that does not exist. *)
Lemma unpackPsps_raises X e1 e2 symbols folder w :
  _unpackPsps X e1 e2 symbols folder w = (Raise AttributeError, w).
Proof. reflexivity. Qed.

Lemma archive_unpack_raises X symbols target w :
  archive_unpack X symbols target w = (Raise AttributeError, w).
Proof. reflexivity. Qed.

Lemma second_try_raises X symbols target w :
  try_except (archive_unpack X symbols target) FileNotFoundError
             give_up_directory w = (Raise AttributeError, w).
Proof. reflexivity. Qed.

(** ** What each phase of [write] keeps *)

Ltac stable_tac :=
  repeat first
    [ match goal with
      | H : _ |- stable _ _ => solve [ simple apply H; try reflexivity ]
      end
    | apply stable_reader; [ exact _ | solve [ auto with reader ] ]
    | apply stable_bind; [ exact _ | | intro ]
    | apply stable_try; [ exact _ | | ]
    | apply stable_for_each; [ exact _ | intro ]
    | match goal with
      | |- stable _ (if ?b then _ else _) => destruct b
      | |- stable _ (match ?x with _ => _ end) => destruct x
      end ].

Section Phases.

Context (X : externals) (R : world -> world -> Prop)
        `{!RelationClasses.PreOrder R}.

Hypothesis H_mkdir : forall p, stable R (mkdir p).
Hypothesis H_warn : forall msg, stable R (warn msg).
Hypothesis H_open_w : forall p, stable R (open_w p).
Hypothesis H_f_write : forall p s, stable R (f_write p s).
Hypothesis H_copyfile : forall src dst, stable R (copyfile src dst).
Hypothesis H_set_psp : forall d, stable R (set_psp d).
Hypothesis H_set_ecutwfc : forall v, stable R (set_ecutwfc v).
Hypothesis H_set_ecutrho : forall v, stable R (set_ecutrho v).
Hypothesis H_raise_ecutwfc : forall entry, stable R (raise_ecutwfc entry).
Hypothesis H_raise_ecutrho : forall entry, stable R (raise_ecutrho entry).
Hypothesis H_fresh_frame : stable R fresh_frame.
Hypothesis H_structure_setitem : forall i l, stable R (structure_setitem i l).
Hypothesis H_cards_set : forall p k x,
    diverges (p ++ [k])%list ["QE"; "system"] = true ->
    stable R (cards_set p k x).
Hypothesis H_cards_system : forall k x,
    stable R (cards_set ["QE"; "system"] k x).

Lemma stable_prepare_cards target sites im :
  stable R (prepare_cards target sites im).
Proof.
  unfold prepare_cards. stable_tac.
Qed.

Lemma stable_read_cutoffs : stable R read_cutoffs.
Proof. unfold read_cutoffs. stable_tac. Qed.

Lemma stable_direct_lookup_loop psp_dict target symbols :
  stable R (direct_lookup_loop psp_dict target symbols).
Proof.
  induction symbols as [| s rest IH]; simpl; stable_tac.
Qed.

Lemma stable_direct_lookup symbols target :
  stable R (direct_lookup X symbols target).
Proof.
  unfold direct_lookup. stable_tac. apply stable_direct_lookup_loop.
Qed.

Lemma stable_resolve_psp symbols target :
  stable R (resolve_psp X symbols target).
Proof.
  unfold resolve_psp.
  apply stable_bind; [exact _ | stable_tac | intro d].
  apply stable_bind; [exact _ | | intro; stable_tac].
  destruct d; [| stable_tac].
  apply stable_try; [exact _ | apply stable_direct_lookup |].
  intro w. rewrite second_try_raises. reflexivity.
Qed.

Lemma stable_store_cutoffs : stable R store_cutoffs.
Proof.
  unfold store_cutoffs. stable_tac.
Qed.

Lemma stable_write_ground_state target k :
  stable R (write_ground_state X target k).
Proof. unfold write_ground_state. stable_tac. Qed.

Lemma stable_inject_core_hole element target :
  stable R (inject_core_hole element target).
Proof. unfold inject_core_hole. stable_tac. Qed.

Lemma stable_photon_loop path iabs total l n :
  stable R (photon_loop X path iabs total l n).
Proof.
  revert n. induction l as [| ph rest IH]; intro n; simpl; stable_tac.
Qed.

Lemma stable_site_body target element im k iabs ss :
  stable R (site_body X target element im k iabs ss).
Proof.
  unfold site_body. destruct ss as [site specie]. stable_tac.
Qed.

Lemma stable_sites target element im k iabs l :
  stable R (for_each l (site_body X target element im k iabs)).
Proof. apply stable_for_each; [exact _ | intro; apply stable_site_body]. Qed.

Lemma stable_write target sites im : stable R (write X target sites im).
Proof.
  unfold write.
  apply stable_bind; [exact _ | exact H_fresh_frame | intros _].
  apply stable_bind; [exact _ | apply stable_prepare_cards | intro prepared].
  destruct prepared as [[[symbols species] element] kpoints_scf].
  apply stable_bind; [exact _ | apply stable_read_cutoffs | intros _].
  apply stable_bind; [exact _ | apply stable_resolve_psp | intros _].
  apply stable_bind; [exact _ | apply stable_store_cutoffs | intros _].
  apply stable_bind; [exact _ | apply stable_write_ground_state | intros _].
  apply stable_bind; [exact _ | apply stable_inject_core_hole | intros _].
  apply stable_bind; [exact _ | stable_tac | intro iabs].
  apply stable_bind; [exact _ | apply stable_sites | intros _].
  stable_tac.
Qed.

End Phases.

Lemma stable_raise_ecutwfc R `{!RelationClasses.PreOrder R} :
  (forall v, stable R (set_ecutwfc v)) ->
  forall entry, stable R (raise_ecutwfc entry).
Proof. intros Hset entry. unfold raise_ecutwfc. stable_tac. Qed.

Lemma stable_raise_ecutrho R `{!RelationClasses.PreOrder R} :
  (forall v, stable R (set_ecutrho v)) ->
  forall entry, stable R (raise_ecutrho entry).
Proof. intros Hset entry. unfold raise_ecutrho. stable_tac. Qed.

(** Discharges what a relation asks of the primitive writers. *)
Ltac prim_stable_core :=
  let w := fresh "w" in
  intros; intro w;
  unfold mkdir, warn, open_w, f_write, copyfile, set_psp, set_ecutwfc,
    set_ecutrho, fresh_frame, structure_setitem, cards_set, set_psp_directory;
  repeat match goal with
         | |- context [match ?x with _ => _ end] => destruct x
         | |- context [if ?x then _ else _] => destruct x
         end;
  reflexivity.

Ltac prim_stable :=
  first [ apply stable_raise_ecutwfc; [exact _ | prim_stable_core]
        | apply stable_raise_ecutrho; [exact _ | prim_stable_core]
        | prim_stable_core ].

(** *** The events a computation adds *)

#[local] Instance extends_by_PreOrder G : RelationClasses.PreOrder (extends_by G).
Proof.
  split.
  - intro w. exists []. split; [symmetry; apply app_nil_r | constructor].
  - intros a b c (e1 & H1 & F1) (e2 & H2 & F2). exists (e1 ++ e2)%list. split.
    + rewrite H2, H1. symmetry. apply app_assoc.
    + apply Forall_app. split; assumption.
Qed.

Lemma extends_by_event (G : event -> Prop) e w :
  G e -> extends_by G w (with_event e w).
Proof. intro H. exists [e]. split; [reflexivity | repeat constructor; exact H]. Qed.

Lemma extends_by_same_trace G w w' : trace w' = trace w -> extends_by G w w'.
Proof.
  intro H. exists []. split; [rewrite H; symmetry; apply app_nil_r | constructor].
Qed.

(** Writers that add no event. *)
Ltac silent_stable :=
  let w := fresh "w" in
  intros; intro w; apply extends_by_same_trace;
  unfold open_w, set_psp, set_ecutwfc, set_ecutrho, fresh_frame,
    structure_setitem, cards_set, set_psp_directory;
  repeat match goal with
         | |- context [match ?x with _ => _ end] => destruct x
         end;
  reflexivity.

Lemma mkdir_extends G p : G (EMkdir p) -> stable (extends_by G) (mkdir p).
Proof. intros H w. apply extends_by_event. exact H. Qed.

Lemma warn_extends G msg : G (EWarn msg) -> stable (extends_by G) (warn msg).
Proof. intros H w. apply extends_by_event. exact H. Qed.

Lemma f_write_extends G p s :
  G (EWrite p s) -> stable (extends_by G) (f_write p s).
Proof. intros H w. unfold f_write. simpl. exists [EWrite p s].
  split; [reflexivity | repeat constructor; exact H]. Qed.

Lemma copyfile_extends G src dst :
  G (ECopy src dst) -> stable (extends_by G) (copyfile src dst).
Proof.
  intros H w. unfold copyfile.
  destruct (String.eqb src dst); destruct (Dict.get (fs w) src); simpl;
    try (apply extends_by_same_trace; reflexivity).
  exists [ECopy src dst]. split; [reflexivity | repeat constructor; exact H].
Qed.

(** ** The status record (C8) *)

Lemma write_returns_only X target sites im :
  returns_only (write X target sites im) {| pass := true; errors := [] |}.
Proof.
  unfold write.
  apply returns_only_bind; intros _.
  apply returns_only_bind; intros [[[symbols species] element] kpoints_scf].
  repeat (apply returns_only_bind; intro).
  apply returns_only_ret.
Qed.

(** C8: every call of [write] that runs to completion returns exactly the
    status record [{"pass": True, "errors": {}}], whatever fallbacks and
    diagnostics occurred on the way. *)
Theorem write_returns_pass X target sites im w st w' :
  write X target sites im w = (Ok st, w') ->
  st = {| pass := true; errors := [] |}.
Proof. apply write_returns_only. Qed.

(** ** The archive codec (C2) *)

(** C2: whatever [packPsps] has packed, [_unpackPsps] raises
    [AttributeError] before it reads the catalogue or the archive, and leaves
    the disk as it found it: no file is materialised. *)
Theorem unpack_after_pack_raises X pspJsonOut e1 e2 symbols folder w :
  let w1 := snd (packPsps X pspJsonOut w) in
  _unpackPsps X e1 e2 symbols folder w1 = (Raise AttributeError, w1).
Proof. intro w1. apply unpackPsps_raises. Qed.

(** Packing the example directory succeeds and writes the archive; unpacking
    Ti from it raises and writes nothing into [out]. *)
Example pack_then_unpack_example :
  let packed := packPsps example_externals "psp/psp.json" w_direct in
  fst packed = Ok tt /\
  Dict.get (fs (snd packed)) "psp/psp.json" = Some "<archive>" /\
  fst (_unpackPsps example_externals (VNum (40 # 1)) (VNum (320 # 1)) ["Ti"]
         "out" (snd packed)) = Raise AttributeError /\
  Dict.get (fs (snd (_unpackPsps example_externals (VNum (40 # 1))
                       (VNum (320 # 1)) ["Ti"] "out" (snd packed))))
           "out/ti.upf" = None.
Proof. vm_compute. repeat split. Qed.

(** ** Falling through the tiers (C5, C7) *)

Lemma resolve_missing_table X symbols target w d t :
  _psp_directory (self w) = Some d ->
  _psp_cutoff_table (self w) = Some t ->
  Dict.get (fs w) (path_join d t) = None ->
  resolve_psp X symbols target w = (Raise AttributeError, w).
Proof.
  intros Hd Ht Hf.
  unfold resolve_psp, bind, getattr at 1. simpl. rewrite Hd.
  unfold try_except at 1.
  assert (E : direct_lookup X symbols target w = (Raise FileNotFoundError, w)).
  { unfold direct_lookup, bind, getattr, lift, read_text. simpl.
    rewrite Hd, Ht. simpl. rewrite Hf. reflexivity. }
  rewrite E. reflexivity.
Qed.

(** C5: with the asset directory and the catalogue name configured and the
    catalogue file absent, the resolver raises [AttributeError] out of the
    archive tier, and no call of [write] on that world completes. *)
Theorem missing_table_aborts X target sites im w d t :
  _psp_directory (self w) = Some d ->
  _psp_cutoff_table (self w) = Some t ->
  Dict.get (fs w) (path_join d t) = None ->
  (forall symbols, resolve_psp X symbols target w = (Raise AttributeError, w)) /\
  (forall st w', write X target sites im w <> (Ok st, w')).
Proof.
  intros Hd Ht Hf. split.
  - intro symbols. apply (resolve_missing_table X symbols target w d t Hd Ht Hf).
  - intros st w' H. unfold write in H.
    apply bind_Ok in H. destruct H as (u0 & w0 & E0 & H).
    apply bind_Ok in H. destruct H as (prepared & w1 & E1 & H).
    destruct prepared as [[[symbols species] element] kpoints_scf].
    apply bind_Ok in H. destruct H as (u2 & w2 & E2 & H).
    apply bind_Ok in H. destruct H as (u3 & w3 & E3 & _).
    assert (S0 : same assets w w0).
    { apply (stable_Ok _ _ _ _ _ (ltac:(prim_stable) : stable (same assets) fresh_frame) E0). }
    assert (S1 : same assets w0 w1).
    { refine (stable_Ok _ _ _ _ _ _ E1).
      apply stable_prepare_cards; [exact _ | prim_stable | prim_stable]. }
    assert (S2 : same assets w1 w2).
    { refine (stable_Ok _ _ _ _ _ _ E2).
      apply stable_read_cutoffs; [exact _ | prim_stable | prim_stable]. }
    unfold same, assets in S0, S1, S2.
    assert (Hd2 : _psp_directory (self w2) = Some d) by congruence.
    assert (Ht2 : _psp_cutoff_table (self w2) = Some t) by congruence.
    assert (Hf2 : Dict.get (fs w2) (path_join d t) = None) by congruence.
    rewrite (resolve_missing_table X symbols target w2 d t Hd2 Ht2 Hf2) in E3.
    discriminate E3.
Qed.

Lemma missing_table_aborts_witness :
  _psp_directory (self w_missing) = Some "psp" /\
  _psp_cutoff_table (self w_missing) = Some "table.json" /\
  Dict.get (fs w_missing) (path_join "psp" "table.json") = None /\
  resolve_psp example_externals ["Ti"; "O"] "out" w_missing
  = (Raise AttributeError, w_missing).
Proof.
  split; [reflexivity |]. split; [reflexivity |]. split; [reflexivity |].
  apply (missing_table_aborts example_externals "out" [0%nat] identity_mapping
           w_missing "psp" "table.json"); reflexivity.
Defined.

Lemma write_returns_pass_witness :
  exists st w',
    write example_externals "out" [0%nat] identity_mapping w_no_core_hole
    = (Ok st, w') /\
    In (EWarn "Ti.fch.upf or Core_Ti.wfc not found in ch") (trace w') /\
    st = {| pass := true; errors := [] |}.
Proof.
  exists {| pass := true; errors := [] |}.
  exists (snd (write example_externals "out" [0%nat] identity_mapping
                 w_no_core_hole)).
  assert (H : write example_externals "out" [0%nat] identity_mapping
                w_no_core_hole
              = (Ok {| pass := true; errors := [] |},
                 snd (write example_externals "out" [0%nat] identity_mapping
                        w_no_core_hole)))
    by (vm_compute; reflexivity).
  split; [exact H |]. split.
  - vm_compute. auto 10.
  - exact (write_returns_pass _ _ _ _ _ _ _ H).
Defined.

Lemma write_same_psp_directory X target sites im :
  stable (same (fun w => _psp_directory (self w))) (write X target sites im).
Proof. apply stable_write; [exact _ | prim_stable ..]. Qed.

(** C7: no call of [write] changes the instance's asset directory; in
    particular a call in which the direct lookup and the archive tier both
    fail leaves it configured, where the claim has it set to [None]. *)
Theorem write_keeps_psp_directory X target sites im w :
  _psp_directory (self (snd (write X target sites im w)))
  = _psp_directory (self w).
Proof. apply write_same_psp_directory. Qed.

(** On the empty disk the first call aborts in the archive tier, the
    directory is still configured afterwards, and the next call aborts in the
    same way. *)
Example failed_tiers_example :
  let r := write example_externals "out" [0%nat] identity_mapping w_missing in
  fst r = Raise AttributeError /\
  _psp_directory (self (snd r)) = Some "psp" /\
  fst (write example_externals "out" [0%nat] identity_mapping (snd r))
  = Raise AttributeError.
Proof. vm_compute. repeat split. Qed.

(** ** Core-hole injection (C6) *)

Lemma inject_core_hole_copies element target :
  stable (extends_by (to_literal_names target))
         (inject_core_hole element target).
Proof.
  unfold inject_core_hole.
  apply stable_bind; [exact _ | stable_tac | intro p].
  apply stable_bind; [exact _ | silent_stable | intros _].
  apply stable_bind; [exact _ | stable_tac | intros [chpsp |]];
    [| stable_tac].
  apply stable_try; [exact _ | | apply warn_extends; exact I].
  apply stable_bind; [exact _ | | intros _];
    apply copyfile_extends; simpl; auto.
Qed.

(** C6: the ionised entry is registered, but for every absorbing element the
    two core-hole files are copied to the names ["{element}.fch.upf"] and
    ["Core_{element}.wfc"] with the braces left in; for Ti the target directory
    receives no [Ti.fch.upf] and no [Core_Ti.wfc]. *)
Theorem core_hole_copies_ignore_element :
  (forall element target w,
      extends_by (to_literal_names target) w
                 (snd (inject_core_hole element target w))) /\
  (let r := write example_externals "out" [0%nat] identity_mapping w_direct in
   fst r = Ok {| pass := true; errors := [] |} /\
   option_map (fun p => Dict.get p "Ti+") (psp (locals (snd r)))
   = Some (Some (VStr "Ti.fch.upf")) /\
   Dict.get (fs (snd r)) "out/{element}.fch.upf" = Some "TIFCH" /\
   Dict.get (fs (snd r)) "out/Core_{element}.wfc" = Some "CORE" /\
   Dict.get (fs (snd r)) "out/Ti.fch.upf" = None /\
   Dict.get (fs (snd r)) "out/Core_Ti.wfc" = None).
Proof.
  split.
  - intros element target. apply inject_core_hole_copies.
  - vm_compute. repeat split.
Qed.

(** ** Relabelling the absorbing atom (C3) *)

Lemma list_set_revert {A} (l l1 l2 : list A) i a b :
  list_set l i a = Some l1 -> list_set l1 i b = Some l2 ->
  nth_error l i = Some b -> l2 = l.
Proof.
  revert l1 l2 i. induction l as [| y l IH]; intros l1 l2 i H1 H2 Hn.
  - destruct i; discriminate.
  - destruct i as [| i]; simpl in *.
    + inversion H1; subst. simpl in H2. inversion H2; subst.
      inversion Hn; subst. reflexivity.
    + destruct (list_set l i a) as [r |] eqn:E1; [| discriminate].
      inversion H1; subst. simpl in H2.
      destruct (list_set r i b) as [r2 |] eqn:E2; [| discriminate].
      inversion H2; subst. f_equal. apply (IH _ _ _ E1 E2 Hn).
Qed.

Lemma structure_setitem_Ok i label w u w' :
  structure_setitem i label w = (Ok u, w') ->
  exists l, list_set (species (structure_sc w)) i label = Some l /\
            species (structure_sc w') = l.
Proof.
  unfold structure_setitem.
  destruct (list_set (species (structure_sc w)) i label) as [l |];
    intro H; inversion H; subst. exists l. split; reflexivity.
Qed.

Tactic Notation "step" hyp(H) "as" ident(a) ident(w) ident(E) :=
  apply bind_Ok in H; destruct H as (a & w & E & H).

Tactic Notation "keeps_structure" hyp(E) "as" ident(S) :=
  pose proof E as S;
  apply (stable_Ok (same structure_sc)) in S;
  [ unfold same in S
  | first [ apply stable_reader; [exact _ | solve [auto with reader]]
          | apply stable_photon_loop; [exact _ | prim_stable ..]
          | prim_stable ] ].

(** C3 (amended): processing a requested site whose atom carries the label of
    the absorbing element leaves the structure's species list as it was: the
    relabelling to the ionised label is reverted. *)
Theorem site_restores_species X target element im k iabs site specie i w w' :
  index_lookup im site = Ok i ->
  nth_error (species (structure_sc w)) i = Some element ->
  site_body X target element im k iabs (site, specie) w = (Ok tt, w') ->
  species (structure_sc w') = species (structure_sc w).
Proof.
  intros Hi Hn H. unfold site_body in H.
  step H as u1 w1 E1. keeps_structure E1 as S1.
  step H as i1 w2 E2. apply lift_Ok in E2. destruct E2 as [E2 ->].
  rewrite Hi in E2. inversion E2; subst i1.
  step H as u3 w3 E3. apply structure_setitem_Ok in E3.
  destruct E3 as (l1 & Hl1 & Hs1).
  step H as u4 w4 E4. keeps_structure E4 as S4.
  step H as es w5 E5. keeps_structure E5 as S5.
  step H as u6 w6 E6. keeps_structure E6 as S6.
  step H as u7 w7 E7. keeps_structure E7 as S7.
  step H as i2 w8 E8. apply lift_Ok in E8. destruct E8 as [E8 ->].
  rewrite Hi in E8. inversion E8; subst i2.
  step H as u9 w9 E9. apply structure_setitem_Ok in E9.
  destruct E9 as (l2 & Hl2 & Hs2).
  step H as tw w10 E10. apply lift_Ok in E10. destruct E10 as [_ ->].
  keeps_structure H as S11.
  rewrite S11, Hs2.
  rewrite S7, S6, S5, S4, Hs1 in Hl2. rewrite S1 in Hl1.
  apply (list_set_revert _ _ _ _ _ _ Hl1 Hl2 Hn).
Qed.

Lemma site_restores_species_witness :
  index_lookup identity_mapping 0 = Ok 0%nat /\
  nth_error (species (structure_sc w_resolved)) 0 = Some "Ti" /\
  fst (site_body example_externals "out" "Ti" identity_mapping (2, 2, 2)%Z
         (Some 3%nat) (0%nat, "Ti") w_resolved) = Ok tt /\
  species (structure_sc
             (snd (site_body example_externals "out" "Ti" identity_mapping
                     (2, 2, 2)%Z (Some 3%nat) (0%nat, "Ti") w_resolved)))
  = ["Ti"; "O"].
Proof.
  assert (H : site_body example_externals "out" "Ti" identity_mapping
                (2, 2, 2)%Z (Some 3%nat) (0%nat, "Ti") w_resolved
              = (Ok tt,
                 snd (site_body example_externals "out" "Ti" identity_mapping
                        (2, 2, 2)%Z (Some 3%nat) (0%nat, "Ti") w_resolved)))
    by (vm_compute; reflexivity).
  split; [reflexivity |]. split; [reflexivity |]. split.
  - rewrite H. reflexivity.
  - rewrite (site_restores_species example_externals "out" "Ti"
               identity_mapping (2, 2, 2)%Z (Some 3%nat) 0%nat "Ti" 0%nat
               w_resolved _ eq_refl eq_refl H).
    reflexivity.
Defined.

(** C3 as stated fails: with the sites 0 (Ti) and 1 (O) requested, the call
    completes and the oxygen atom is left relabelled as Ti. *)
Lemma species_not_restored_counterexample :
  let r := write example_externals "out" [0%nat; 1%nat] identity_mapping
                 w_unconfigured in
  fst r = Ok {| pass := true; errors := [] |} /\
  species (structure_sc w_unconfigured) = ["Ti"; "O"] /\
  species (structure_sc (snd r)) = ["Ti"; "Ti"] /\
  ~ (forall X target element im k iabs site specie w w',
        site_body X target element im k iabs (site, specie) w = (Ok tt, w') ->
        species (structure_sc w') = species (structure_sc w)).
Proof.
  split; [vm_compute; reflexivity |].
  split; [reflexivity |].
  split; [vm_compute; reflexivity |].
  intro C.
  assert (H : site_body example_externals "out" "Ti" identity_mapping
                (2, 2, 2)%Z (Some 3%nat) (1%nat, "O") w_resolved
              = (Ok tt,
                 snd (site_body example_externals "out" "Ti" identity_mapping
                        (2, 2, 2)%Z (Some 3%nat) (1%nat, "O") w_resolved)))
    by (vm_compute; reflexivity).
  apply C in H. vm_compute in H. discriminate H.
Qed.

(** ** The cut-offs (C1, C10) *)

Tactic Notation "keeps" constr(f) "in" hyp(E) "as" ident(S) :=
  pose proof E as S;
  apply (stable_Ok (same f)) in S;
  [ unfold same in S
  | first [ apply stable_reader; [exact _ | solve [auto with reader]]
          | prim_stable ] ].

Lemma try_except_Ok {A} (m h : M A) e w a w' :
  try_except m e h w = (Ok a, w') ->
  m w = (Ok a, w') \/ exists w1, m w = (Raise e, w1) /\ h w1 = (Ok a, w').
Proof.
  unfold try_except. destruct (m w) as [[x | e'] w1]; intro H.
  - left. exact H.
  - destruct (exn_eqb e' e) eqn:Ee.
    + right. exists w1. split; [| exact H].
      destruct e', e; try discriminate Ee; reflexivity.
    + discriminate H.
Qed.

Lemma py_gt_num c e0 b :
  py_gt c (VNum e0) = Ok b ->
  exists q, c = VNum q /\ b = if Qlt_le_dec e0 q then true else false.
Proof.
  destruct c; simpl; intro H; inversion H. exists q. split; reflexivity.
Qed.

Lemma is_max_cutoff_nil psp_dict key e0 : is_max_cutoff psp_dict key [] e0 e0.
Proof.
  repeat split.
  - apply Qle_refl.
  - intros s [].
  - left. reflexivity.
Qed.

Lemma is_max_cutoff_cons psp_dict key s rest e0 q e1 :
  table_cutoff psp_dict key s q ->
  is_max_cutoff psp_dict key rest (if Qlt_le_dec e0 q then q else e0) e1 ->
  is_max_cutoff psp_dict key (s :: rest) e0 e1.
Proof.
  intros Hq (Hle & Hall & Hin).
  destruct (Qlt_le_dec e0 q) as [Hlt | Hge].
  - repeat split.
    + apply Qle_trans with q; [apply Qlt_le_weak; exact Hlt | exact Hle].
    + intros s' [<- | Hs'].
      * exists q. split; [exact Hq | exact Hle].
      * apply Hall. exact Hs'.
    + destruct Hin as [-> | (s' & Hs' & Hc)].
      * right. exists s. split; [left; reflexivity | exact Hq].
      * right. exists s'. split; [right; exact Hs' | exact Hc].
  - repeat split.
    + exact Hle.
    + intros s' [<- | Hs'].
      * exists q. split; [exact Hq |]. apply Qle_trans with e0; assumption.
      * apply Hall. exact Hs'.
    + destruct Hin as [-> | (s' & Hs' & Hc)].
      * left. reflexivity.
      * right. exists s'. split; [right; exact Hs' | exact Hc].
Qed.

Lemma raise_ecutwfc_Ok entry w u w' e0 :
  raise_ecutwfc entry w = (Ok u, w') ->
  ecutwfc (locals w) = VNum e0 ->
  exists q, getitem entry "cutoff_wfc" = Ok (VNum q) /\
            ecutwfc (locals w') = VNum (if Qlt_le_dec e0 q then q else e0) /\
            ecutrho (locals w') = ecutrho (locals w).
Proof.
  intros H He. unfold raise_ecutwfc in H.
  step H as c w1 E1. apply lift_Ok in E1. destruct E1 as [Ec ->].
  step H as e w2 E2. unfold get_local in E2. inversion E2; subst e w2.
  step H as gt w3 E3. apply lift_Ok in E3. destruct E3 as [Eg ->].
  rewrite He in Eg. apply py_gt_num in Eg. destruct Eg as (q & -> & ->).
  exists q. split; [exact Ec |].
  destruct (Qlt_le_dec e0 q).
  - unfold set_ecutwfc in H. inversion H; subst w'. simpl. split; reflexivity.
  - apply ret_Ok in H. destruct H as [_ ->]. split; [exact He | reflexivity].
Qed.

Lemma raise_ecutrho_Ok entry w u w' r0 :
  raise_ecutrho entry w = (Ok u, w') ->
  ecutrho (locals w) = VNum r0 ->
  exists q, getitem entry "cutoff_rho" = Ok (VNum q) /\
            ecutrho (locals w') = VNum (if Qlt_le_dec r0 q then q else r0) /\
            ecutwfc (locals w') = ecutwfc (locals w).
Proof.
  intros H He. unfold raise_ecutrho in H.
  step H as c w1 E1. apply lift_Ok in E1. destruct E1 as [Ec ->].
  step H as e w2 E2. unfold get_local in E2. inversion E2; subst e w2.
  step H as gt w3 E3. apply lift_Ok in E3. destruct E3 as [Eg ->].
  rewrite He in Eg. apply py_gt_num in Eg. destruct Eg as (q & -> & ->).
  exists q. split; [exact Ec |].
  destruct (Qlt_le_dec r0 q).
  - unfold set_ecutrho in H. inversion H; subst w'. simpl. split; reflexivity.
  - apply ret_Ok in H. destruct H as [_ ->]. split; [exact He | reflexivity].
Qed.

(** A completed pass of tier 1 leaves in [ecutwfc] and [ecutrho] the largest
    of the value it started from and the catalogue's values. *)
Lemma direct_lookup_loop_Ok psp_dict target symbols :
  forall w u w' e0 r0,
    direct_lookup_loop psp_dict target symbols w = (Ok u, w') ->
    ecutwfc (locals w) = VNum e0 ->
    ecutrho (locals w) = VNum r0 ->
    exists e1 r1,
      ecutwfc (locals w') = VNum e1 /\
      ecutrho (locals w') = VNum r1 /\
      is_max_cutoff psp_dict "cutoff_wfc" symbols e0 e1 /\
      is_max_cutoff psp_dict "cutoff_rho" symbols r0 r1.
Proof.
  induction symbols as [| symbol rest IH]; intros w u w' e0 r0 H He Hr.
  - simpl in H. apply ret_Ok in H. destruct H as [_ ->].
    exists e0, r0.
    split; [exact He |]. split; [exact Hr |]. split; apply is_max_cutoff_nil.
  - simpl in H.
    step H as entry w1 E1. apply lift_Ok in E1. destruct E1 as [Eentry ->].
    step H as fn w2 E2. apply lift_Ok in E2. destruct E2 as [_ ->].
    step H as p w3 E3. apply (reader_Ok _ _ _ _ reader_get_psp) in E3. subst w3.
    step H as u4 w4 E4. keeps local_cutoffs in E4 as S4.
    step H as d w5 E5. apply (reader_Ok _ _ _ _ (reader_getattr _)) in E5.
    subst w5.
    step H as dir w6 E6. apply lift_Ok in E6. destruct E6 as [_ ->].
    step H as name w7 E7. apply lift_Ok in E7. destruct E7 as [_ ->].
    step H as u8 w8 E8. keeps local_cutoffs in E8 as S8.
    unfold local_cutoffs in S4, S8.
    assert (He8 : ecutwfc (locals w8) = VNum e0) by congruence.
    assert (Hr8 : ecutrho (locals w8) = VNum r0) by congruence.
    step H as u9 w9 E9.
    destruct (raise_ecutwfc_Ok _ _ _ _ _ E9 He8) as (q & Hq & He9 & Hr9).
    step H as u10 w10 E10.
    assert (Hr9' : ecutrho (locals w9) = VNum r0) by congruence.
    destruct (raise_ecutrho_Ok _ _ _ _ _ E10 Hr9') as (q' & Hq' & Hr10 & He10).
    rewrite He9 in He10.
    destruct (IH _ _ _ _ _ H He10 Hr10) as (e1 & r1 & H1 & H2 & H3 & H4).
    exists e1, r1.
    split; [exact H1 |]. split; [exact H2 |]. split.
    + apply is_max_cutoff_cons with q; [| exact H3].
      exists entry. split; assumption.
    + apply is_max_cutoff_cons with q'; [| exact H4].
      exists entry. split; assumption.
Qed.

Lemma direct_lookup_Ok X symbols target w u w' d e0 r0 :
  direct_lookup X symbols target w = (Ok u, w') ->
  _psp_directory (self w) = Some d ->
  ecutwfc (locals w) = VNum e0 ->
  ecutrho (locals w) = VNum r0 ->
  exists t text psp_dict e1 r1,
    _psp_cutoff_table (self w) = Some t /\
    Dict.get (fs w) (path_join d t) = Some text /\
    json_loads X text = Some psp_dict /\
    ecutwfc (locals w') = VNum e1 /\
    ecutrho (locals w') = VNum r1 /\
    is_max_cutoff psp_dict "cutoff_wfc" symbols e0 e1 /\
    is_max_cutoff psp_dict "cutoff_rho" symbols r0 r1.
Proof.
  intros H Hd He Hr. unfold direct_lookup in H.
  step H as d0 w1 E1. change (getattr "_psp_directory" w)
    with (Ok (_psp_directory (self w)), w) in E1. inversion E1; subst d0 w1.
  rewrite Hd in H.
  step H as dir w2 E2. apply lift_Ok in E2. destruct E2 as [E2 ->].
  inversion E2; subst dir.
  step H as t0 w3 E3. change (getattr "_psp_cutoff_table" w)
    with (Ok (_psp_cutoff_table (self w)), w) in E3. inversion E3; subst t0 w3.
  step H as table w4 E4. apply lift_Ok in E4. destruct E4 as [E4 ->].
  destruct (_psp_cutoff_table (self w)) as [t |] eqn:Et; [| discriminate E4].
  inversion E4; subst table.
  step H as text w5 E5. unfold read_text in E5.
  destruct (Dict.get (fs w) (path_join d t)) as [txt |] eqn:Ef;
    inversion E5; subst txt w5.
  step H as psp_dict w6 E6. apply of_option_Ok in E6. destruct E6 as [E6 ->].
  step H as u7 w7 E7. keeps local_cutoffs in E7 as S7. unfold local_cutoffs in S7.
  assert (He7 : ecutwfc (locals w7) = VNum e0) by congruence.
  assert (Hr7 : ecutrho (locals w7) = VNum r0) by congruence.
  destruct (direct_lookup_loop_Ok _ _ _ _ _ _ _ _ H He7 Hr7)
    as (e1 & r1 & H1 & H2 & H3 & H4).
  exists t, text, psp_dict, e1, r1.
  repeat (split; [first [assumption | reflexivity] |]). assumption.
Qed.

Lemma resolve_psp_Ok X symbols target w u w' d e0 r0 :
  resolve_psp X symbols target w = (Ok u, w') ->
  _psp_directory (self w) = Some d ->
  ecutwfc (locals w) = VNum e0 ->
  ecutrho (locals w) = VNum r0 ->
  exists t text psp_dict e1 r1,
    _psp_cutoff_table (self w) = Some t /\
    Dict.get (fs w) (path_join d t) = Some text /\
    json_loads X text = Some psp_dict /\
    ecutwfc (locals w') = VNum e1 /\
    ecutrho (locals w') = VNum r1 /\
    is_max_cutoff psp_dict "cutoff_wfc" symbols e0 e1 /\
    is_max_cutoff psp_dict "cutoff_rho" symbols r0 r1.
Proof.
  intros H Hd He Hr. unfold resolve_psp in H.
  step H as d0 w1 E1. change (getattr "_psp_directory" w)
    with (Ok (_psp_directory (self w)), w) in E1. inversion E1; subst d0 w1.
  rewrite Hd in H.
  step H as u2 w2 E2.
  apply try_except_Ok in E2. destruct E2 as [E2 | (w1 & _ & E2)].
  - assert (Hs : self w2 = self w).
    { refine (stable_Ok (same self) _ _ _ _ _ E2).
      apply stable_direct_lookup; [exact _ | prim_stable ..]. }
    step H as d2 w3 E3. change (getattr "_psp_directory" w2)
      with (Ok (_psp_directory (self w2)), w2) in E3. inversion E3; subst d2 w3.
    rewrite Hs, Hd in H. apply ret_Ok in H. destruct H as [_ ->].
    apply (direct_lookup_Ok _ _ _ _ _ _ _ _ _ E2 Hd He Hr).
  - rewrite second_try_raises in E2. discriminate E2.
Qed.

Lemma card_cutoff_system key w :
  card_cutoff key w =
  match get_path (_cards (self w)) ["QE"; "system"] with
  | Ok v => getitem v key
  | Raise e => Raise e
  end.
Proof.
  unfold card_cutoff. simpl.
  destruct (getitem (_cards (self w)) "QE") as [qe | e]; [| reflexivity].
  destruct (getitem qe "system") as [sys | e]; [| reflexivity].
  destruct (getitem sys key); reflexivity.
Qed.

Lemma system_view_cutoff key w w' :
  system_view w' = system_view w -> card_cutoff key w' = card_cutoff key w.
Proof.
  intro H. rewrite !card_cutoff_system.
  assert (Hc : fst (fst (fst (fst (system_view w'))))
               = fst (fst (fst (fst (system_view w)))))
    by (rewrite H; reflexivity).
  change (get_path (_cards (self w')) ["QE"; "system"]
          = get_path (_cards (self w)) ["QE"; "system"]) in Hc.
  rewrite Hc. reflexivity.
Qed.

Lemma cards_set_system_view p k x :
  diverges (p ++ [k])%list ["QE"; "system"] = true ->
  stable (same system_view) (cards_set p k x).
Proof.
  intros Hdiv w. unfold same, system_view, cards_set.
  destruct (set_path (_cards (self w)) p k x) as [c | e] eqn:E.
  - pose proof (get_set_path_other _ _ _ _ _ ["QE"; "system"] E Hdiv) as G.
    simpl. simpl in G. rewrite G. reflexivity.
  - reflexivity.
Qed.

Lemma cards_set_cutoffs p k x key :
  diverges (p ++ [k])%list ["QE"; "system"] = true ->
  stable (same (card_cutoff key)) (cards_set p k x).
Proof.
  intro Hdiv. apply cards_set_cutoff.
  apply (diverges_app _ ["QE"; "system"] [key] Hdiv).
Qed.

Lemma cards_get_Ok p w v w' :
  cards_get p w = (Ok v, w') -> get_path (_cards (self w)) p = Ok v /\ w' = w.
Proof. unfold cards_get. intro H. injection H as H1 H2. split; congruence. Qed.

Lemma read_cutoffs_Ok w u w' :
  read_cutoffs w = (Ok u, w') ->
  card_cutoff "ecutwfc" w = Ok (ecutwfc (locals w')) /\
  card_cutoff "ecutrho" w = Ok (ecutrho (locals w')) /\
  system_view w' = system_view w.
Proof.
  intro H. unfold read_cutoffs in H.
  step H as e1 w1 E1. apply cards_get_Ok in E1. destruct E1 as [Ee1 ->].
  step H as u2 w2 E2. unfold set_ecutwfc in E2. injection E2 as _ <-.
  step H as e3 w3 E3. apply cards_get_Ok in E3. destruct E3 as [Ee3 ->].
  unfold set_ecutrho in H. injection H as _ <-.
  split; [exact Ee1 |]. split; [exact Ee3 | reflexivity].
Qed.

Lemma cards_set_stored_cutoffs p k x :
  diverges (p ++ [k])%list ["QE"; "system"] = true ->
  stable (same stored_cutoffs) (cards_set p k x).
Proof.
  intros Hdiv w. unfold same, stored_cutoffs.
  rewrite (cards_set_cutoffs p k x "ecutwfc" Hdiv w).
  rewrite (cards_set_cutoffs p k x "ecutrho" Hdiv w). reflexivity.
Qed.

Lemma store_cutoffs_Ok w u w' :
  store_cutoffs w = (Ok u, w') ->
  card_cutoff "ecutwfc" w' = Ok (ecutwfc (locals w)) /\
  card_cutoff "ecutrho" w' = Ok (ecutrho (locals w)).
Proof.
  intro H. unfold store_cutoffs in H.
  step H as e1 w1 E1. unfold get_local in E1. injection E1 as <- <-.
  step H as u2 w2 E2. apply cards_set_Ok in E2. destruct E2 as (c1 & Hc1 & ->).
  step H as e3 w3 E3. unfold get_local in E3. injection E3 as <- <-.
  step H as u4 w4 E4. apply cards_set_Ok in E4. destruct E4 as (c2 & Hc2 & ->).
  apply cards_set_Ok in H. destruct H as (c3 & Hc3 & ->).
  unfold card_cutoff. cbn [self with_self with_cards _cards] in *.
  split.
  - rewrite (get_set_path_other _ _ _ _ _ ["QE"; "system"; "ecutwfc"] Hc3 eq_refl).
    rewrite (get_set_path_other _ _ _ _ _ ["QE"; "system"; "ecutwfc"] Hc2 eq_refl).
    apply (get_set_path_same _ _ _ _ _ Hc1).
  - rewrite (get_set_path_other _ _ _ _ _ ["QE"; "system"; "ecutrho"] Hc3 eq_refl).
    apply (get_set_path_same _ _ _ _ _ Hc2).
Qed.

Lemma mkdir_Ok p w u w' :
  mkdir p w = (Ok u, w') -> w' = with_event (EMkdir p) w.
Proof. unfold mkdir. intro H. injection H as _ <-. reflexivity. Qed.

Lemma site_species_run im sites w :
  site_species im sites w = (labels_at (species (structure_sc w)) im sites, w).
Proof.
  induction sites as [| site rest IH]; [reflexivity |].
  simpl. unfold bind, lift, structure_getitem.
  destruct (index_lookup im site) as [i | e]; [| reflexivity].
  destruct (nth_error (species (structure_sc w)) i) as [s |]; [| reflexivity].
  rewrite IH.
  destruct (labels_at (species (structure_sc w)) im rest); reflexivity.
Qed.

(** What [prepare_cards] hands on: the labels of all sites, those of the
    requested sites, and the first of these. *)
Lemma prepare_cards_Ok target sites im w symbols specs element k w' :
  prepare_cards target sites im w = (Ok (symbols, specs, element, k), w') ->
  symbols = species (structure_sc w) /\
  labels_at (species (structure_sc w)) im sites = Ok specs /\
  list_getitem specs 0 = Ok element.
Proof.
  intro H. unfold prepare_cards in H.
  step H as u1 w1 E1. apply mkdir_Ok in E1. subst w1.
  step H as st w2 E2. unfold get_structure in E2. injection E2 as <- <-.
  step H as sp w3 E3. rewrite site_species_run in E3. injection E3 as E3 <-.
  step H as el w4 E4. apply lift_Ok in E4. destruct E4 as [Eel ->].
  step H as u5 w5 E5. step H as edge w6 E6. step H as u7 w7 E7.
  step H as kp w8 E8. step H as u9 w9 E9. step H as conv w10 E10.
  step H as u11 w11 E11. apply ret_Ok in H. destruct H as [H ->].
  injection H as H1 H2 H3 H4. subst symbols sp el.
  split; [reflexivity |]. split; [exact E3 | exact Eel].
Qed.

(** The phases of a completed call, with the worlds between them. *)
Lemma write_Ok X target sites im w st w' :
  write X target sites im w = (Ok st, w') ->
  exists w0 symbols specs element k w1 w2 w3 w4 w5 w6 iabs,
    fresh_frame w = (Ok tt, w0) /\
    prepare_cards target sites im w0 = (Ok (symbols, specs, element, k), w1) /\
    read_cutoffs w1 = (Ok tt, w2) /\
    resolve_psp X symbols target w2 = (Ok tt, w3) /\
    store_cutoffs w3 = (Ok tt, w4) /\
    write_ground_state X target k w4 = (Ok tt, w5) /\
    inject_core_hole element target w5 = (Ok tt, w6) /\
    absorber_index element w6 = (Ok iabs, w6) /\
    for_each (combine sites specs) (site_body X target element im k iabs) w6
    = (Ok tt, w').
Proof.
  intro H. unfold write in H.
  step H as u0 w0 E0. step H as prepared w1 E1.
  destruct prepared as [[[symbols specs] element] k].
  step H as u2 w2 E2. step H as u3 w3 E3. step H as u4 w4 E4.
  step H as u5 w5 E5. step H as u6 w6 E6. step H as iabs w7 E7.
  step H as u8 w8 E8. apply ret_Ok in H. destruct H as [_ ->].
  pose proof (reader_Ok _ _ _ _ (reader_absorber_index _) E7) as ->.
  destruct u0, u2, u3, u4, u5, u6, u8.
  exists w0, symbols, specs, element, k, w1, w2, w3, w4, w5, w6, iabs.
  repeat (split; [assumption |]). assumption.
Qed.

Ltac tail_stable :=
  first [ intros ? ? ? ?; apply cards_set_stored_cutoffs; assumption
        | prim_stable ].

(** C1: in a completed call with the asset directory configured, the
    catalogue was read from that directory, and the stored [ecutwfc] is the
    largest of the value the cards held before the call and the catalogue's
    [cutoff_wfc] of the structure's symbols; likewise [ecutrho] with
    [cutoff_rho].  Neither is below the value held before. *)
Theorem cutoffs_are_maxima X target sites im w st w' d e0 r0 :
  _psp_directory (self w) = Some d ->
  card_cutoff "ecutwfc" w = Ok (VNum e0) ->
  card_cutoff "ecutrho" w = Ok (VNum r0) ->
  write X target sites im w = (Ok st, w') ->
  exists t text psp_dict e1 r1,
    _psp_cutoff_table (self w) = Some t /\
    Dict.get (fs w) (path_join d t) = Some text /\
    json_loads X text = Some psp_dict /\
    card_cutoff "ecutwfc" w' = Ok (VNum e1) /\
    card_cutoff "ecutrho" w' = Ok (VNum r1) /\
    is_max_cutoff psp_dict "cutoff_wfc" (species (structure_sc w)) e0 e1 /\
    is_max_cutoff psp_dict "cutoff_rho" (species (structure_sc w)) r0 r1 /\
    (e0 <= e1)%Q /\ (r0 <= r1)%Q.
Proof.
  intros Hd He Hr H. apply write_Ok in H.
  destruct H as (w0 & symbols & specs & element & k & w1 & w2 & w3 & w4 & w5
                 & w6 & iabs & E0 & E1 & E2 & E3 & E4 & E5 & E6 & E7 & E8).
  keeps system_view in E0 as S0.
  assert (S1 : system_view w1 = system_view w0).
  { refine (stable_Ok (same system_view) _ _ _ _ _ E1).
    apply stable_prepare_cards; [exact _ | prim_stable |].
    intros p k0 x Hdiv. apply cards_set_system_view. exact Hdiv. }
  destruct (read_cutoffs_Ok _ _ _ E2) as (L1 & L2 & S2).
  assert (S : system_view w2 = system_view w) by congruence.
  rewrite (system_view_cutoff "ecutwfc" _ _ (eq_trans S1 S0)) in L1.
  rewrite (system_view_cutoff "ecutrho" _ _ (eq_trans S1 S0)) in L2.
  rewrite He in L1. rewrite Hr in L2.
  injection L1 as L1. injection L2 as L2. symmetry in L1, L2.
  destruct (prepare_cards_Ok _ _ _ _ _ _ _ _ _ E1) as (Hsym & _ & _).
  assert (Hstruct : structure_sc w0 = structure_sc w).
  { unfold system_view in S0. congruence. }
  rewrite Hstruct in Hsym. subst symbols.
  unfold system_view in S.
  assert (Hd2 : _psp_directory (self w2) = Some d) by congruence.
  destruct (resolve_psp_Ok _ _ _ _ _ _ _ _ _ E3 Hd2 L1 L2)
    as (t & text & psp_dict & e1 & r1 & Ht & Hf & Hj & He1 & Hr1 & M1 & M2).
  destruct (store_cutoffs_Ok _ _ _ E4) as (C1 & C2).
  rewrite He1 in C1. rewrite Hr1 in C2.
  assert (T : stored_cutoffs w' = stored_cutoffs w4).
  { assert (T5 : stored_cutoffs w5 = stored_cutoffs w4).
    { refine (stable_Ok (same stored_cutoffs) _ _ _ _ _ E5).
      apply stable_write_ground_state; [exact _ | tail_stable ..]. }
    assert (T6 : stored_cutoffs w6 = stored_cutoffs w5).
    { refine (stable_Ok (same stored_cutoffs) _ _ _ _ _ E6).
      apply stable_inject_core_hole; [exact _ | tail_stable ..]. }
    assert (T8 : stored_cutoffs w' = stored_cutoffs w6).
    { refine (stable_Ok (same stored_cutoffs) _ _ _ _ _ E8).
      apply stable_sites; [exact _ | tail_stable ..]. }
    congruence. }
  unfold stored_cutoffs in T.
  exists t, text, psp_dict, e1, r1.
  split; [congruence |]. split; [congruence |]. split; [exact Hj |].
  split; [congruence |]. split; [congruence |].
  split; [exact M1 |]. split; [exact M2 |].
  split; [apply M1 | apply M2].
Qed.

Lemma cutoffs_are_maxima_witness :
  _psp_directory (self w_direct) = Some "psp" /\
  card_cutoff "ecutwfc" w_direct = Ok (VNum (40 # 1)) /\
  card_cutoff "ecutrho" w_direct = Ok (VNum (320 # 1)) /\
  fst (write example_externals "out" [0%nat] identity_mapping w_direct)
  = Ok {| pass := true; errors := [] |} /\
  card_cutoff "ecutwfc"
    (snd (write example_externals "out" [0%nat] identity_mapping w_direct))
  = Ok (VNum (50 # 1)) /\
  card_cutoff "ecutrho"
    (snd (write example_externals "out" [0%nat] identity_mapping w_direct))
  = Ok (VNum (360 # 1)) /\
  exists e1 r1,
    card_cutoff "ecutwfc"
      (snd (write example_externals "out" [0%nat] identity_mapping w_direct))
    = Ok (VNum e1) /\
    card_cutoff "ecutrho"
      (snd (write example_externals "out" [0%nat] identity_mapping w_direct))
    = Ok (VNum r1) /\
    (40 # 1 <= e1)%Q /\ (320 # 1 <= r1)%Q.
Proof.
  assert (H : write example_externals "out" [0%nat] identity_mapping w_direct
              = (Ok {| pass := true; errors := [] |},
                 snd (write example_externals "out" [0%nat] identity_mapping
                        w_direct)))
    by (vm_compute; reflexivity).
  split; [reflexivity |]. split; [reflexivity |]. split; [reflexivity |].
  split; [rewrite H; reflexivity |].
  split; [vm_compute; reflexivity |]. split; [vm_compute; reflexivity |].
  destruct (cutoffs_are_maxima example_externals "out" [0%nat]
              identity_mapping w_direct _ _ "psp" (40 # 1) (320 # 1)
              eq_refl eq_refl eq_refl H)
    as (t & text & psp_dict & e1 & r1 & _ & _ & _ & C1 & C2 & _ & _ & L1 & L2).
  exists e1, r1. repeat (split; [assumption |]). assumption.
Defined.

(** *** Monotonicity over calls *)

Lemma same_preserves {T} (f : world -> T) (I : world -> Prop) {A} (m : M A) :
  (forall w w', f w' = f w -> I w -> I w') ->
  stable (same f) m -> stable (preserves I) m.
Proof. intros HI Hm w Hw. apply (HI w); [apply Hm | exact Hw]. Qed.

Lemma local_at_least_same key a w w' :
  local_cutoff key w' = local_cutoff key w ->
  local_at_least key a w -> local_at_least key a w'.
Proof. intros E (e & He & Hle). exists e. split; [congruence | exact Hle]. Qed.

Lemma card_at_least_same key a w w' :
  card_cutoff key w' = card_cutoff key w ->
  card_at_least key a w -> card_at_least key a w'.
Proof. intros E (b & Hb & Hle). exists b. split; [congruence | exact Hle]. Qed.

Lemma py_gt_true_num c e' :
  py_gt c (VNum e') = Ok true -> exists q, c = VNum q /\ (e' < q)%Q.
Proof.
  intro H. apply py_gt_num in H. destruct H as (q & -> & Hb).
  exists q. split; [reflexivity |].
  destruct (Qlt_le_dec e' q); [assumption | discriminate].
Qed.

Lemma raise_ecutwfc_floor key a entry :
  stable (preserves (local_at_least key a)) (raise_ecutwfc entry).
Proof.
  intros w (e & He & Hle). unfold raise_ecutwfc, bind, lift, get_local.
  destruct (getitem entry "cutoff_wfc") as [c | x]; [| exists e; auto].
  destruct (py_gt c (ecutwfc (locals w))) as [[|] | x] eqn:G;
    try (exists e; split; [exact He | exact Hle]).
  unfold local_at_least, local_cutoff in *. simpl.
  destruct (String.eqb key "ecutwfc").
  - rewrite He in G. apply py_gt_true_num in G. destruct G as (q & -> & Hlt).
    exists q. split; [reflexivity |].
    apply Qle_trans with e; [exact Hle | apply Qlt_le_weak; exact Hlt].
  - exists e. split; [exact He | exact Hle].
Qed.

Lemma raise_ecutrho_floor key a entry :
  key = "ecutwfc" \/ key = "ecutrho" ->
  stable (preserves (local_at_least key a)) (raise_ecutrho entry).
Proof.
  intros Hkey w (e & He & Hle). unfold raise_ecutrho, bind, lift, get_local.
  destruct (getitem entry "cutoff_rho") as [c | x]; [| exists e; auto].
  destruct (py_gt c (ecutrho (locals w))) as [[|] | x] eqn:G;
    try (exists e; split; [exact He | exact Hle]).
  unfold local_at_least, local_cutoff in *. simpl.
  destruct Hkey as [-> | ->]; simpl in *.
  - exists e. split; [exact He | exact Hle].
  - rewrite He in G. apply py_gt_true_num in G. destruct G as (q & -> & Hlt).
    exists q. split; [reflexivity |].
    apply Qle_trans with e; [exact Hle | apply Qlt_le_weak; exact Hlt].
Qed.

Lemma stable_run R {A} (m : M A) w r w1 :
  stable R m -> m w = (r, w1) -> R w w1.
Proof. intros Hm E. specialize (Hm w). rewrite E in Hm. exact Hm. Qed.

Lemma post_bind {A B} (m : M A) (k : A -> M B) (Q : world -> Prop) w :
  (forall e w1, m w = (Raise e, w1) -> Q w1) ->
  (forall x w1, m w = (Ok x, w1) -> Q (snd (k x w1))) ->
  Q (snd (bind m k w)).
Proof.
  intros He Hk. rewrite snd_bind. destruct (m w) as [[x | e] w1] eqn:E.
  - apply Hk. reflexivity.
  - apply (He e). reflexivity.
Qed.

Lemma post_bind' {A B} (m : M A) (k : A -> M B) (Q : world -> Prop) w :
  Q (snd (m w)) ->
  (forall x, fst (m w) = Ok x -> Q (snd (k x (snd (m w))))) ->
  Q (snd (bind m k w)).
Proof.
  intros He Hk. rewrite snd_bind. destruct (m w) as [[x | e] w1]; simpl in *.
  - apply Hk. reflexivity.
  - exact He.
Qed.

Lemma cards_set_floor_other p k x key a w :
  diverges (p ++ [k])%list ["QE"; "system"; key] = true ->
  card_at_least key a w -> card_at_least key a (snd (cards_set p k x w)).
Proof.
  intros Hdiv H. apply (card_at_least_same key a w); [| exact H].
  apply (cards_set_cutoff p k x key Hdiv w).
Qed.

Lemma cards_set_floor_same key a e w :
  (a <= e)%Q -> card_at_least key a w ->
  card_at_least key a (snd (cards_set ["QE"; "system"] key (VNum e) w)).
Proof.
  intros Hle H. unfold cards_set.
  destruct (set_path (_cards (self w)) ["QE"; "system"] key (VNum e))
    as [c | x] eqn:S; [| exact H].
  exists e. split; [| exact Hle].
  apply (get_set_path_same _ _ _ _ _ S).
Qed.

Lemma store_cutoffs_floor key a w :
  key = "ecutwfc" \/ key = "ecutrho" ->
  card_at_least key a w -> local_at_least key a w ->
  card_at_least key a (snd (store_cutoffs w)).
Proof.
  intros Hkey Hcard (e & He & Hle). unfold store_cutoffs.
  apply post_bind'; [exact Hcard | intros e1 E1].
  unfold get_local in E1. cbn [fst snd] in *. injection E1 as E1.
  set (w2 := snd (cards_set ["QE"; "system"] "ecutwfc" e1 w)).
  assert (K1 : card_at_least key a w2).
  { subst w2. destruct Hkey as [-> | ->].
    - unfold local_cutoff in He. simpl in He. rewrite <- E1, He.
      apply cards_set_floor_same; assumption.
    - apply cards_set_floor_other; [reflexivity | exact Hcard]. }
  assert (L2 : locals w2 = locals w).
  { subst w2. apply (ltac:(prim_stable) : stable (same locals) (cards_set _ _ _)). }
  apply post_bind'; [exact K1 | intros u2 _]. fold w2.
  apply post_bind'; [exact K1 | intros e3 E3].
  unfold get_local in E3. cbn [fst snd] in *. injection E3 as E3.
  change (ecutrho (locals w2) = e3) in E3.
  set (w4 := snd (cards_set ["QE"; "system"] "ecutrho" e3 w2)).
  assert (K2 : card_at_least key a w4).
  { subst w4. destruct Hkey as [-> | ->].
    - apply cards_set_floor_other; [reflexivity | exact K1].
    - unfold local_cutoff in He. simpl in He. rewrite <- E3, L2, He.
      apply cards_set_floor_same; assumption. }
  apply post_bind'; [exact K2 | intros u4 _]. fold w4.
  apply cards_set_floor_other; [| exact K2].
  destruct Hkey as [-> | ->]; reflexivity.
Qed.

Ltac card_stable :=
  first [ intros ? ? ? ?; apply cards_set_cutoffs; assumption
        | prim_stable ].

Tactic Notation "phase" constr(f) "in" hyp(E) "as" ident(C) "by" tactic3(t) :=
  pose proof E as C; apply (stable_run (same f)) in C;
  [ unfold same in C | t ].

(** One call: whatever its outcome, the stored cut-off is a number not below
    the one stored before. *)
Lemma write_cutoff_floor X target sites im key a w :
  key = "ecutwfc" \/ key = "ecutrho" ->
  card_cutoff key w = Ok (VNum a) ->
  card_at_least key a (snd (write X target sites im w)).
Proof.
  intros Hkey Ha.
  assert (F : forall w1, card_cutoff key w1 = card_cutoff key w ->
                         card_at_least key a w1).
  { intros w1 E. exists a. split; [congruence | apply Qle_refl]. }
  unfold write.
  apply post_bind; [intros e0 w0 E0 | intros u0 w0 E0];
    (phase (card_cutoff key) in E0 as C0 by prim_stable);
    [apply F; exact C0 |].
  apply post_bind; [intros e1 w1 E1 | intros prepared w1 E1];
    (phase (card_cutoff key) in E1 as C1
       by (apply stable_prepare_cards; [exact _ | card_stable ..]));
    [apply F; congruence |].
  destruct prepared as [[[symbols specs] element] k].
  apply post_bind; [intros e2 w2 E2 | intros u2 w2 E2];
    (phase (card_cutoff key) in E2 as C2
       by (apply stable_read_cutoffs; [exact _ | card_stable ..]));
    [apply F; congruence |].
  assert (L2 : local_at_least key a w2).
  { destruct (read_cutoffs_Ok _ _ _ E2) as (R1 & R2 & _).
    exists a. split; [| apply Qle_refl]. unfold local_cutoff.
    destruct Hkey as [-> | ->]; simpl; congruence. }
  assert (K3 : forall r w3, resolve_psp X symbols target w2 = (r, w3) ->
                            card_at_least key a w3 /\ local_at_least key a w3).
  { intros r w3 E3. split.
    - apply F.
      phase (card_cutoff key) in E3 as C3
        by (apply stable_resolve_psp; [exact _ | card_stable ..]).
      congruence.
    - refine (stable_run (preserves (local_at_least key a)) _ _ _ _ _ E3 L2).
      apply stable_resolve_psp;
        [ exact _
        | intros; apply (same_preserves (local_cutoff key));
          [apply local_at_least_same | prim_stable]
        | intros; apply (same_preserves (local_cutoff key));
          [apply local_at_least_same | prim_stable]
        | intro; apply raise_ecutwfc_floor
        | intro; apply raise_ecutrho_floor; exact Hkey ]. }
  apply post_bind; [intros e3 w3 E3 | intros u3 w3 E3];
    destruct (K3 _ _ E3) as [C3 L3]; [exact C3 |].
  assert (K4 : forall r w4, store_cutoffs w3 = (r, w4) ->
                            card_at_least key a w4).
  { intros r w4 E4.
    pose proof (store_cutoffs_floor key a w3 Hkey C3 L3) as K.
    rewrite E4 in K. exact K. }
  apply post_bind; [intros e4 w4 E4 | intros u4 w4 E4];
    pose proof (K4 _ _ E4) as C4; [exact C4 |].
  apply post_bind; [intros e5 w5 E5 | intros u5 w5 E5];
    (phase (card_cutoff key) in E5 as C5
       by (apply stable_write_ground_state; [exact _ | card_stable ..]));
    pose proof (card_at_least_same _ _ _ _ C5 C4) as D5; [exact D5 |].
  apply post_bind; [intros e6 w6 E6 | intros u6 w6 E6];
    (phase (card_cutoff key) in E6 as C6
       by (apply stable_inject_core_hole; [exact _ | card_stable ..]));
    pose proof (card_at_least_same _ _ _ _ C6 D5) as D6; [exact D6 |].
  apply post_bind; [intros e7 w7 E7 | intros iabs w7 E7];
    (phase (card_cutoff key) in E7 as C7
       by (apply stable_reader; [exact _ | auto with reader]));
    pose proof (card_at_least_same _ _ _ _ C7 D6) as D7; [exact D7 |].
  apply post_bind; [intros e8 w8 E8 | intros u8 w8 E8];
    (phase (card_cutoff key) in E8 as C8
       by (apply stable_sites; [exact _ | card_stable ..]));
    pose proof (card_at_least_same _ _ _ _ C8 D7) as D8; exact D8.
Qed.

Lemma run_call_floor X c key a w :
  key = "ecutwfc" \/ key = "ecutrho" ->
  card_cutoff key w = Ok (VNum a) ->
  card_at_least key a (run_call X c w).
Proof.
  intros Hkey Ha. unfold run_call.
  apply write_cutoff_floor; [exact Hkey | exact Ha].
Qed.

Lemma run_calls_floor X cs : forall key a w,
  key = "ecutwfc" \/ key = "ecutrho" ->
  card_cutoff key w = Ok (VNum a) ->
  card_at_least key a (run_calls X cs w).
Proof.
  induction cs as [| c cs IH]; intros key a w Hkey Ha.
  - exists a. split; [exact Ha | apply Qle_refl].
  - destruct (run_call_floor X c key a w Hkey Ha) as (b & Hb & Hab).
    destruct (IH key b (run_call X c w) Hkey Hb) as (b' & Hb' & Hbb').
    exists b'. split; [exact Hb' |]. apply Qle_trans with b; assumption.
Qed.

(** C10: along successive calls of [write] on one instance the stored
    [ecutwfc] and [ecutrho] never decrease: whatever number the cards hold
    after some calls, they hold a number at least as large after any further
    calls, whether these complete or raise. *)
Theorem stored_cutoffs_never_decrease X cs1 cs2 key a w :
  key = "ecutwfc" \/ key = "ecutrho" ->
  card_cutoff key (run_calls X cs1 w) = Ok (VNum a) ->
  card_at_least key a (run_calls X (cs1 ++ cs2)%list w).
Proof.
  intros Hkey Ha. unfold run_calls at 1. rewrite fold_left_app.
  apply (run_calls_floor X cs2 key a _ Hkey Ha).
Qed.

Lemma stored_cutoffs_never_decrease_witness :
  let c := {| c_target := "out"; c_sites := [0%nat];
              c_mapping := identity_mapping; c_structure := TiO;
              c_files := full_assets |} in
  card_cutoff "ecutwfc" (run_calls example_externals [c] w_direct)
  = Ok (VNum (50 # 1)) /\
  card_cutoff "ecutwfc" (run_calls example_externals [c; c] w_direct)
  = Ok (VNum (50 # 1)) /\
  card_at_least "ecutwfc" (50 # 1)
    (run_calls example_externals ([c] ++ [c])%list w_direct).
Proof.
  intro c.
  assert (H : card_cutoff "ecutwfc" (run_calls example_externals [c] w_direct)
              = Ok (VNum (50 # 1))) by (vm_compute; reflexivity).
  split; [exact H |]. split; [vm_compute; reflexivity |].
  apply (stored_cutoffs_never_decrease example_externals [c] [c] "ecutwfc"
           (50 # 1) w_direct (or_introl eq_refl) H).
Defined.

(** ** File names *)

Lemma length_append (a b : string) :
  String.length (a ++ b) = (String.length a + String.length b)%nat.
Proof. induction a as [| c a IH]; simpl; [reflexivity | rewrite IH; reflexivity]. Qed.

Lemma ends_with_append suffix a b :
  (String.length suffix <= String.length b)%nat ->
  ends_with suffix (a ++ b) = ends_with suffix b.
Proof.
  intro Hlen. induction a as [| c a IH]; [reflexivity |].
  change (ends_with suffix (String c a ++ b))
    with (if String.eqb (String c (a ++ b)) suffix then true
          else ends_with suffix (a ++ b)).
  destruct (String.eqb (String c (a ++ b)) suffix) eqn:E.
  - apply String.eqb_eq in E. apply (f_equal String.length) in E.
    simpl in E. rewrite length_append in E. lia.
  - exact IH.
Qed.

(** Two paths whose last components end differently are different files. *)
Lemma different_endings suffix a b c d :
  (String.length suffix <= String.length ("/" ++ b))%nat ->
  (String.length suffix <= String.length ("/" ++ d))%nat ->
  ends_with suffix ("/" ++ b) <> ends_with suffix ("/" ++ d) ->
  path_join a b <> path_join c d.
Proof.
  intros Hb Hd Hne E. apply Hne. unfold path_join in E.
  rewrite <- (ends_with_append suffix a _ Hb).
  rewrite <- (ends_with_append suffix c _ Hd). rewrite E. reflexivity.
Qed.

(** ** The absorber index (C4) *)

Lemma write_xspectra_in_xiabs X mode i dirs xkvec w deck w' :
  _write_xspectra_in X mode i dirs xkvec w = (Ok deck, w') ->
  has_xiabs deck i.
Proof.
  intro H. unfold _write_xspectra_in in H.
  do 13 (apply bind_Ok in H; destruct H as (? & ? & _ & H)).
  apply bind_Ok in H. destruct H as (inp & w1 & E & H).
  repeat (apply bind_Ok in H; destruct H as (? & ? & _ & H)).
  apply ret_Ok in H. destruct H as [-> _].
  destruct (String.eqb mode "quadrupole").
  - repeat (apply bind_Ok in E; destruct E as (? & ? & _ & E)).
    apply ret_Ok in E. destruct E as [-> _].
    eexists. split; reflexivity.
  - apply ret_Ok in E. destruct E as [-> _].
    eexists. split; reflexivity.
Qed.

Lemma determine_iabs_notin keys : forall i target acc,
  ~ In target keys -> determine_iabs keys i target acc = acc.
Proof.
  induction keys as [| j rest IH]; intros i target acc Hnot; [reflexivity |].
  simpl. destruct (String.eqb j target) eqn:E.
  - apply String.eqb_eq in E. subst j. exfalso. apply Hnot. left. reflexivity.
  - apply IH. intro Hin. apply Hnot. right. exact Hin.
Qed.

Lemma determine_iabs_found keys : forall i target acc,
  NoDup keys -> In target keys ->
  exists j, determine_iabs keys i target acc = Some (i + j + 1)%nat /\
            nth_error keys j = Some target.
Proof.
  induction keys as [| k rest IH]; intros i target acc Hnd Hin; [destruct Hin |].
  inversion Hnd as [| k' rest' Hk Hrest]; subst.
  simpl. destruct (String.eqb k target) eqn:E.
  - apply String.eqb_eq in E. subst k. exists 0%nat. split; [| reflexivity].
    rewrite (determine_iabs_notin rest _ _ _ Hk). f_equal. lia.
  - destruct Hin as [-> | Hin]; [rewrite String.eqb_refl in E; discriminate |].
    destruct (IH (S i) target acc Hrest Hin) as (j & Hj & Hn).
    exists (S j). split; [| exact Hn]. rewrite Hj. f_equal. lia.
Qed.

Lemma sorted_NoDup keys : NoDup keys -> NoDup (sorted keys).
Proof.
  intro H. apply (Permutation_NoDup (StringSort.Permuted_sort keys) H).
Qed.

Lemma sorted_In keys x : In x keys -> In x (sorted keys).
Proof. apply Permutation_in. apply StringSort.Permuted_sort. Qed.

Lemma determine_iabs_position keys key :
  NoDup keys -> In key keys ->
  exists j, determine_iabs (sorted keys) 0 key None = Some (S j) /\
            is_position keys key j.
Proof.
  intros Hnd Hin.
  destruct (determine_iabs_found (sorted keys) 0 key None
              (sorted_NoDup _ Hnd) (sorted_In _ _ Hin)) as (j & Hj & Hn).
  exists j. split; [rewrite Hj; f_equal; lia |]. split; [exact Hn |].
  intros j' Hn'. apply (proj1 (NoDup_nth_error (sorted keys))).
  - apply sorted_NoDup. exact Hnd.
  - apply nth_error_Some. rewrite Hn'. discriminate.
  - congruence.
Qed.

(** ** The files the call writes (C4, C9) *)

Ltac endings suffix :=
  let d := fresh "d" in
  let E := fresh "E" in
  intros (d & E); revert E;
  apply (different_endings suffix);
  [ simpl; lia | simpl; lia | vm_compute; discriminate ].

Lemma es_in_not_xanes a : ~ is_file "xanes.in" (path_join a "es.in").
Proof. endings "nes.in". Qed.

Lemma gs_in_not_xanes a : ~ is_file "xanes.in" (path_join a "gs.in").
Proof. endings "nes.in". Qed.

Lemma weight_not_xanes a : ~ is_file "xanes.in" (path_join a "weight.txt").
Proof. endings "n". Qed.

Lemma es_in_not_weight a : ~ is_file "weight.txt" (path_join a "es.in").
Proof. endings "t". Qed.

Lemma gs_in_not_weight a : ~ is_file "weight.txt" (path_join a "gs.in").
Proof. endings "t". Qed.

Lemma xanes_not_weight a : ~ is_file "weight.txt" (path_join a "xanes.in").
Proof. endings "t". Qed.

Lemma stable_bind_ok R `{!RelationClasses.PreOrder R} {A B}
    (m : M A) (k : A -> M B) (P : A -> Prop) :
  (forall w x w1, m w = (Ok x, w1) -> P x) ->
  stable R m -> (forall x, P x -> stable R (k x)) -> stable R (bind m k).
Proof.
  intros HP Hm Hk w. rewrite snd_bind. pose proof (Hm w) as Hw.
  destruct (m w) as [[x | e] w1] eqn:E; simpl in Hw.
  - etransitivity; [exact Hw | apply Hk; apply (HP w x w1 E)].
  - exact Hw.
Qed.

Lemma extends_by_weaken (G G' : event -> Prop) w w' :
  (forall e, G e -> G' e) -> extends_by G w w' -> extends_by G' w w'.
Proof.
  intros HG (evs & Ht & F). exists evs. split; [exact Ht |].
  apply (Forall_impl _ HG F).
Qed.

(** Discharges what [extends_by] asks of the writers of a phase that writes
    no file. *)
Ltac events_stable :=
  first [ intros; apply mkdir_extends; exact I
        | intros; apply warn_extends; exact I
        | intros; apply copyfile_extends; exact I
        | apply stable_raise_ecutwfc; [exact _ | silent_stable]
        | apply stable_raise_ecutrho; [exact _ | silent_stable]
        | silent_stable ].

Lemma photon_loop_events X i path total l :
  Forall (fun ph => exists d, list_getitem (dipole ph) 3 = Ok d /\
                              truediv d total = Ok third) l ->
  forall n, stable (extends_by (deck_event X i))
                   (photon_loop X path (Some i) total l n).
Proof.
  induction 1 as [| ph rest (d & Hd & Hq) _ IH]; intro n; simpl.
  - apply stable_reader; [exact _ | apply reader_ret].
  - apply (stable_bind_ok _ _ _ (fun x => x = d)).
    { intros w x w1 E. apply lift_Ok in E. destruct E as [E _]. congruence. }
    { apply stable_reader; [exact _ | apply reader_lift]. }
    intros x ->.
    apply (stable_bind_ok _ _ _ (fun x => x = third)).
    { intros w x w1 E. apply lift_Ok in E. destruct E as [E _]. congruence. }
    { apply stable_reader; [exact _ | apply reader_lift]. }
    intros weight ->.
    apply stable_bind; [exact _ | apply mkdir_extends; exact I | intros _].
    apply stable_bind; [exact _ | silent_stable | intros _].
    apply (stable_bind_ok _ _ _ (fun x => x = i)).
    { intros w x w1 E. apply ret_Ok in E. destruct E as [E _]. exact E. }
    { apply stable_reader; [exact _ | apply reader_ret]. }
    intros x ->.
    apply (stable_bind_ok _ _ _ (fun deck => has_xiabs deck i)).
    { intros w deck w1 E. apply (write_xspectra_in_xiabs _ _ _ _ _ _ _ _ E). }
    { apply stable_reader; [exact _ | apply reader_write_xspectra_in]. }
    intros deck Hdeck.
    apply stable_bind; [exact _ | | intros _].
    { apply f_write_extends. split.
      - intros _. exact Hdeck.
      - intro Hf. destruct (xanes_not_weight _ Hf). }
    apply stable_bind; [exact _ | silent_stable | intros _].
    apply stable_bind; [exact _ | | intros _].
    { apply f_write_extends. split.
      - intro Hf. destruct (weight_not_xanes _ Hf).
      - intros _. reflexivity. }
    apply IH.
Qed.

(** The three photons: the three axes, each with weight 1 out of 3. *)
Lemma photons_thirds :
  sum_weights photons 0 = Ok 3%Z /\
  Forall (fun ph => exists d, list_getitem (dipole ph) 3 = Ok d /\
                              truediv d 3 = Ok third) photons.
Proof.
  split; [reflexivity |].
  repeat constructor; exists 1%Z; split; vm_compute; reflexivity.
Qed.

Lemma site_body_events X i target element im k ss :
  stable (extends_by (deck_event X i))
         (site_body X target element im k (Some i) ss).
Proof.
  unfold site_body. destruct ss as [site specie].
  apply stable_bind; [exact _ | apply mkdir_extends; exact I | intros _].
  apply stable_bind; [exact _ | apply stable_reader; auto with reader; exact _
                     | intro i1].
  apply stable_bind; [exact _ | silent_stable | intros _].
  apply stable_bind; [exact _ | silent_stable | intros _].
  apply stable_bind; [exact _ | apply stable_reader; auto with reader; exact _
                     | intro es_in].
  apply stable_bind; [exact _ | silent_stable | intros _].
  apply stable_bind; [exact _ | | intros _].
  { apply f_write_extends. split; intro Hf.
    - destruct (es_in_not_xanes _ Hf).
    - destruct (es_in_not_weight _ Hf). }
  apply stable_bind; [exact _ | apply stable_reader; auto with reader; exact _
                     | intro i2].
  apply stable_bind; [exact _ | silent_stable | intros _].
  apply (stable_bind_ok _ _ _ (fun x => x = 3%Z)).
  { intros w x w1 E. apply lift_Ok in E. destruct E as [E _].
    rewrite (proj1 photons_thirds) in E. congruence. }
  { apply stable_reader; [exact _ | apply reader_lift]. }
  intros total ->.
  apply photon_loop_events. apply photons_thirds.
Qed.

Lemma write_ground_state_events X i target k :
  stable (extends_by (deck_event X i)) (write_ground_state X target k).
Proof.
  unfold write_ground_state.
  apply stable_bind; [exact _ | apply mkdir_extends; exact I | intros _].
  apply stable_bind; [exact _ | apply stable_reader; auto with reader; exact _
                     | intro gs_in].
  apply stable_bind; [exact _ | silent_stable | intros _].
  apply f_write_extends. split; intro Hf.
  - destruct (gs_in_not_xanes _ Hf).
  - destruct (gs_in_not_weight _ Hf).
Qed.

Lemma get_psp_Ok w p w' :
  get_psp w = (Ok p, w') -> psp (locals w) = Some p /\ w' = w.
Proof.
  unfold get_psp, bind, get_local. destruct (psp (locals w)) as [d |]; simpl;
    unfold ret, raise; intro H; inversion H. split; reflexivity.
Qed.

Lemma inject_core_hole_Ok element target w u w' :
  inject_core_hole element target w = (Ok u, w') ->
  exists p, psp (locals w) = Some p /\
            psp (locals w')
            = Some (Dict.set p (element ++ "+") (VStr (element ++ ".fch.upf"))).
Proof.
  intro H. unfold inject_core_hole in H.
  step H as p w1 E1. apply get_psp_Ok in E1. destruct E1 as [Hp ->].
  step H as u2 w2 E2. unfold set_psp in E2. injection E2 as _ <-.
  step H as ch w3 E3.
  pose proof (reader_Ok _ _ _ _ (reader_getattr _) E3) as ->.
  exists p. split; [exact Hp |].
  assert (S : local_psp w' = local_psp (with_locals
                {| psp := Some (Dict.set p (element ++ "+")
                                         (VStr (element ++ ".fch.upf")));
                   ecutwfc := ecutwfc (locals w);
                   ecutrho := ecutrho (locals w) |} w)).
  { refine (stable_Ok (same local_psp) _ _ _ _ _ H).
    destruct ch as [chpsp |].
    - apply stable_try; [exact _ | | prim_stable].
      apply stable_bind; [exact _ | prim_stable | intro; prim_stable].
    - apply stable_reader; [exact _ | apply reader_ret]. }
  exact S.
Qed.

(** A completed call: the absorbing element is the label of the first
    requested site, its ionised key is among the keys of the mapping, the
    index handed to the decks is one more than the key's place in the sorted
    keys, and every [xanes.in] and [weight.txt] written is as [deck_event]
    says. *)
Lemma write_decks X target sites im w st w' :
  write X target sites im w = (Ok st, w') ->
  exists specs element p j,
    labels_at (species (structure_sc w)) im sites = Ok specs /\
    list_getitem specs 0 = Ok element /\
    psp (locals w') = Some p /\
    Dict.get p (element ++ "+") = Some (VStr (element ++ ".fch.upf")) /\
    determine_iabs (sorted (Dict.keys p)) 0 (element ++ "+") None
    = Some (S j) /\
    is_position (Dict.keys p) (element ++ "+") j /\
    extends_by (deck_event X (S j)) w w'.
Proof.
  intro H. apply write_Ok in H.
  destruct H as (w0 & symbols & specs & element & k & w1 & w2 & w3 & w4 & w5
                 & w6 & iabs & E0 & E1 & E2 & E3 & E4 & E5 & E6 & E7 & E8).
  destruct (prepare_cards_Ok _ _ _ _ _ _ _ _ _ E1) as (_ & Hspecs & Hel).
  assert (Hs0 : structure_sc w0 = structure_sc w).
  { refine (stable_Ok (same structure_sc) _ _ _ _ _ E0). prim_stable. }
  rewrite Hs0 in Hspecs.
  destruct (inject_core_hole_Ok _ _ _ _ _ E6) as (p5 & _ & Hp6).
  unfold absorber_index in E7.
  step E7 as p' w7 E7a. apply get_psp_Ok in E7a. destruct E7a as [Hp' ->].
  apply ret_Ok in E7. destruct E7 as [Hiabs _].
  rewrite Hp6 in Hp'. injection Hp' as <-.
  set (key := element ++ "+") in *.
  set (p := Dict.set p5 key (VStr (element ++ ".fch.upf"))) in *.
  destruct (determine_iabs_position (Dict.keys p) key (dict_keys_NoDup p)
              (dict_keys_set p5 key _)) as (j & Hj & Hpos).
  rewrite Hj in Hiabs. subst iabs.
  assert (Hp8 : local_psp w' = local_psp w6).
  { refine (stable_Ok (same local_psp) _ _ _ _ _ E8).
    apply stable_sites; [exact _ | prim_stable ..]. }
  exists specs, element, p, j.
  split; [exact Hspecs |]. split; [exact Hel |].
  split; [unfold local_psp in Hp8; congruence |].
  split; [apply dict_get_set_same |].
  split; [exact Hj |]. split; [exact Hpos |].
  assert (T0 : extends_by (deck_event X (S j)) w w0).
  { refine (stable_Ok _ _ _ _ _ _ E0). events_stable. }
  assert (T1 : extends_by (deck_event X (S j)) w0 w1).
  { refine (stable_Ok _ _ _ _ _ _ E1).
    apply stable_prepare_cards; [exact _ | events_stable ..]. }
  assert (T2 : extends_by (deck_event X (S j)) w1 w2).
  { refine (stable_Ok _ _ _ _ _ _ E2).
    apply stable_read_cutoffs; [exact _ | events_stable ..]. }
  assert (T3 : extends_by (deck_event X (S j)) w2 w3).
  { refine (stable_Ok _ _ _ _ _ _ E3).
    apply stable_resolve_psp; [exact _ | events_stable ..]. }
  assert (T4 : extends_by (deck_event X (S j)) w3 w4).
  { refine (stable_Ok _ _ _ _ _ _ E4).
    apply stable_store_cutoffs; [exact _ | events_stable ..]. }
  assert (T5 : extends_by (deck_event X (S j)) w4 w5).
  { refine (stable_Ok _ _ _ _ _ _ E5). apply write_ground_state_events. }
  assert (T6 : extends_by (deck_event X (S j)) w5 w6).
  { refine (stable_Ok _ _ _ _ _ _ E6).
    apply stable_inject_core_hole; [exact _ | events_stable ..]. }
  assert (T8 : extends_by (deck_event X (S j)) w6 w').
  { refine (stable_Ok _ _ _ _ _ _ E8).
    apply stable_for_each; [exact _ | intro ss; apply site_body_events]. }
  etransitivity; [exact T0 |]. etransitivity; [exact T1 |].
  etransitivity; [exact T2 |]. etransitivity; [exact T3 |].
  etransitivity; [exact T4 |]. etransitivity; [exact T5 |].
  etransitivity; [exact T6 | exact T8].
Qed.

(** ** No asset directory (the first half of C7) *)

Lemma resolve_unconfigured X symbols target w :
  _psp_directory (self w) = None ->
  resolve_psp X symbols target w
  = (Ok tt, with_locals {| psp := Some (placeholder_psp symbols);
                           ecutwfc := ecutwfc (locals w);
                           ecutrho := ecutrho (locals w) |} w).
Proof.
  intro H. unfold resolve_psp, bind, getattr, ret. simpl.
  rewrite H. simpl. rewrite H. reflexivity.
Qed.

Lemma placeholder_psp_get symbols s :
  In s symbols -> Dict.get (placeholder_psp symbols) s = Some (VStr (s ++ ".upf")).
Proof.
  unfold placeholder_psp.
  assert (G : forall l d,
             (In s l \/ Dict.get d s = Some (VStr (s ++ ".upf"))) ->
             Dict.get (fold_left (fun d symbol =>
                                    Dict.set d symbol (VStr (symbol ++ ".upf")))
                                 l d) s
             = Some (VStr (s ++ ".upf"))).
  { induction l as [| x l IH]; intros d H; simpl.
    - destruct H as [[] | H]; exact H.
    - apply IH. destruct (string_dec x s) as [-> | Hne].
      + right. apply dict_get_set_same.
      + destruct H as [[E | H] | H].
        * contradiction.
        * left. exact H.
        * right. rewrite dict_get_set_other by congruence. exact H. }
  intro H. apply G. left. exact H.
Qed.

Ltac copies_stable :=
  first [ intros; apply mkdir_extends; exact I
        | intros; apply warn_extends; exact I
        | intros; apply f_write_extends; exact I
        | silent_stable ].

(** When no asset directory is configured, a completed call leaves the
    directory unconfigured; its mapping is the placeholder mapping, in which
    every symbol of the structure has ["{symbol}.upf"], with the ionised entry
    added; the stored cut-offs are those it found; and it copies nothing but
    the core-hole files. *)
Lemma unconfigured_fallback X target sites im w st w' :
  _psp_directory (self w) = None ->
  write X target sites im w = (Ok st, w') ->
  _psp_directory (self w') = None /\
  (exists element,
      psp (locals w')
      = Some (Dict.set (placeholder_psp (species (structure_sc w)))
                       (element ++ "+") (VStr (element ++ ".fch.upf")))) /\
  (forall s, In s (species (structure_sc w)) ->
             Dict.get (placeholder_psp (species (structure_sc w))) s
             = Some (VStr (s ++ ".upf"))) /\
  card_cutoff "ecutwfc" w' = card_cutoff "ecutwfc" w /\
  card_cutoff "ecutrho" w' = card_cutoff "ecutrho" w /\
  extends_by (to_literal_names target) w w'.
Proof.
  intros Hd H. split.
  { pose proof (write_same_psp_directory X target sites im w) as K.
    rewrite H in K. unfold same in K. simpl in K. congruence. }
  apply write_Ok in H.
  destruct H as (w0 & symbols & specs & element & k & w1 & w2 & w3 & w4 & w5
                 & w6 & iabs & E0 & E1 & E2 & E3 & E4 & E5 & E6 & E7 & E8).
  keeps system_view in E0 as S0.
  assert (S1 : system_view w1 = system_view w0).
  { refine (stable_Ok (same system_view) _ _ _ _ _ E1).
    apply stable_prepare_cards; [exact _ | prim_stable |].
    intros p k0 x Hdiv. apply cards_set_system_view. exact Hdiv. }
  destruct (read_cutoffs_Ok _ _ _ E2) as (L1 & L2 & S2).
  assert (S : system_view w2 = system_view w) by congruence.
  destruct (prepare_cards_Ok _ _ _ _ _ _ _ _ _ E1) as (Hsym & _ & _).
  assert (Hstruct : structure_sc w0 = structure_sc w).
  { unfold system_view in S0. congruence. }
  rewrite Hstruct in Hsym. subst symbols.
  assert (Hd2 : _psp_directory (self w2) = None).
  { unfold system_view in S. congruence. }
  pose proof E3 as E3'.
  rewrite (resolve_unconfigured X _ target w2 Hd2) in E3'.
  injection E3' as E3'.
  destruct (store_cutoffs_Ok _ _ _ E4) as (C1 & C2).
  rewrite <- E3' in C1, C2.
  cbn [locals with_locals ecutwfc ecutrho] in C1, C2.
  rewrite <- L1 in C1. rewrite <- L2 in C2.
  rewrite (system_view_cutoff "ecutwfc" _ _ (eq_trans S1 S0)) in C1.
  rewrite (system_view_cutoff "ecutrho" _ _ (eq_trans S1 S0)) in C2.
  assert (T : stored_cutoffs w' = stored_cutoffs w4).
  { assert (T5 : stored_cutoffs w5 = stored_cutoffs w4).
    { refine (stable_Ok (same stored_cutoffs) _ _ _ _ _ E5).
      apply stable_write_ground_state; [exact _ | tail_stable ..]. }
    assert (T6 : stored_cutoffs w6 = stored_cutoffs w5).
    { refine (stable_Ok (same stored_cutoffs) _ _ _ _ _ E6).
      apply stable_inject_core_hole; [exact _ | tail_stable ..]. }
    assert (T8 : stored_cutoffs w' = stored_cutoffs w6).
    { refine (stable_Ok (same stored_cutoffs) _ _ _ _ _ E8).
      apply stable_sites; [exact _ | tail_stable ..]. }
    congruence. }
  unfold stored_cutoffs in T.
  split; [| split; [| split; [congruence | split; [congruence |]]]].
  - assert (P3 : local_psp w3
                 = Some (placeholder_psp (species (structure_sc w)))).
    { rewrite <- E3'. reflexivity. }
    assert (P4 : local_psp w4 = local_psp w3).
    { refine (stable_Ok (same local_psp) _ _ _ _ _ E4).
      apply stable_store_cutoffs; [exact _ | prim_stable ..]. }
    assert (P5 : local_psp w5 = local_psp w4).
    { refine (stable_Ok (same local_psp) _ _ _ _ _ E5).
      apply stable_write_ground_state; [exact _ | prim_stable ..]. }
    destruct (inject_core_hole_Ok _ _ _ _ _ E6) as (p5 & Hp5 & Hp6).
    assert (P8 : local_psp w' = local_psp w6).
    { refine (stable_Ok (same local_psp) _ _ _ _ _ E8).
      apply stable_sites; [exact _ | prim_stable ..]. }
    unfold local_psp in *.
    assert (p5 = placeholder_psp (species (structure_sc w))) by congruence.
    subst p5. exists element. rewrite P8. exact Hp6.
  - intros s Hs. apply placeholder_psp_get. exact Hs.
  - assert (T0 : extends_by (to_literal_names target) w w0).
    { refine (stable_Ok _ _ _ _ _ _ E0). copies_stable. }
    assert (T1 : extends_by (to_literal_names target) w0 w1).
    { refine (stable_Ok _ _ _ _ _ _ E1).
      apply stable_prepare_cards; [exact _ | copies_stable ..]. }
    assert (T2 : extends_by (to_literal_names target) w1 w2).
    { refine (stable_Ok _ _ _ _ _ _ E2).
      apply stable_read_cutoffs; [exact _ | copies_stable ..]. }
    assert (T3 : extends_by (to_literal_names target) w2 w3).
    { apply extends_by_same_trace. rewrite <- E3'. reflexivity. }
    assert (T4 : extends_by (to_literal_names target) w3 w4).
    { refine (stable_Ok _ _ _ _ _ _ E4).
      apply stable_store_cutoffs; [exact _ | copies_stable ..]. }
    assert (T5 : extends_by (to_literal_names target) w4 w5).
    { refine (stable_Ok _ _ _ _ _ _ E5).
      apply stable_write_ground_state; [exact _ | copies_stable ..]. }
    assert (T6 : extends_by (to_literal_names target) w5 w6).
    { refine (stable_Ok _ _ _ _ _ _ E6). apply inject_core_hole_copies. }
    assert (T8 : extends_by (to_literal_names target) w6 w').
    { refine (stable_Ok _ _ _ _ _ _ E8).
      apply stable_sites; [exact _ | copies_stable ..]. }
    etransitivity; [exact T0 |]. etransitivity; [exact T1 |].
    etransitivity; [exact T2 |]. etransitivity; [exact T3 |].
    etransitivity; [exact T4 |]. etransitivity; [exact T5 |].
    etransitivity; [exact T6 | exact T8].
Qed.

(** ** Every requested site gets its decks and weights *)

Lemma adds_then e w w1 w2 :
  adds e w w1 -> extends_by anything w1 w2 -> adds e w w2.
Proof.
  intros (e1 & H1 & Hin) (e2 & H2 & _). exists (e1 ++ e2)%list. split.
  - rewrite H2, H1. symmetry. apply app_assoc.
  - apply in_or_app. left. exact Hin.
Qed.

Lemma then_adds e w w1 w2 :
  extends_by anything w w1 -> adds e w1 w2 -> adds e w w2.
Proof.
  intros (e1 & H1 & _) (e2 & H2 & Hin). exists (e1 ++ e2)%list. split.
  - rewrite H2, H1. symmetry. apply app_assoc.
  - apply in_or_app. right. exact Hin.
Qed.

Lemma f_write_adds p s w u w' :
  f_write p s w = (Ok u, w') -> adds (EWrite p s) w w'.
Proof.
  unfold f_write. intro H. injection H as _ <-. exists [EWrite p s].
  split; [reflexivity | left; reflexivity].
Qed.

Ltac any_stable :=
  first [ intros; apply mkdir_extends; exact I
        | intros; apply warn_extends; exact I
        | intros; apply copyfile_extends; exact I
        | intros; apply f_write_extends; exact I
        | apply stable_raise_ecutwfc; [exact _ | silent_stable]
        | apply stable_raise_ecutrho; [exact _ | silent_stable]
        | silent_stable ].

Tactic Notation "grows" hyp(E) "as" ident(T) :=
  pose proof E as T;
  apply (stable_Ok (extends_by anything)) in T;
  [ | first [ apply stable_reader; [exact _ | solve [auto with reader]]
            | any_stable ] ].

Lemma photon_loop_anything X path iabs total l n :
  stable (extends_by anything) (photon_loop X path iabs total l n).
Proof. apply stable_photon_loop; [exact _ | any_stable ..]. Qed.

Lemma photon_loop_adds X path iabs total l : forall n w u w',
  photon_loop X path iabs total l n w = (Ok u, w') ->
  forall m ph, nth_error l m = Some ph ->
    exists d weight deck i,
      list_getitem (dipole ph) 3 = Ok d /\
      truediv d total = Ok weight /\
      iabs = Some i /\ has_xiabs deck i /\
      adds (EWrite (path_join (path_join path ("dipole" ++ str_nat (n + m + 1)))
                              "xanes.in") deck) w w' /\
      adds (EWrite (path_join (path_join path ("dipole" ++ str_nat (n + m + 1)))
                              "weight.txt") (str_float X weight ++ newline))
           w w'.
Proof.
  induction l as [| ph0 rest IH]; intros n w u w' H m ph Hm.
  - destruct m; discriminate Hm.
  - simpl in H.
    step H as d w1 E1. apply lift_Ok in E1. destruct E1 as [Ed ->].
    step H as weight w2 E2. apply lift_Ok in E2. destruct E2 as [Ew ->].
    step H as u3 w3 E3. grows E3 as T3.
    step H as u4 w4 E4. grows E4 as T4.
    step H as i w5 E5. apply of_option_Ok in E5. destruct E5 as [Ei ->].
    step H as deck w6 E6.
    pose proof (write_xspectra_in_xiabs _ _ _ _ _ _ _ _ E6) as Hdeck.
    pose proof (reader_Ok _ _ _ _ (reader_write_xspectra_in _ _ _ _ _) E6)
      as ->.
    step H as u7 w7 E7. pose proof (f_write_adds _ _ _ _ _ E7) as A7.
    grows E7 as T7.
    step H as u8 w8 E8. grows E8 as T8.
    step H as u9 w9 E9. pose proof (f_write_adds _ _ _ _ _ E9) as A9.
    grows E9 as T9.
    pose proof (stable_Ok _ _ _ _ _ (photon_loop_anything _ _ _ _ _ _) H)
      as T10.
    assert (T04 : extends_by anything w w4) by (etransitivity; eassumption).
    destruct m as [| m'].
    + injection Hm as <-. exists d, weight, deck, i.
      split; [exact Ed |]. split; [exact Ew |]. split; [exact Ei |].
      split; [exact Hdeck |].
      replace (n + 0 + 1)%nat with (n + 1)%nat by lia. split.
      * apply (then_adds _ _ _ _ T04).
        apply (adds_then _ _ _ _ A7).
        etransitivity; [exact T8 |]. etransitivity; [exact T9 | exact T10].
      * apply (then_adds _ _ w8 _).
        { etransitivity; [exact T04 |]. etransitivity; [exact T7 | exact T8]. }
        apply (adds_then _ _ _ _ A9 T10).
    + simpl in Hm.
      destruct (IH _ _ _ _ H m' ph Hm)
        as (d' & weight' & deck' & i' & H1 & H2 & H3 & H4 & H5 & H6).
      exists d', weight', deck', i'.
      replace (n + S m' + 1)%nat with (n + 1 + m' + 1)%nat by lia.
      repeat (split; [assumption |]).
      assert (T09 : extends_by anything w w9).
      { etransitivity; [exact T04 |]. etransitivity; [exact T7 |].
        etransitivity; [exact T8 | exact T9]. }
      split; apply (then_adds _ _ _ _ T09); assumption.
Qed.

Lemma site_body_anything X target element im k iabs ss :
  stable (extends_by anything) (site_body X target element im k iabs ss).
Proof. apply stable_site_body; [exact _ | any_stable ..]. Qed.

Lemma site_body_adds X target element im k iabs site specie w u w' :
  site_body X target element im k iabs (site, specie) w = (Ok u, w') ->
  forall n, In n [1; 2; 3]%nat ->
    exists deck i,
      iabs = Some i /\ has_xiabs deck i /\
      adds (EWrite (path_join (dipole_dir target site specie n) "xanes.in")
                   deck) w w' /\
      adds (EWrite (path_join (dipole_dir target site specie n) "weight.txt")
                   (str_float X third ++ newline)) w w'.
Proof.
  intros H n Hn. unfold site_body in H.
  step H as u1 w1 E1. grows E1 as T1.
  step H as i1 w2 E2. grows E2 as T2.
  step H as u3 w3 E3. grows E3 as T3.
  step H as u4 w4 E4. grows E4 as T4.
  step H as es w5 E5. grows E5 as T5.
  step H as u6 w6 E6. grows E6 as T6.
  step H as u7 w7 E7. grows E7 as T7.
  step H as i2 w8 E8. grows E8 as T8.
  step H as u9 w9 E9. grows E9 as T9.
  step H as total w10 E10. grows E10 as T10.
  apply lift_Ok in E10. destruct E10 as [Et _].
  rewrite (proj1 photons_thirds) in Et. injection Et as <-.
  assert (T : extends_by anything w w10).
  { etransitivity; [exact T1 |]. etransitivity; [exact T2 |].
    etransitivity; [exact T3 |]. etransitivity; [exact T4 |].
    etransitivity; [exact T5 |]. etransitivity; [exact T6 |].
    etransitivity; [exact T7 |]. etransitivity; [exact T8 |].
    etransitivity; [exact T9 | exact T10]. }
  assert (Hm : exists m ph, nth_error photons m = Some ph /\ n = (0 + m + 1)%nat).
  { destruct Hn as [<- | [<- | [<- | []]]].
    - exists 0%nat. eexists. split; reflexivity.
    - exists 1%nat. eexists. split; reflexivity.
    - exists 2%nat. eexists. split; reflexivity. }
  destruct Hm as (m & ph & Hph & ->).
  destruct (photon_loop_adds _ _ _ _ _ _ _ _ _ H m ph Hph)
    as (d & weight & deck & i & Hd & Hw & Hi & Hdeck & A1 & A2).
  assert (Hthird : weight = third).
  { pose proof (proj2 photons_thirds) as F.
    rewrite Forall_forall in F.
    destruct (F ph (nth_error_In _ _ Hph)) as (d' & Hd' & Hq). congruence. }
  subst weight. exists deck, i.
  split; [exact Hi |]. split; [exact Hdeck |].
  split; apply (then_adds _ _ _ _ T); assumption.
Qed.

Lemma for_each_adds {A} (body : A -> M unit) (l : list A) :
  (forall x, stable (extends_by anything) (body x)) ->
  forall w u w', for_each l body w = (Ok u, w') ->
  forall x, In x l ->
    exists wa wb, body x wa = (Ok tt, wb) /\
                  extends_by anything w wa /\ extends_by anything wb w'.
Proof.
  intro Hb. induction l as [| y l IH]; intros w u w' H x Hx; [destruct Hx |].
  simpl in H. step H as u1 w1 E1. destruct u1.
  destruct Hx as [-> | Hx].
  - exists w, w1. split; [exact E1 |]. split; [reflexivity |].
    apply (stable_Ok _ _ _ _ _ (stable_for_each _ _ _ Hb) H).
  - destruct (IH _ _ _ H x Hx) as (wa & wb & Hab & Ta & Tb).
    exists wa, wb. split; [exact Hab |]. split; [| exact Tb].
    etransitivity; [| exact Ta]. apply (stable_Ok _ _ _ _ _ (Hb y) E1).
Qed.

Lemma write_anything X target sites im :
  stable (extends_by anything) (write X target sites im).
Proof. apply stable_write; [exact _ | any_stable ..]. Qed.

(** In a completed call, each requested site gets, for each of the three
    photons, a [xanes.in] with the absorber index and a [weight.txt] with one
    third. *)
Lemma write_decks_exist X target sites im w st w' :
  write X target sites im w = (Ok st, w') ->
  exists specs,
    labels_at (species (structure_sc w)) im sites = Ok specs /\
    forall site specie n,
      In (site, specie) (combine sites specs) -> In n [1; 2; 3]%nat ->
      (exists deck i,
          has_xiabs deck i /\
          adds (EWrite (path_join (dipole_dir target site specie n) "xanes.in")
                       deck) w w') /\
      adds (EWrite (path_join (dipole_dir target site specie n) "weight.txt")
                   (str_float X third ++ newline)) w w'.
Proof.
  intro H. apply write_Ok in H.
  destruct H as (w0 & symbols & specs & element & k & w1 & w2 & w3 & w4 & w5
                 & w6 & iabs & E0 & E1 & E2 & E3 & E4 & E5 & E6 & E7 & E8).
  destruct (prepare_cards_Ok _ _ _ _ _ _ _ _ _ E1) as (_ & Hspecs & _).
  assert (Hs0 : structure_sc w0 = structure_sc w).
  { refine (stable_Ok (same structure_sc) _ _ _ _ _ E0). prim_stable. }
  rewrite Hs0 in Hspecs. exists specs. split; [exact Hspecs |].
  assert (T : extends_by anything w w6).
  { assert (T0 : extends_by anything w w0).
    { refine (stable_Ok _ _ _ _ _ _ E0). any_stable. }
    assert (T1 : extends_by anything w0 w1).
    { refine (stable_Ok _ _ _ _ _ _ E1).
      apply stable_prepare_cards; [exact _ | any_stable ..]. }
    assert (T2 : extends_by anything w1 w2).
    { refine (stable_Ok _ _ _ _ _ _ E2).
      apply stable_read_cutoffs; [exact _ | any_stable ..]. }
    assert (T3 : extends_by anything w2 w3).
    { refine (stable_Ok _ _ _ _ _ _ E3).
      apply stable_resolve_psp; [exact _ | any_stable ..]. }
    assert (T4 : extends_by anything w3 w4).
    { refine (stable_Ok _ _ _ _ _ _ E4).
      apply stable_store_cutoffs; [exact _ | any_stable ..]. }
    assert (T5 : extends_by anything w4 w5).
    { refine (stable_Ok _ _ _ _ _ _ E5).
      apply stable_write_ground_state; [exact _ | any_stable ..]. }
    assert (T6 : extends_by anything w5 w6).
    { refine (stable_Ok _ _ _ _ _ _ E6).
      apply stable_inject_core_hole; [exact _ | any_stable ..]. }
    etransitivity; [exact T0 |]. etransitivity; [exact T1 |].
    etransitivity; [exact T2 |]. etransitivity; [exact T3 |].
    etransitivity; [exact T4 |]. etransitivity; [exact T5 | exact T6]. }
  intros site specie n Hin Hn.
  destruct (for_each_adds _ _ (site_body_anything X target element im k iabs)
              _ _ _ E8 _ Hin) as (wa & wb & Hab & Ta & Tb).
  destruct (site_body_adds _ _ _ _ _ _ _ _ _ _ _ Hab n Hn)
    as (deck & i & _ & Hdeck & A1 & A2).
  split.
  - exists deck, i. split; [exact Hdeck |].
    apply (then_adds _ _ wa _); [etransitivity; [exact T | exact Ta] |].
    apply (adds_then _ _ _ _ A1 Tb).
  - apply (then_adds _ _ wa _); [etransitivity; [exact T | exact Ta] |].
    apply (adds_then _ _ _ _ A2 Tb).
Qed.

Lemma adds_extends G e w w' : adds e w w' -> extends_by G w w' -> G e.
Proof.
  intros (e1 & H1 & Hin) (e2 & H2 & F). rewrite H1 in H2.
  apply app_inv_head in H2. subst e2.
  rewrite Forall_forall in F. apply F. exact Hin.
Qed.

(** C4: in a completed call the absorbing element is the label of the first
    requested site; the keys of the resolved mapping, sorted, hold its ionised
    key ["{symbol}+"] at exactly one place [j] (counted from 0), the index
    [write] computes is [j + 1], and every [xanes.in] the call writes has the
    line ["    xiabs = j+1"], each requested site getting one in each of its
    three photon directories.  For the keys O, Ti and Ti+, in whatever order
    they were inserted, the sorted keys are O, Ti, Ti+ and the index of Ti is
    3. *)
Theorem absorber_index_is_position X target sites im w st w' :
  write X target sites im w = (Ok st, w') ->
  (exists specs element p j,
      labels_at (species (structure_sc w)) im sites = Ok specs /\
      list_getitem specs 0 = Ok element /\
      psp (locals w') = Some p /\
      Sorted (fun a b => is_true (String.leb a b)) (sorted (Dict.keys p)) /\
      Permutation (Dict.keys p) (sorted (Dict.keys p)) /\
      is_position (Dict.keys p) (element ++ "+") j /\
      determine_iabs (sorted (Dict.keys p)) 0 (element ++ "+") None
      = Some (S j) /\
      extends_by (xanes_event (S j)) w w' /\
      forall site specie n,
        In (site, specie) (combine sites specs) -> In n [1; 2; 3]%nat ->
        exists deck,
          has_xiabs deck (S j) /\
          adds (EWrite (path_join (dipole_dir target site specie n) "xanes.in")
                       deck) w w') /\
  Forall (fun keys => sorted keys = ["O"; "Ti"; "Ti+"] /\
                      determine_iabs (sorted keys) 0 ("Ti" ++ "+") None
                      = Some 3%nat) O_Ti_orders.
Proof.
  intro H. split.
  - destruct (write_decks _ _ _ _ _ _ _ H)
      as (specs & element & p & j & H1 & H2 & H3 & _ & H5 & H6 & H7).
    exists specs, element, p, j.
    split; [exact H1 |]. split; [exact H2 |]. split; [exact H3 |].
    split; [apply StringSort.Sorted_sort |].
    split; [apply StringSort.Permuted_sort |].
    split; [exact H6 |]. split; [exact H5 |].
    assert (H8 : extends_by (xanes_event (S j)) w w').
    { apply (extends_by_weaken (deck_event X (S j))); [| exact H7].
      intros [msg | d | src dst | path text]; simpl; tauto. }
    split; [exact H8 |].
    destruct (write_decks_exist _ _ _ _ _ _ _ H) as (specs' & H1' & Hex).
    assert (specs' = specs) by congruence. subst specs'.
    intros site specie n Hin Hn.
    destruct (Hex site specie n Hin Hn) as [(deck & i & _ & A) _].
    exists deck. split; [| exact A].
    apply (adds_extends _ _ _ _ A H8). exists (dipole_dir target site specie n).
    reflexivity.
  - repeat constructor.
Qed.

Lemma absorber_index_is_position_witness :
  write example_externals "out" [0%nat] identity_mapping w_unconfigured
  = (Ok {| pass := true; errors := [] |},
     snd (write example_externals "out" [0%nat] identity_mapping
            w_unconfigured)) /\
  option_map Dict.keys
    (psp (locals (snd (write example_externals "out" [0%nat] identity_mapping
                         w_unconfigured))))
  = Some ["Ti"; "O"; "Ti+"] /\
  exists j,
    is_position ["Ti"; "O"; "Ti+"] "Ti+" j /\
    extends_by (xanes_event (S j)) w_unconfigured
      (snd (write example_externals "out" [0%nat] identity_mapping
              w_unconfigured)).
Proof.
  assert (H : write example_externals "out" [0%nat] identity_mapping
                w_unconfigured
              = (Ok {| pass := true; errors := [] |},
                 snd (write example_externals "out" [0%nat] identity_mapping
                        w_unconfigured)))
    by (vm_compute; reflexivity).
  split; [exact H |]. split; [vm_compute; reflexivity |].
  destruct (absorber_index_is_position _ _ _ _ _ _ _ H)
    as [(specs & element & p & j & H1 & H2 & H3 & _ & _ & H6 & _ & H8 & _) _].
  assert (Hel : element = "Ti").
  { vm_compute in H1. injection H1 as <-. vm_compute in H2. congruence. }
  assert (Hp : Dict.keys p = ["Ti"; "O"; "Ti+"]).
  { assert (K : option_map Dict.keys
                  (psp (locals (snd (write example_externals "out" [0%nat]
                                       identity_mapping w_unconfigured))))
                = Some ["Ti"; "O"; "Ti+"]) by (vm_compute; reflexivity).
    rewrite H3 in K. simpl in K. congruence. }
  subst element. rewrite Hp in H6.
  exists j. split; [exact H6 | exact H8].
Defined.

(** ** The weights (C9) *)

(** C9: in a completed call every [weight.txt] written holds the text of the
    binary64 number [third], and every requested site gets one in each of its
    three photon directories; the three canonical photons each declare the
    weight 1 out of a total of 3, [third] is the quotient [1 / 3] as the
    source computes it, and adding the three recorded values gives exactly
    [1.0]. *)
Theorem weights_are_thirds X target sites im w st w' :
  write X target sites im w = (Ok st, w') ->
  extends_by (weight_event X) w w' /\
  (exists specs,
      labels_at (species (structure_sc w)) im sites = Ok specs /\
      forall site specie n,
        In (site, specie) (combine sites specs) -> In n [1; 2; 3]%nat ->
        adds (EWrite (path_join (dipole_dir target site specie n) "weight.txt")
                     (str_float X third ++ newline)) w w') /\
  map dipole photons = [[1; 0; 0; 1]; [0; 1; 0; 1]; [0; 0; 1; 1]]%Z /\
  sum_weights photons 0 = Ok 3%Z /\
  Forall (fun ph => exists d, list_getitem (dipole ph) 3 = Ok d /\
                              truediv d 3 = Ok third) photons /\
  truediv 1 3 = Ok third /\
  PrimFloat.add (PrimFloat.add third third) third = 1%float.
Proof.
  intro H. split.
  - destruct (write_decks _ _ _ _ _ _ _ H)
      as (specs & element & p & j & _ & _ & _ & _ & _ & _ & H7).
    apply (extends_by_weaken (deck_event X (S j))); [| exact H7].
    intros [msg | d | src dst | path text]; simpl; tauto.
  - split.
    { destruct (write_decks_exist _ _ _ _ _ _ _ H) as (specs & H1 & Hex).
      exists specs. split; [exact H1 |].
      intros site specie n Hin Hn. apply (Hex site specie n Hin Hn). }
    split; [reflexivity |]. split; [apply photons_thirds |].
    split; [apply photons_thirds |].
    split; vm_compute; reflexivity.
Qed.

Lemma weights_are_thirds_witness :
  write example_externals "out" [0%nat] identity_mapping w_unconfigured
  = (Ok {| pass := true; errors := [] |},
     snd (write example_externals "out" [0%nat] identity_mapping
            w_unconfigured)) /\
  Dict.get (fs (snd (write example_externals "out" [0%nat] identity_mapping
                       w_unconfigured)))
           "out/000_Ti/dipole2/weight.txt"
  = Some (str_float example_externals third ++ newline) /\
  extends_by (weight_event example_externals) w_unconfigured
    (snd (write example_externals "out" [0%nat] identity_mapping
            w_unconfigured)).
Proof.
  assert (H : write example_externals "out" [0%nat] identity_mapping
                w_unconfigured
              = (Ok {| pass := true; errors := [] |},
                 snd (write example_externals "out" [0%nat] identity_mapping
                        w_unconfigured)))
    by (vm_compute; reflexivity).
  split; [exact H |]. split; [vm_compute; reflexivity |].
  apply (weights_are_thirds _ _ _ _ _ _ _ H).
Defined.

(** * Further properties

    What the code shows beyond the claims: the edge and error behaviour of
    [write], what it writes and where, what it leaves alone, the archive
    codec, the decks and the constructor. *)

(** ** Requests that cannot be served *)

Lemma write_preamble X target sites im w :
  write X target sites im w =
  (prepared <- preamble target sites im ;;
   let '(symbols, species, element, kpoints_scf) := prepared in
   resolve_psp X symbols target ;;
   store_cutoffs ;;
   write_ground_state X target kpoints_scf ;;
   inject_core_hole element target ;;
   iabs <- absorber_index element ;;
   for_each (combine sites species)
            (site_body X target element im kpoints_scf iabs) ;;
   ret {| pass := true; errors := [] |}) w.
Proof.
  unfold write, preamble, bind.
  destruct (fresh_frame w) as [[u0 | e0] w0]; [| reflexivity].
  destruct (prepare_cards target sites im w0) as [[prepared | e1] w1];
    [| reflexivity].
  destruct prepared as [[[symbols species] element] k].
  destruct (read_cutoffs w1) as [[u2 | e2] w2]; reflexivity.
Qed.

(** X7: with no site requested, [write] makes the target directory and raises
    [IndexError] at [species[0]]; it has touched neither the cards nor the
    structure nor any file. *)
Theorem write_without_sites X target im w :
  let r := write X target [] im w in
  fst r = Raise IndexError /\
  self (snd r) = self w /\
  structure_sc (snd r) = structure_sc w /\
  fs (snd r) = fs w /\
  trace (snd r) = (trace w ++ [EMkdir target])%list.
Proof. repeat split. Qed.

(** X8: when a requested site is not a key of [index_mapping] ([KeyError]) or
    is mapped outside the structure ([IndexError]), [write] raises that
    exception right after making the target directory. *)
Theorem write_rejects_unknown_site X target sites im w e :
  labels_at (species (structure_sc w)) im sites = Raise e ->
  let r := write X target sites im w in
  fst r = Raise e /\
  self (snd r) = self w /\
  structure_sc (snd r) = structure_sc w /\
  fs (snd r) = fs w /\
  trace (snd r) = (trace w ++ [EMkdir target])%list.
Proof.
  intros H r. subst r. unfold write, bind, fresh_frame, prepare_cards, bind,
    mkdir, get_structure.
  rewrite site_species_run. cbn [structure_sc with_event with_locals species].
  rewrite H. repeat split.
Qed.

Lemma write_rejects_unknown_site_witness :
  labels_at (species (structure_sc w_unconfigured)) identity_mapping [0; 7]%nat
  = Raise KeyError /\
  labels_at (species (structure_sc w_unconfigured)) [(0, 0); (7, 9)]%nat
            [0; 7]%nat = Raise IndexError /\
  fst (write example_externals "out" [0; 7]%nat identity_mapping w_unconfigured)
  = Raise KeyError /\
  fst (write example_externals "out" [0; 7]%nat [(0, 0); (7, 9)]%nat
         w_unconfigured) = Raise IndexError.
Proof.
  split; [reflexivity |]. split; [reflexivity |]. split.
  - apply (write_rejects_unknown_site example_externals "out" [0; 7]%nat
             identity_mapping w_unconfigured KeyError). reflexivity.
  - apply (write_rejects_unknown_site example_externals "out" [0; 7]%nat
             [(0, 0); (7, 9)]%nat w_unconfigured IndexError). reflexivity.
Defined.

Lemma preamble_outside target sites im w :
  outside (snd (preamble target sites im w))
  = outside (with_event (EMkdir target) w).
Proof.
  unfold preamble, prepare_cards.
  set (rest := fun _ : unit => bind get_structure _).
  set (k2 := fun prepared : list string * list string * string * (Z * Z * Z) =>
               bind read_cutoffs _).
  change (outside (snd (bind (rest tt) k2
                          (with_event (EMkdir target) (snd (fresh_frame w)))))
          = outside (with_event (EMkdir target) w)).
  transitivity (outside (with_event (EMkdir target) (snd (fresh_frame w))));
    [| reflexivity].
  apply (stable_bind (same outside)).
  - unfold rest. stable_tac; prim_stable.
  - intro prepared. unfold k2.
    apply stable_bind; [exact _ | | intro; stable_tac].
    apply stable_read_cutoffs; [exact _ | prim_stable ..].
Qed.

Lemma resolve_missing_table_name X symbols target w d :
  _psp_directory (self w) = Some d ->
  _psp_cutoff_table (self w) = None ->
  resolve_psp X symbols target w = (Raise TypeError, w).
Proof.
  intros Hd Ht.
  unfold resolve_psp, bind, getattr at 1. simpl. rewrite Hd.
  unfold try_except at 1.
  assert (E : direct_lookup X symbols target w = (Raise TypeError, w)).
  { unfold direct_lookup, bind, getattr, lift. simpl.
    rewrite Hd, Ht. reflexivity. }
  rewrite E. reflexivity.
Qed.

(** X11: an instance with the asset directory set and no catalogue name: once
    the cards are prepared, [write] raises [TypeError] at [Path(None)]; all it
    has done to the outside is to make the target directory. *)
Theorem missing_table_name_raises X target sites im w d prepared w2 :
  _psp_directory (self w) = Some d ->
  _psp_cutoff_table (self w) = None ->
  preamble target sites im w = (Ok prepared, w2) ->
  write X target sites im w = (Raise TypeError, w2) /\
  fs w2 = fs w /\
  trace w2 = (trace w ++ [EMkdir target])%list.
Proof.
  intros Hd Ht Hp.
  pose proof (preamble_outside target sites im w) as O.
  rewrite Hp in O. unfold outside in O. simpl in O.
  injection O as O1 O2 O3 O4 O5 O6.
  split; [| split; assumption].
  rewrite write_preamble. unfold bind at 1. rewrite Hp.
  destruct prepared as [[[symbols species] element] k].
  unfold bind at 1.
  rewrite (resolve_missing_table_name X symbols target w2 d); congruence.
Qed.

Lemma missing_table_name_raises_witness :
  fst (write example_externals "out" [0%nat] identity_mapping w_no_table)
  = Raise TypeError /\
  fs (snd (write example_externals "out" [0%nat] identity_mapping w_no_table))
  = full_assets.
Proof.
  assert (P : preamble "out" [0%nat] identity_mapping w_no_table
              = (Ok (["Ti"; "O"], ["Ti"], "Ti", (2, 2, 2)%Z),
                 snd (preamble "out" [0%nat] identity_mapping w_no_table)))
    by (vm_compute; reflexivity).
  destruct (missing_table_name_raises example_externals "out" [0%nat]
              identity_mapping w_no_table "psp" _ _ eq_refl eq_refl P)
    as (H1 & H2 & _).
  rewrite H1. split; [reflexivity | exact H2].
Defined.

(** ** The writers of a call, one by one *)

Lemma append_assoc (a b c : string) : (a ++ b) ++ c = a ++ (b ++ c).
Proof. induction a as [| x a IH]; simpl; [reflexivity | rewrite IH; reflexivity]. Qed.

Lemma below_target target : below target target.
Proof. left. reflexivity. Qed.

Lemma below_join target x : below target (path_join target x).
Proof. right. exists x. reflexivity. Qed.

Lemma below_deeper target p x : below target p -> below target (path_join p x).
Proof.
  intros [-> | (rest & ->)]; [apply below_join |].
  right. exists (rest ++ "/" ++ x). unfold path_join.
  rewrite append_assoc. reflexivity.
Qed.

Create HintDb below.
#[local] Hint Resolve below_target below_join below_deeper : below.

Ltac fine_tac :=
  repeat first
    [ match goal with
      | H : _ |- stable _ _ =>
          solve [ simple apply H; first [ reflexivity | auto with below ] ]
      end
    | apply stable_reader; [ exact _ | solve [ auto with reader ] ]
    | apply stable_bind; [ exact _ | | intro ]
    | apply stable_try; [ exact _ | | ]
    | apply stable_for_each; [ exact _ | intro ]
    | match goal with
      | |- stable _ (if ?b then _ else _) => destruct b
      | |- stable _ (match ?x with _ => _ end) => destruct x
      end ].

Section Writers.

Context (X : externals) (target : string) (R : world -> world -> Prop)
        `{!RelationClasses.PreOrder R}.

Hypothesis W_mkdir : forall p, below target p -> stable R (mkdir p).
Hypothesis W_open_w : forall p, below target p -> stable R (open_w p).
Hypothesis W_f_write : forall p s, below target p -> stable R (f_write p s).
Hypothesis W_copyfile : forall src dst,
    below target dst -> stable R (copyfile src dst).
Hypothesis W_warn : forall msg, stable R (warn msg).
Hypothesis W_set_psp : forall d, stable R (set_psp d).
Hypothesis W_set_ecutwfc : forall v, stable R (set_ecutwfc v).
Hypothesis W_set_ecutrho : forall v, stable R (set_ecutrho v).
Hypothesis W_fresh_frame : stable R fresh_frame.
Hypothesis W_structure_setitem : forall i l, stable R (structure_setitem i l).
Hypothesis W_element : forall x, stable R (cards_set ["XS"] "element" x).
Hypothesis W_edge : forall x,
    stable R (cards_set ["XS"; "input_xspectra"] "edge" x).
Hypothesis W_kpts : forall x, stable R (cards_set ["XS"; "kpts"] "kpts" x).
Hypothesis W_conv_thr : forall x,
    stable R (cards_set ["QE"; "electrons"] "conv_thr" x).
Hypothesis W_ecutwfc : forall x,
    stable R (cards_set ["QE"; "system"] "ecutwfc" x).
Hypothesis W_ecutrho : forall x,
    stable R (cards_set ["QE"; "system"] "ecutrho" x).
Hypothesis W_pseudo_dir :
    stable R (cards_set ["QE"; "control"] "pseudo_dir" (VStr "../")).

Lemma fine_prepare_cards sites im : stable R (prepare_cards target sites im).
Proof. unfold prepare_cards. fine_tac. Qed.

Lemma fine_read_cutoffs : stable R read_cutoffs.
Proof. unfold read_cutoffs. fine_tac. Qed.

Lemma fine_direct_lookup_loop psp_dict symbols :
  stable R (direct_lookup_loop psp_dict target symbols).
Proof.
  induction symbols as [| s rest IH]; simpl; [fine_tac |].
  unfold raise_ecutwfc, raise_ecutrho. fine_tac.
Qed.

Lemma fine_resolve_psp symbols : stable R (resolve_psp X symbols target).
Proof.
  unfold resolve_psp.
  apply stable_bind; [exact _ | fine_tac | intro d].
  apply stable_bind; [exact _ | | intro; fine_tac].
  destruct d; [| fine_tac].
  apply stable_try; [exact _ | |].
  - unfold direct_lookup. fine_tac. apply fine_direct_lookup_loop.
  - intro w. rewrite second_try_raises. reflexivity.
Qed.

Lemma fine_store_cutoffs : stable R store_cutoffs.
Proof. unfold store_cutoffs. fine_tac. Qed.

Lemma fine_write_ground_state k : stable R (write_ground_state X target k).
Proof. unfold write_ground_state. fine_tac. Qed.

Lemma fine_inject_core_hole element :
  stable R (inject_core_hole element target).
Proof. unfold inject_core_hole. fine_tac. Qed.

Lemma fine_site_body element im k iabs ss :
  stable R (site_body X target element im k iabs ss).
Proof.
  unfold site_body. destruct ss as [site specie]. fine_tac.
Qed.

Lemma fine_sites element im k iabs l :
  stable R (for_each l (site_body X target element im k iabs)).
Proof. apply stable_for_each; [exact _ | intro; apply fine_site_body]. Qed.

Lemma fine_write sites im : stable R (write X target sites im).
Proof.
  unfold write.
  apply stable_bind; [exact _ | exact W_fresh_frame | intros _].
  apply stable_bind; [exact _ | apply fine_prepare_cards | intro prepared].
  destruct prepared as [[[symbols species] element] kpoints_scf].
  apply stable_bind; [exact _ | apply fine_read_cutoffs | intros _].
  apply stable_bind; [exact _ | apply fine_resolve_psp | intros _].
  apply stable_bind; [exact _ | apply fine_store_cutoffs | intros _].
  apply stable_bind; [exact _ | apply fine_write_ground_state | intros _].
  apply stable_bind; [exact _ | apply fine_inject_core_hole | intros _].
  apply stable_bind; [exact _ | fine_tac | intro iabs].
  apply stable_bind; [exact _ | apply fine_sites | intros _].
  fine_tac.
Qed.


(** From the call to the stored cut-offs. *)
Lemma fine_head sites im prepared w w0 w1 w2 w3 w4 :
  fresh_frame w = (Ok tt, w0) ->
  prepare_cards target sites im w0 = (Ok prepared, w1) ->
  read_cutoffs w1 = (Ok tt, w2) ->
  resolve_psp X (fst (fst (fst prepared))) target w2 = (Ok tt, w3) ->
  store_cutoffs w3 = (Ok tt, w4) ->
  R w w4.
Proof.
  intros E0 E1 E2 E3 E4.
  etransitivity; [exact (stable_Ok _ _ _ _ _ W_fresh_frame E0) |].
  etransitivity; [exact (stable_Ok _ _ _ _ _ (fine_prepare_cards _ _) E1) |].
  etransitivity; [exact (stable_Ok _ _ _ _ _ fine_read_cutoffs E2) |].
  etransitivity; [exact (stable_Ok _ _ _ _ _ (fine_resolve_psp _) E3) |].
  exact (stable_Ok _ _ _ _ _ fine_store_cutoffs E4).
Qed.

(** From the prepared cards to the head of the loop over the sites. *)
Lemma fine_middle symbols element k w1 w2 w3 w4 w5 w6 :
  read_cutoffs w1 = (Ok tt, w2) ->
  resolve_psp X symbols target w2 = (Ok tt, w3) ->
  store_cutoffs w3 = (Ok tt, w4) ->
  write_ground_state X target k w4 = (Ok tt, w5) ->
  inject_core_hole element target w5 = (Ok tt, w6) ->
  R w1 w6.
Proof.
  intros E2 E3 E4 E5 E6.
  etransitivity; [exact (stable_Ok _ _ _ _ _ fine_read_cutoffs E2) |].
  etransitivity; [exact (stable_Ok _ _ _ _ _ (fine_resolve_psp _) E3) |].
  etransitivity; [exact (stable_Ok _ _ _ _ _ fine_store_cutoffs E4) |].
  etransitivity; [exact (stable_Ok _ _ _ _ _ (fine_write_ground_state _) E5) |].
  exact (stable_Ok _ _ _ _ _ (fine_inject_core_hole _) E6).
Qed.


End Writers.

#[local] Instance confined_PreOrder target
  : RelationClasses.PreOrder (confined target).
Proof.
  split.
  - intros w p _. reflexivity.
  - intros a b c Hab Hbc p Hp. rewrite (Hbc p Hp). apply (Hab p Hp).
Qed.

Lemma confined_same_fs target w w' : fs w' = fs w -> confined target w w'.
Proof. intros H p _. rewrite H. reflexivity. Qed.

Lemma confined_set target w p s :
  below target p -> confined target w (with_fs (Dict.set (fs w) p s) w).
Proof.
  intros Hp q Hq. simpl. apply dict_get_set_other. intros ->. exact (Hq Hp).
Qed.

(** Discharges what [confined] asks of the writers. *)
Ltac confined_stable :=
  let w := fresh "w" in
  intros; intro w;
  first
    [ apply confined_same_fs;
      unfold mkdir, warn, set_psp, set_ecutwfc, set_ecutrho, fresh_frame,
        structure_setitem, cards_set;
      repeat match goal with
             | |- context [match ?x with _ => _ end] => destruct x
             end;
      reflexivity
    | unfold open_w, f_write, copyfile;
      repeat match goal with
             | |- context [match ?x with _ => _ end] => destruct x
             | |- context [if ?x then _ else _] => destruct x
             end;
      simpl;
      first [ apply confined_set; assumption
            | apply confined_same_fs; reflexivity ] ].

Lemma write_confined X target sites im :
  stable (confined target) (write X target sites im).
Proof. apply fine_write; [exact _ | confined_stable ..]. Qed.

(** Discharges what [extends_by (inside target)] asks of the writers. *)
Ltac inside_stable :=
  first [ intros; apply mkdir_extends; assumption
        | intros; apply warn_extends; exact I
        | intros; apply copyfile_extends; assumption
        | intros; apply f_write_extends; assumption
        | silent_stable ].

Lemma write_inside X target sites im :
  stable (extends_by (inside target)) (write X target sites im).
Proof. apply fine_write; [exact _ | inside_stable ..]. Qed.

(** X20: whatever its outcome, [write] makes directories, writes files and
    receives copies only at the target directory or below it, and every file
    elsewhere is afterwards as it was before. *)
Theorem write_stays_in_target X target sites im w :
  let w' := snd (write X target sites im w) in
  extends_by (inside target) w w' /\
  (forall p, ~ below target p -> Dict.get (fs w') p = Dict.get (fs w) p).
Proof.
  split.
  - apply write_inside.
  - apply write_confined.
Qed.

Lemma cards_set_card p k x q :
  diverges (p ++ [k])%list q = true -> stable (same (card q)) (cards_set p k x).
Proof.
  intros Hdiv w. unfold same, card, cards_set.
  destruct (set_path (_cards (self w)) p k x) as [c | e] eqn:E; simpl.
  - apply (get_set_path_other _ _ _ _ _ _ E Hdiv).
  - reflexivity.
Qed.

Ltac card_same :=
  first [ exact _
        | intros; apply cards_set_card; assumption
        | intros; apply cards_set_card; simpl; assumption
        | intros; apply cards_set_card; reflexivity
        | prim_stable ].

(** X10: whatever its outcome, [write] leaves every entry of the cards that
    lies apart from the seven it assigns as it was. *)
Theorem write_assigns_seven_cards X target sites im w q :
  Forall (fun p => diverges p q = true) written_cards ->
  card q (snd (write X target sites im w)) = card q w.
Proof.
  intro F. unfold written_cards in F.
  repeat match goal with
         | H : Forall _ (_ :: _) |- _ =>
             let H1 := fresh "D" in
             let H2 := fresh "F" in
             apply Forall_cons_iff in H; destruct H as [H1 H2]
         end.
  assert (S : stable (same (card q)) (write X target sites im))
    by (apply fine_write; [exact _ | card_same ..]).
  apply S.
Qed.

Lemma write_assigns_seven_cards_witness :
  card ["XS"; "plot"; "xemax"]
       (snd (write example_externals "out" [0%nat] identity_mapping w_direct))
  = Ok (VNum (70 # 1)).
Proof.
  rewrite (write_assigns_seven_cards example_externals "out" [0%nat]
             identity_mapping w_direct ["XS"; "plot"; "xemax"]).
  - reflexivity.
  - repeat constructor.
Defined.

Lemma cards_set_card_same p k x w u w' :
  cards_set p k x w = (Ok u, w') -> card (p ++ [k])%list w' = Ok x.
Proof.
  intro H. apply cards_set_Ok in H. destruct H as (c & Hc & ->).
  unfold card. simpl. apply (get_set_path_same _ _ _ _ _ Hc).
Qed.

Tactic Notation "keeps_card" constr(q) "in" hyp(E) "as" ident(S) :=
  pose proof E as S;
  apply (stable_Ok (same (card q))) in S;
  [ unfold same in S
  | first [ apply stable_reader; [exact _ | solve [auto with reader]]
          | apply cards_set_card; reflexivity
          | prim_stable ] ].

Lemma prepare_cards_cards target sites im w symbols specs element k w' :
  prepare_cards target sites im w = (Ok (symbols, specs, element, k), w') ->
  card ["XS"; "element"] w' = Ok (VStr element) /\
  card ["XS"; "input_xspectra"; "edge"] w' = Ok (_edge (self w)) /\
  card ["XS"; "kpts"; "kpts"] w'
  = Ok (VStr (grid_text (_kpoints (self w) (structure_sc w)))) /\
  card ["QE"; "electrons"; "conv_thr"] w'
  = Ok (VNum (Qmult (_defaultConvPerAtom (self w))
                    (inject_Z (Z.of_nat (List.length (species (structure_sc w))))))) /\
  k = scf_grid w.
Proof.
  intro H. unfold prepare_cards in H.
  step H as u1 w1 E1. keeps settings in E1 as T1.
  step H as st w2 E2. unfold get_structure in E2. injection E2 as <- <-.
  step H as sp w3 E3.
  pose proof (reader_Ok _ _ _ _ (reader_site_species _ _) E3) as ->.
  step H as el w4 E4. apply lift_Ok in E4. destruct E4 as [_ ->].
  step H as u5 w5 E5. keeps settings in E5 as T5.
  pose proof (cards_set_card_same _ _ _ _ _ _ E5) as C5.
  step H as edge w6 E6. unfold get_self in E6. injection E6 as <- <-.
  step H as u7 w7 E7. keeps settings in E7 as T7.
  pose proof (cards_set_card_same _ _ _ _ _ _ E7) as C7.
  keeps_card ["XS"; "element"] in E7 as K7.
  step H as kp w8 E8. unfold get_self in E8. injection E8 as <- <-.
  step H as u9 w9 E9. keeps settings in E9 as T9.
  pose proof (cards_set_card_same _ _ _ _ _ _ E9) as C9.
  keeps_card ["XS"; "element"] in E9 as K9.
  keeps_card ["XS"; "input_xspectra"; "edge"] in E9 as L9.
  step H as conv w10 E10. unfold get_self in E10. injection E10 as <- <-.
  step H as u11 w11 E11.
  pose proof (cards_set_card_same _ _ _ _ _ _ E11) as C11.
  keeps_card ["XS"; "element"] in E11 as K11.
  keeps_card ["XS"; "input_xspectra"; "edge"] in E11 as L11.
  keeps_card ["XS"; "kpts"; "kpts"] in E11 as M11.
  apply ret_Ok in H. destruct H as [H ->].
  injection H as H1 H2 H3 H4. subst symbols sp el k.
  unfold settings in T1, T5, T7, T9. simpl in T1.
  injection T1 as A1 A2 A3 A4. injection T5 as B1 B2 B3 B4.
  injection T7 as D1 D2 D3 D4. injection T9 as G1 G2 G3 G4.
  simpl in C5, C7, C9, C11.
  split; [rewrite K11, K9, K7; exact C5 |].
  split; [rewrite L11, L9, C7, B1, A1; reflexivity |].
  split.
  { rewrite M11, C9, D2, B2, A2, A4. reflexivity. }
  split.
  { rewrite C11, G3, D3, B3, A3, A4. reflexivity. }
  unfold scf_grid. rewrite D2, B2, A2, A4. reflexivity.
Qed.





(** ** The decks of the self-consistent runs *)





Lemma pwinput_Ok X k w text w' :
  pwinput X k w = (Ok text, w') ->
  exists p control system electrons,
    psp (locals w) = Some p /\
    card ["QE"; "control"] w = Ok control /\
    card ["QE"; "system"] w = Ok system /\
    card ["QE"; "electrons"] w = Ok electrons /\
    text = PWInput X (structure_sc w) p control system electrons k /\
    w' = w.
Proof.
  intro H. unfold pwinput in H.
  step H as s w1 E1. unfold get_structure in E1. injection E1 as <- <-.
  step H as p w2 E2. apply get_psp_Ok in E2. destruct E2 as [Hp ->].
  step H as c w3 E3. apply cards_get_Ok in E3. destruct E3 as [Hc ->].
  step H as sy w4 E4. apply cards_get_Ok in E4. destruct E4 as [Hs ->].
  step H as el w5 E5. apply cards_get_Ok in E5. destruct E5 as [He ->].
  apply ret_Ok in H. destruct H as [-> ->].
  exists p, c, sy, el. repeat (split; [first [assumption | reflexivity] |]).
  reflexivity.
Qed.


Lemma get_path_app v p q :
  get_path v (p ++ q)%list =
  match get_path v p with
  | Ok x => get_path x q
  | Raise e => Raise e
  end.
Proof.
  revert v. induction p as [| k p IH]; intro v; simpl; [reflexivity |].
  destruct (getitem v k) as [x | e]; [apply IH | reflexivity].
Qed.


Ltac writers_any :=
  first [ exact _ | any_stable ].




(** X16: processing a requested site writes [es.in] into the site's directory,
    rendered while the site's atom carries the ionised label
    ["{element}+"], from the mapping, the QE sections of the cards (with the
    pseudopotential directory ["../"]) and the grid [k] the loop is run with,
    which in [write] is that of the ground state. *)
Theorem excited_state_deck X target element im k iabs site specie w w' :
  site_body X target element im k iabs (site, specie) w = (Ok tt, w') ->
  exists i l p control system electrons,
    index_lookup im site = Ok i /\
    list_set (species (structure_sc w)) i (element ++ "+") = Some l /\
    psp (locals w) = Some p /\
    card ["QE"; "control"] w' = Ok control /\
    getitem control "pseudo_dir" = Ok (VStr "../") /\
    card ["QE"; "system"] w' = Ok system /\
    card ["QE"; "electrons"] w' = Ok electrons /\
    adds (EWrite (path_join (path_join target (fmt_03 site ++ "_" ++ specie))
                            "es.in")
                 (PWInput X {| species := l;
                               primitive_sites :=
                                 primitive_sites (structure_sc w) |}
                          p control system electrons k))
         w w'.
Proof.
  intro H. unfold site_body in H.
  step H as u1 w1 E1. grows E1 as T1. keeps scf_inputs in E1 as S1.
  step H as i w2 E2. apply lift_Ok in E2. destruct E2 as [Hi ->].
  step H as u3 w3 E3. grows E3 as T3.
  pose proof (structure_setitem_Ok _ _ _ _ _ E3) as (l & Hl & Hs3).
  assert (W3 : w3 = with_structure
                      {| species := l;
                         primitive_sites := primitive_sites (structure_sc w1) |}
                      w1).
  { unfold structure_setitem in E3. rewrite Hl in E3. inversion E3.
    reflexivity. }
  step H as u4 w4 E4. grows E4 as T4.
  pose proof (cards_set_card_same _ _ _ _ _ _ E4) as P4.
  assert (W4 : structure_sc w4 = structure_sc w3 /\ locals w4 = locals w3).
  { apply cards_set_Ok in E4. destruct E4 as (c4 & _ & ->). split; reflexivity. }
  destruct W4 as [W4 W4'].
  step H as text w5 E5. apply pwinput_Ok in E5.
  destruct E5 as (p & c & s & e & Hp & Hc & Hs & He & -> & ->).
  step H as u6 w6 E6. grows E6 as T6. keeps self in E6 as S6.
  step H as u7 w7 E7. pose proof (f_write_adds _ _ _ _ _ E7) as A7.
  keeps self in E7 as S7.
  step H as i2 w8 E8. apply lift_Ok in E8. destruct E8 as [_ ->].
  step H as u9 w9 E9. grows E9 as T9. keeps self in E9 as S9.
  step H as total w10 E10. apply lift_Ok in E10. destruct E10 as [_ ->].
  pose proof (stable_Ok _ _ _ _ _ (photon_loop_anything _ _ _ _ _ _) H) as T10.
  assert (S10 : self w' = self w9).
  { refine (stable_Ok (same self) _ _ _ _ _ H).
    apply stable_photon_loop; [exact _ | prim_stable ..]. }
  assert (Hself : self w' = self w4) by congruence.
  unfold scf_inputs in S1. injection S1 as S1a S1b S1c S1d S1e.
  exists i, l, p, c, s, e.
  split; [exact Hi |].
  split; [rewrite <- S1a; exact Hl |].
  split; [rewrite <- S1b, <- Hp, W4', W3; reflexivity |].
  unfold card in *. rewrite Hself.
  split; [exact Hc |].
  split.
  { change ["QE"; "control"; "pseudo_dir"]
      with (["QE"; "control"] ++ ["pseudo_dir"])%list in P4.
    rewrite get_path_app, Hc in P4. simpl in P4.
    destruct (getitem c "pseudo_dir"); [exact P4 | discriminate P4]. }
  split; [exact Hs |]. split; [exact He |].
  assert (Hst : structure_sc w4
                = {| species := l;
                     primitive_sites := primitive_sites (structure_sc w) |}).
  { rewrite W4, W3. simpl. rewrite S1a. reflexivity. }
  rewrite Hst in A7.
  apply (then_adds _ _ w6 _).
  { etransitivity; [exact T1 |]. etransitivity; [exact T3 |].
    etransitivity; [exact T4 | exact T6]. }
  apply (adds_then _ _ _ _ A7).
  etransitivity; [exact T9 | exact T10].
Qed.

(** ** The files of the catalogue *)

Lemma copyfile_Ok src dst w u w' :
  copyfile src dst w = (Ok u, w') ->
  exists s, Dict.get (fs w) src = Some s /\
            w' = with_event (ECopy src dst) (with_fs (Dict.set (fs w) dst s) w).
Proof.
  unfold copyfile. destruct (String.eqb src dst);
    destruct (Dict.get (fs w) src) as [s |]; intro H; inversion H.
  exists s. split; reflexivity.
Qed.

Lemma copyfile_adds src dst w u w' :
  copyfile src dst w = (Ok u, w') -> adds (ECopy src dst) w w'.
Proof.
  intro H. apply copyfile_Ok in H. destruct H as (s & _ & ->).
  exists [ECopy src dst]. split; [reflexivity | left; reflexivity].
Qed.

Lemma as_str_Ok v s : as_str v = Ok s -> v = VStr s.
Proof. destruct v; simpl; intro H; inversion H. reflexivity. Qed.

Lemma direct_lookup_loop_anything psp_dict target symbols :
  stable (extends_by anything) (direct_lookup_loop psp_dict target symbols).
Proof. apply stable_direct_lookup_loop; [exact _ | any_stable ..]. Qed.

(** A completed pass of tier 1 has copied, for every symbol, the file the
    catalogue names, and has entered that name in the mapping. *)
Lemma direct_lookup_loop_copies psp_dict target d symbols :
  forall w u w' p,
    direct_lookup_loop psp_dict target symbols w = (Ok u, w') ->
    psp (locals w) = Some p ->
    _psp_directory (self w) = Some d ->
    exists p',
      psp (locals w') = Some p' /\
      (forall s, ~ In s symbols -> Dict.get p' s = Dict.get p s) /\
      (forall s, In s symbols ->
         exists name,
           table_filename psp_dict s name /\
           Dict.get p' s = Some (VStr name) /\
           adds (ECopy (path_join d name) (path_join target name)) w w').
Proof.
  induction symbols as [| symbol rest IH]; intros w u w' p H Hp Hd.
  - simpl in H. apply ret_Ok in H. destruct H as [_ ->].
    exists p. split; [exact Hp |]. split; [reflexivity |]. intros s [].
  - simpl in H.
    step H as entry w1 E1. apply lift_Ok in E1. destruct E1 as [Eentry ->].
    step H as fn w2 E2. apply lift_Ok in E2. destruct E2 as [Efn ->].
    step H as p0 w3 E3. apply get_psp_Ok in E3. destruct E3 as [Hp0 ->].
    rewrite Hp in Hp0. injection Hp0 as <-.
    step H as u4 w4 E4. grows E4 as T4. keeps self in E4 as S4.
    assert (Hp4 : psp (locals w4) = Some (Dict.set p symbol fn)).
    { unfold set_psp in E4. injection E4 as _ <-. reflexivity. }
    step H as d0 w5 E5. change (getattr "_psp_directory" w4)
      with (Ok (_psp_directory (self w4)), w4) in E5. injection E5 as <- <-.
    rewrite S4, Hd in H.
    step H as dir w6 E6. apply lift_Ok in E6. destruct E6 as [E6 ->].
    injection E6 as <-.
    step H as name w7 E7. apply lift_Ok in E7. destruct E7 as [Ename ->].
    apply as_str_Ok in Ename. subst fn.
    step H as u8 w8 E8. pose proof (copyfile_adds _ _ _ _ _ E8) as A8.
    keeps local_psp in E8 as P8. keeps self in E8 as S8.
    step H as u9 w9 E9. grows E9 as T9.
    keeps local_psp in E9 as P9. keeps self in E9 as S9.
    step H as u10 w10 E10. grows E10 as T10.
    keeps local_psp in E10 as P10. keeps self in E10 as S10.
    pose proof (stable_Ok _ _ _ _ _
                  (direct_lookup_loop_anything _ _ _) H) as T11.
    unfold local_psp in P8, P9, P10.
    destruct (IH w10 u w' (Dict.set p symbol (VStr name)) H)
      as (p' & Hp' & Hout & Hin); [congruence | congruence |].
    exists p'. split; [exact Hp' |]. split.
    + intros s Hs. rewrite Hout.
      * apply dict_get_set_other. intros ->. apply Hs. left. reflexivity.
      * intro Hr. apply Hs. right. exact Hr.
    + intros s Hs.
      destruct (in_dec string_dec s rest) as [Hr | Hr].
      * destruct (Hin s Hr) as (name' & Hn1 & Hn2 & A).
        exists name'. split; [exact Hn1 |]. split; [exact Hn2 |].
        apply (then_adds _ _ w10 _); [| exact A].
        etransitivity; [exact T4 |].
        etransitivity; [| etransitivity; [exact T9 | exact T10]].
        destruct A8 as (evs & Ht & _). exists evs. split; [exact Ht |].
        apply Forall_forall. intros. exact I.
      * destruct Hs as [<- | Hs]; [| contradiction].
        exists name. split; [exists entry; split; assumption |].
        split; [rewrite (Hout _ Hr); apply dict_get_set_same |].
        apply (then_adds _ _ w4 _ T4). apply (adds_then _ _ _ _ A8).
        etransitivity; [exact T9 |]. etransitivity; [exact T10 | exact T11].
Qed.

Lemma resolve_psp_configured X symbols target w u w' d :
  resolve_psp X symbols target w = (Ok u, w') ->
  _psp_directory (self w) = Some d ->
  exists t text psp_dict,
    _psp_cutoff_table (self w) = Some t /\
    Dict.get (fs w) (path_join d t) = Some text /\
    json_loads X text = Some psp_dict /\
    direct_lookup_loop psp_dict target symbols
      (with_locals {| psp := Some []; ecutwfc := ecutwfc (locals w);
                      ecutrho := ecutrho (locals w) |} w)
    = (Ok tt, w').
Proof.
  intros H Hd. unfold resolve_psp in H.
  step H as d0 w1 E1. change (getattr "_psp_directory" w)
    with (Ok (_psp_directory (self w)), w) in E1. inversion E1; subst d0 w1.
  rewrite Hd in H.
  step H as u2 w2 E2.
  apply try_except_Ok in E2. destruct E2 as [E2 | (w1 & _ & E2)];
    [| rewrite second_try_raises in E2; discriminate E2].
  assert (Hs : self w2 = self w).
  { refine (stable_Ok (same self) _ _ _ _ _ E2).
    apply stable_direct_lookup; [exact _ | prim_stable ..]. }
  step H as d2 w3 E3. change (getattr "_psp_directory" w2)
    with (Ok (_psp_directory (self w2)), w2) in E3. inversion E3; subst d2 w3.
  rewrite Hs, Hd in H. apply ret_Ok in H. destruct H as [_ ->].
  unfold direct_lookup in E2.
  step E2 as d0 v1 F1. change (getattr "_psp_directory" w)
    with (Ok (_psp_directory (self w)), w) in F1. inversion F1; subst d0 v1.
  rewrite Hd in E2.
  step E2 as dir v2 F2. apply lift_Ok in F2. destruct F2 as [F2 ->].
  inversion F2; subst dir.
  step E2 as t0 v3 F3. change (getattr "_psp_cutoff_table" w)
    with (Ok (_psp_cutoff_table (self w)), w) in F3. inversion F3; subst t0 v3.
  step E2 as table v4 F4. apply lift_Ok in F4. destruct F4 as [F4 ->].
  destruct (_psp_cutoff_table (self w)) as [t |] eqn:Et; [| discriminate F4].
  inversion F4; subst table.
  step E2 as text v5 F5. unfold read_text in F5.
  destruct (Dict.get (fs w) (path_join d t)) as [txt |] eqn:Ef;
    inversion F5; subst txt v5.
  step E2 as psp_dict v6 F6. apply of_option_Ok in F6. destruct F6 as [F6 ->].
  step E2 as u7 v7 F7. unfold set_psp in F7. injection F7 as _ <-.
  destruct u2. exists t, text, psp_dict.
  repeat (split; [first [assumption | reflexivity] |]). exact E2.
Qed.

(** X12: in a completed call on an instance with the asset directory [d]
    configured, the catalogue [d/t] was read, and for every symbol of the
    structure the file the catalogue names was copied from [d] into the target
    directory under the same name, which is also the symbol's entry in the
    pseudopotential mapping. *)
Theorem catalogue_files_are_copied X target sites im w st w' d :
  _psp_directory (self w) = Some d ->
  write X target sites im w = (Ok st, w') ->
  exists t text psp_dict p0 element,
    _psp_cutoff_table (self w) = Some t /\
    Dict.get (fs w) (path_join d t) = Some text /\
    json_loads X text = Some psp_dict /\
    psp (locals w')
    = Some (Dict.set p0 (element ++ "+") (VStr (element ++ ".fch.upf"))) /\
    forall s, In s (species (structure_sc w)) ->
      exists name,
        table_filename psp_dict s name /\
        Dict.get p0 s = Some (VStr name) /\
        adds (ECopy (path_join d name) (path_join target name)) w w'.
Proof.
  intros Hd H. apply write_Ok in H.
  destruct H as (w0 & symbols & specs & element & k & w1 & w2 & w3 & w4 & w5
                 & w6 & iabs & E0 & E1 & E2 & E3 & E4 & E5 & E6 & E7 & E8).
  destruct (prepare_cards_Ok _ _ _ _ _ _ _ _ _ E1) as (Hsym & _ & _).
  assert (V2 : system_view w2 = system_view w).
  { keeps system_view in E0 as S0.
    assert (S1 : system_view w1 = system_view w0).
    { refine (stable_Ok (same system_view) _ _ _ _ _ E1).
      apply stable_prepare_cards; [exact _ | prim_stable |].
      intros p k0 x Hdiv. apply cards_set_system_view. exact Hdiv. }
    destruct (read_cutoffs_Ok _ _ _ E2) as (_ & _ & S2). congruence. }
  assert (Hst0 : structure_sc w0 = structure_sc w).
  { unfold fresh_frame in E0. injection E0 as <-. reflexivity. }
  rewrite Hst0 in Hsym. subst symbols.
  unfold system_view in V2. injection V2 as _ V2d V2t V2f _.
  assert (Hd2 : _psp_directory (self w2) = Some d) by congruence.
  destruct (resolve_psp_configured _ _ _ _ _ _ _ E3 Hd2)
    as (t & text & psp_dict & Ht & Hf & Hj & L).
  destruct (direct_lookup_loop_copies _ _ d _ _ _ _ [] L eq_refl Hd2)
    as (p' & Hp' & _ & Hin).
  assert (P4 : local_psp w4 = local_psp w3).
  { refine (stable_Ok (same local_psp) _ _ _ _ _ E4).
    apply stable_store_cutoffs; [exact _ | prim_stable ..]. }
  assert (P5 : local_psp w5 = local_psp w4).
  { refine (stable_Ok (same local_psp) _ _ _ _ _ E5).
    apply stable_write_ground_state; [exact _ | prim_stable ..]. }
  destruct (inject_core_hole_Ok _ _ _ _ _ E6) as (p5 & Hp5 & Hp6).
  assert (P8 : local_psp w' = local_psp w6).
  { refine (stable_Ok (same local_psp) _ _ _ _ _ E8).
    apply stable_sites; [exact _ | prim_stable ..]. }
  unfold local_psp in P4, P5, P8.
  assert (p5 = p') by congruence. subst p5.
  assert (T2 : extends_by anything w w2).
  { assert (T0 : extends_by anything w w0).
    { refine (stable_Ok _ _ _ _ _ _ E0). any_stable. }
    assert (T1 : extends_by anything w0 w1).
    { refine (stable_Ok _ _ _ _ _ _ E1).
      apply stable_prepare_cards; [exact _ | any_stable ..]. }
    assert (T2 : extends_by anything w1 w2).
    { refine (stable_Ok _ _ _ _ _ _ E2).
      apply stable_read_cutoffs; [exact _ | any_stable ..]. }
    etransitivity; [exact T0 |]. etransitivity; [exact T1 | exact T2]. }
  assert (T8 : extends_by anything w3 w').
  { assert (T4 : extends_by anything w3 w4).
    { refine (stable_Ok _ _ _ _ _ _ E4).
      apply stable_store_cutoffs; [exact _ | any_stable ..]. }
    assert (T5 : extends_by anything w4 w5).
    { refine (stable_Ok _ _ _ _ _ _ E5).
      apply stable_write_ground_state; [exact _ | any_stable ..]. }
    assert (T6 : extends_by anything w5 w6).
    { refine (stable_Ok _ _ _ _ _ _ E6).
      apply stable_inject_core_hole; [exact _ | any_stable ..]. }
    assert (T8 : extends_by anything w6 w').
    { refine (stable_Ok _ _ _ _ _ _ E8).
      apply stable_sites; [exact _ | any_stable ..]. }
    etransitivity; [exact T4 |]. etransitivity; [exact T5 |].
    etransitivity; [exact T6 | exact T8]. }
  exists t, text, psp_dict, p', element.
  split; [congruence |]. split; [congruence |]. split; [exact Hj |].
  split; [congruence |].
  intros s Hs. destruct (Hin s Hs) as (name & Hn1 & Hn2 & A).
  exists name. split; [exact Hn1 |]. split; [exact Hn2 |].
  apply (then_adds _ _ w2 _ T2).
  apply (adds_then _ _ w3 _); [| exact T8].
  destruct A as (evs & Ht' & Hi). exists evs. split; [exact Ht' | exact Hi].
Qed.

Lemma catalogue_files_are_copied_witness :
  exists w',
    write example_externals "out" [0%nat] identity_mapping w_direct
    = (Ok {| pass := true; errors := [] |}, w') /\
    Dict.get (fs w') "out/o.upf" = Some "OX" /\
    exists name,
      table_filename example_table "O" name /\
      adds (ECopy (path_join "psp" name) (path_join "out" name)) w_direct w'.
Proof.
  exists (snd (write example_externals "out" [0%nat] identity_mapping w_direct)).
  assert (H : write example_externals "out" [0%nat] identity_mapping w_direct
              = (Ok {| pass := true; errors := [] |},
                 snd (write example_externals "out" [0%nat] identity_mapping
                        w_direct)))
    by (vm_compute; reflexivity).
  split; [exact H |]. split; [vm_compute; reflexivity |].
  destruct (catalogue_files_are_copied example_externals "out" [0%nat]
              identity_mapping w_direct _ _ "psp" eq_refl H)
    as (t & text & psp_dict & p0 & element & H1 & H2 & H3 & _ & H5).
  assert (Ht : t = "table.json") by (vm_compute in H1; congruence).
  subst t.
  assert (Htext : text = "<table>") by (vm_compute in H2; congruence).
  subst text.
  assert (Hd : psp_dict = example_table)
    by (vm_compute in H3; injection H3 as <-; reflexivity).
  subst psp_dict.
  destruct (H5 "O") as (name & Hn & _ & A); [right; left; reflexivity |].
  exists name. split; [exact Hn | exact A].
Defined.

(** ** The archive: packing, and the loop that unpacks *)

Lemma bind_reader {A B} (m : M A) (k : A -> M B) w :
  reader m ->
  bind m k w = match fst (m w) with
               | Ok a => k a w
               | Raise e => (Raise e, w)
               end.
Proof.
  intro Hm. unfold bind. specialize (Hm w).
  destruct (m w) as [[a | e] w1]; simpl in *; subst w1; reflexivity.
Qed.

Lemma reader_packPsps_loop X inJSON elements :
  forall outJSON, reader (packPsps_loop X inJSON elements outJSON).
Proof.
  induction elements as [| element rest IH]; intro outJSON; simpl; reader_tac.
Qed.

Lemma dict_set_set {V} (d : Dict.t V) k v v' :
  Dict.set (Dict.set d k v) k v' = Dict.set d k v'.
Proof.
  induction d as [| [k0 v0] d IH]; simpl.
  - rewrite String.eqb_refl. reflexivity.
  - destruct (String.eqb k k0) eqn:E; simpl; rewrite E; [reflexivity |].
    rewrite IH. reflexivity.
Qed.

(** X2: [packPsps] is all or nothing.  If it raises, the world is as it was: no
    archive, not even an empty one, is left behind.  If it returns, all it has
    done is to write the one file [pspJsonOut]. *)
Theorem packPsps_all_or_nothing X pspJsonOut w :
  match packPsps X pspJsonOut w with
  | (Raise _, w') => w' = w
  | (Ok _, w') =>
      exists outJSON,
        w' = with_event
               (EWrite pspJsonOut (json_dumps X (VDict outJSON)))
               (with_fs (Dict.set (fs w) pspJsonOut
                                  (json_dumps X (VDict outJSON))) w)
  end.
Proof.
  unfold packPsps.
  repeat (rewrite bind_reader by auto using reader_packPsps_loop with reader;
          match goal with
          | |- context [match fst ?x with _ => _ end] =>
              destruct (fst x); [| reflexivity]
          end).
  unfold bind, open_w, f_write. simpl. rewrite dict_set_set.
  eexists. reflexivity.
Qed.

Lemma packPsps_loop_Ok X inJSON dir elements :
  forall outJSON0 w outJSON w',
    packPsps_loop X inJSON elements outJSON0 w = (Ok outJSON, w') ->
    _psp_directory (self w) = Some dir ->
    packed_from X (fs w) dir outJSON0 ->
    (forall name v, Dict.get outJSON0 name = Some v ->
                    exists element, table_filename inJSON element name) ->
    packed_from X (fs w) dir outJSON /\
    (forall name, Dict.get outJSON0 name <> None ->
                  Dict.get outJSON name <> None) /\
    (forall element, In element elements ->
       exists name, table_filename inJSON element name /\
                    Dict.get outJSON name <> None) /\
    (forall name v, Dict.get outJSON name = Some v ->
                    exists element, table_filename inJSON element name).
Proof.
  induction elements as [| element rest IH]; intros out0 w out w' H Hd P0 N0.
  - simpl in H. apply ret_Ok in H. destruct H as [-> _].
    split; [exact P0 |]. split; [auto |]. split; [intros e [] | exact N0].
  - simpl in H.
    step H as d0 w1 E1. change (getattr "_psp_directory" w)
      with (Ok (_psp_directory (self w)), w) in E1. inversion E1; subst d0 w1.
    rewrite Hd in H.
    step H as dir0 w2 E2. apply lift_Ok in E2. destruct E2 as [E2 ->].
    injection E2 as <-.
    step H as entry w3 E3. apply lift_Ok in E3. destruct E3 as [Eentry ->].
    step H as fn w4 E4. apply lift_Ok in E4. destruct E4 as [Efn ->].
    step H as name w5 E5. apply lift_Ok in E5. destruct E5 as [Ename ->].
    apply as_str_Ok in Ename. subst fn.
    step H as content w6 E6. unfold read_text in E6.
    destruct (Dict.get (fs w) (path_join dir name)) as [c |] eqn:Ef;
      inversion E6; subst c w6.
    step H as packed w7 E7. apply of_option_Ok in E7. destruct E7 as [Ep ->].
    assert (Htab : table_filename inJSON element name)
      by (exists entry; split; assumption).
    destruct (IH _ _ _ _ H Hd) as (P & K & I & N).
    { intros n v Hn. destruct (string_dec n name) as [-> | Hne].
      - rewrite dict_get_set_same in Hn. injection Hn as <-.
        exists content, packed. repeat split; assumption.
      - rewrite dict_get_set_other in Hn by exact Hne. apply (P0 n v Hn). }
    { intros n v Hn. destruct (string_dec n name) as [-> | Hne].
      - exists element. exact Htab.
      - rewrite dict_get_set_other in Hn by exact Hne. apply (N0 n v Hn). }
    split; [exact P |]. split.
    { intros n Hn. apply K. destruct (string_dec n name) as [-> | Hne].
      - rewrite dict_get_set_same. discriminate.
      - rewrite dict_get_set_other by exact Hne. exact Hn. }
    split; [| exact N].
    intros e [<- | He].
    + exists name. split; [exact Htab |]. apply K.
      rewrite dict_get_set_same. discriminate.
    + apply I. exact He.
Qed.

(** What a completed [packPsps] has read and written. *)
Lemma packPsps_Ok X pspJsonOut w u w' :
  packPsps X pspJsonOut w = (Ok u, w') ->
  exists dir t text inJSON elements outJSON,
    _psp_directory (self w) = Some dir /\
    _psp_cutoff_table (self w) = Some t /\
    Dict.get (fs w) (path_join dir t) = Some text /\
    json_loads X text = Some inJSON /\
    iter_keys inJSON = Ok elements /\
    Dict.get (fs w') pspJsonOut = Some (json_dumps X (VDict outJSON)) /\
    (forall element, In element elements ->
       exists name content packed,
         table_filename inJSON element name /\
         Dict.get (fs w) (path_join dir name) = Some content /\
         encode_psp X content = Some packed /\
         Dict.get outJSON name = Some (VStr packed)) /\
    (forall name v, Dict.get outJSON name = Some v ->
                    exists element, table_filename inJSON element name).
Proof.
  intro H. unfold packPsps in H.
  step H as d0 w1 E1. change (getattr "_psp_directory" w)
    with (Ok (_psp_directory (self w)), w) in E1. inversion E1; subst d0 w1.
  step H as dir w2 E2. apply lift_Ok in E2. destruct E2 as [E2 ->].
  destruct (_psp_directory (self w)) as [d |] eqn:Hd; [| discriminate E2].
  injection E2 as <-.
  step H as t0 w3 E3. change (getattr "_psp_cutoff_table" w)
    with (Ok (_psp_cutoff_table (self w)), w) in E3. inversion E3; subst t0 w3.
  step H as table w4 E4. apply lift_Ok in E4. destruct E4 as [E4 ->].
  destruct (_psp_cutoff_table (self w)) as [t |] eqn:Ht; [| discriminate E4].
  injection E4 as <-.
  step H as text w5 E5. unfold read_text in E5.
  destruct (Dict.get (fs w) (path_join d t)) as [txt |] eqn:Ef;
    inversion E5; subst txt w5.
  step H as inJSON w6 E6. apply of_option_Ok in E6. destruct E6 as [Ej ->].
  step H as elements w7 E7. apply lift_Ok in E7. destruct E7 as [Ee ->].
  step H as outJSON w8 E8.
  pose proof (reader_Ok _ _ _ _ (reader_packPsps_loop _ _ _ _) E8) as ->.
  destruct (packPsps_loop_Ok _ _ d _ _ _ _ _ E8 Hd) as (P & _ & I & N).
  { intros n v Hn. discriminate Hn. }
  { intros n v Hn. discriminate Hn. }
  step H as u9 w9 E9. unfold open_w in E9. injection E9 as _ <-.
  unfold f_write in H. injection H as _ <-.
  exists d, t, text, inJSON, elements, outJSON.
  repeat (split; [first [assumption | reflexivity] |]).
  split; [simpl; apply dict_get_set_same |].
  split; [| exact N].
  intros element He. destruct (I element He) as (name & Hn & Hk).
  destruct (Dict.get outJSON name) as [v |] eqn:Ev; [| congruence].
  destruct (P name v Ev) as (content & packed & H1 & H2 & ->).
  exists name, content, packed. repeat split; assumption.
Qed.

(** X3: when [packPsps] returns, the archive it wrote holds, for every element
    of the catalogue, under the file name the catalogue gives, the packed text
    (utf-8, bz2, base64) of that file of the asset directory, and it holds
    nothing under any other name. *)
Theorem packPsps_stores_every_file X pspJsonOut w u w' :
  packPsps X pspJsonOut w = (Ok u, w') ->
  exists dir t text inJSON elements outJSON,
    _psp_directory (self w) = Some dir /\
    _psp_cutoff_table (self w) = Some t /\
    Dict.get (fs w) (path_join dir t) = Some text /\
    json_loads X text = Some inJSON /\
    iter_keys inJSON = Ok elements /\
    Dict.get (fs w') pspJsonOut = Some (json_dumps X (VDict outJSON)) /\
    (forall element, In element elements ->
       exists name content packed,
         table_filename inJSON element name /\
         Dict.get (fs w) (path_join dir name) = Some content /\
         encode_psp X content = Some packed /\
         Dict.get outJSON name = Some (VStr packed)) /\
    (forall name v, Dict.get outJSON name = Some v ->
                    exists element, table_filename inJSON element name).
Proof. apply packPsps_Ok. Qed.

Lemma path_join_inj a b c : path_join a b = path_join a c -> b = c.
Proof.
  unfold path_join. induction a as [| x a IH]; simpl; intro H.
  - injection H as H. exact H.
  - injection H as H. apply IH. exact H.
Qed.

(** The loop of lines 265-271 on an archive whose entries decode: it
    completes, and every file it writes is the decoded entry. *)
Lemma unpack_files_loop_Ok X pspJSON psp folder original symbols :
  (forall s, In s symbols ->
     exists name packed content,
       Dict.get psp s = Some (VStr name) /\
       getitem pspJSON name = Ok (VStr packed) /\
       decode_psp X packed = Some content /\
       original name = Some content) ->
  forall names w,
    restored folder original names w ->
    exists w',
      unpack_files_loop X pspJSON psp folder symbols w = (Ok tt, w') /\
      restored folder original names w' /\
      (forall s name, In s symbols -> Dict.get psp s = Some (VStr name) ->
                      Dict.get (fs w') (path_join folder name) = original name).
Proof.
  induction symbols as [| s rest IH]; intros Hall names w Hr.
  - exists w. split; [reflexivity |]. split; [exact Hr |]. intros s name [].
  - destruct (Hall s (or_introl eq_refl))
      as (name & packed & content & Hp & Hg & Hd & Ho).
    unfold decode_psp in Hd.
    destruct (b64decode X packed) as [raw |] eqn:E64; [| discriminate Hd].
    destruct (bz2_decompress X raw) as [b |] eqn:Ebz; [| discriminate Hd].
    set (w1 := with_event (EWrite (path_join folder name) content)
                 (with_fs (Dict.set (Dict.set (fs w) (path_join folder name) "")
                                    (path_join folder name) content) w)).
    assert (R1 : restored folder original (name :: names) w1).
    { intros n Hn. unfold w1. simpl.
      destruct (string_dec n name) as [-> | Hne].
      - rewrite dict_get_set_same. rewrite Ho. split; [reflexivity | discriminate].
      - rewrite !dict_get_set_other
          by (intro E; apply Hne; apply (path_join_inj _ _ _ E)).
        destruct Hn as [E | Hn]; [congruence |]. apply (Hr n Hn). }
    destruct (IH (fun s' Hs' => Hall s' (or_intror Hs')) (name :: names) w1 R1)
      as (w' & Hrun & Hr' & Hw').
    exists w'. split.
    + simpl. unfold bind, of_option, lift, ret. rewrite Hp. simpl.
      rewrite Hg. simpl. rewrite E64, Ebz. simpl.
      rewrite Hd. exact Hrun.
    + split.
      * intros n Hn. apply Hr'. right. exact Hn.
      * intros s' name' [<- | Hs'] Hp'.
        -- rewrite Hp in Hp'. injection Hp' as <-.
           apply (Hr' name). left. reflexivity.
        -- apply (Hw' s' name' Hs' Hp').
Qed.

Lemma table_filename_functional psp_dict s name name' :
  table_filename psp_dict s name -> table_filename psp_dict s name' ->
  name = name'.
Proof. intros (e & H1 & H2) (e' & H1' & H2'). congruence. Qed.

(** X4: if the three codecs undo one another, the loop of [_unpackPsps] that
    writes the files (lines 265-271) undoes [packPsps]: run on the archive
    that [packPsps] wrote and on a mapping that gives the symbols the file
    names of the catalogue, it completes, and every file it writes into
    [folder] has the text the file of that name had in the asset directory
    when it was packed. *)
Theorem unpacking_loop_restores_packed_files X pspJsonOut w u w' :
  (forall b s, utf8_decode X (b64encode X b) = Some s ->
               b64decode X s = Some b) ->
  (forall b, bz2_decompress X (bz2_compress X b) = Some b) ->
  (forall s, utf8_decode X (utf8_encode X s) = Some s) ->
  packPsps X pspJsonOut w = (Ok u, w') ->
  exists dir t text inJSON elements outJSON,
    _psp_directory (self w) = Some dir /\
    _psp_cutoff_table (self w) = Some t /\
    Dict.get (fs w) (path_join dir t) = Some text /\
    json_loads X text = Some inJSON /\
    iter_keys inJSON = Ok elements /\
    Dict.get (fs w') pspJsonOut = Some (json_dumps X (VDict outJSON)) /\
    forall psp folder symbols w2,
      (forall s, In s symbols ->
         In s elements /\
         exists name, table_filename inJSON s name /\
                      Dict.get psp s = Some (VStr name)) ->
      exists w3,
        unpack_files_loop X (VDict outJSON) psp folder symbols w2
        = (Ok tt, w3) /\
        forall s name, In s symbols -> Dict.get psp s = Some (VStr name) ->
          Dict.get (fs w3) (path_join folder name)
          = Dict.get (fs w) (path_join dir name) /\
          Dict.get (fs w) (path_join dir name) <> None.
Proof.
  intros H64 Hbz Hutf H.
  destruct (packPsps_Ok _ _ _ _ _ H)
    as (dir & t & text & inJSON & elements & outJSON
        & H1 & H2 & H3 & H4 & H5 & H6 & H7 & _).
  exists dir, t, text, inJSON, elements, outJSON.
  repeat (split; [assumption |]).
  intros psp folder symbols w2 Hs.
  assert (Hall : forall s, In s symbols ->
            exists name packed content,
              Dict.get psp s = Some (VStr name) /\
              getitem (VDict outJSON) name = Ok (VStr packed) /\
              decode_psp X packed = Some content /\
              Dict.get (fs w) (path_join dir name) = Some content).
  { intros s Hin. destruct (Hs s Hin) as (He & name & Hn & Hp).
    destruct (H7 s He) as (name' & content & packed & Hn' & Hf & Hen & Ho).
    rewrite <- (table_filename_functional _ _ _ _ Hn Hn') in *.
    exists name, packed, content. split; [exact Hp |].
    split; [simpl; rewrite Ho; reflexivity |]. split; [| exact Hf].
    unfold encode_psp in Hen. unfold decode_psp.
    rewrite (H64 _ _ Hen), Hbz. apply Hutf. }
  destruct (unpack_files_loop_Ok X (VDict outJSON) psp folder
              (fun name => Dict.get (fs w) (path_join dir name))
              symbols Hall [] w2) as (w3 & Hrun & _ & Hw3).
  { intros n []. }
  exists w3. split; [exact Hrun |].
  intros s name Hin Hp. split; [apply (Hw3 s name Hin Hp) |].
  destruct (Hall s Hin) as (name' & packed & content & Hp' & _ & _ & Hf).
  rewrite Hp in Hp'. injection Hp' as <-. rewrite Hf. discriminate.
Qed.

Lemma example_codecs :
  (forall b s, utf8_decode example_externals (b64encode example_externals b)
               = Some s ->
               b64decode example_externals s = Some b) /\
  (forall b, bz2_decompress example_externals (bz2_compress example_externals b)
             = Some b) /\
  (forall s, utf8_decode example_externals (utf8_encode example_externals s)
             = Some s).
Proof.
  split; [| split].
  - intros b s H. simpl in *. injection H as <-.
    rewrite list_byte_of_string_of_list_byte. reflexivity.
  - reflexivity.
  - intro s. simpl. rewrite string_of_list_byte_of_string. reflexivity.
Defined.

Lemma unpacking_loop_restores_packed_files_witness :
  exists w' outJSON w3,
    packPsps example_externals "psp/psp.json" w_direct = (Ok tt, w') /\
    unpack_files_loop example_externals (VDict outJSON)
      [("Ti", VStr "ti.upf"); ("O", VStr "o.upf")] "out" ["Ti"; "O"] w'
    = (Ok tt, w3) /\
    Dict.get (fs w3) (path_join "out" "ti.upf") = Some "TI" /\
    Dict.get (fs w3) (path_join "out" "o.upf") = Some "OX".
Proof.
  assert (H : packPsps example_externals "psp/psp.json" w_direct
              = (Ok tt, snd (packPsps example_externals "psp/psp.json"
                               w_direct)))
    by (vm_compute; reflexivity).
  destruct (unpacking_loop_restores_packed_files example_externals
              "psp/psp.json" w_direct tt _
              (proj1 example_codecs) (proj1 (proj2 example_codecs))
              (proj2 (proj2 example_codecs)) H)
    as (dir & t & text & inJSON & elements & outJSON
        & H1 & H2 & H3 & H4 & H5 & H6 & H7).
  assert (Hdir : dir = "psp") by (vm_compute in H1; congruence). subst dir.
  assert (Ht : t = "table.json") by (vm_compute in H2; congruence). subst t.
  assert (Htext : text = "<table>") by (vm_compute in H3; congruence).
  subst text.
  assert (Hj : inJSON = example_table)
    by (vm_compute in H4; injection H4 as <-; reflexivity).
  subst inJSON.
  assert (He : elements = ["Ti"; "O"])
    by (vm_compute in H5; injection H5 as <-; reflexivity).
  subst elements.
  destruct (H7 [("Ti", VStr "ti.upf"); ("O", VStr "o.upf")] "out" ["Ti"; "O"]
              (snd (packPsps example_externals "psp/psp.json" w_direct)))
    as (w3 & Hrun & Hw3).
  { intros s [<- | [<- | []]].
    - split; [left; reflexivity |]. exists "ti.upf".
      split; [eexists; split; reflexivity | reflexivity].
    - split; [right; left; reflexivity |]. exists "o.upf".
      split; [eexists; split; reflexivity | reflexivity]. }
  exists (snd (packPsps example_externals "psp/psp.json" w_direct)),
    outJSON, w3.
  split; [exact H |]. split; [exact Hrun |]. split.
  - destruct (Hw3 "Ti" "ti.upf" (or_introl eq_refl) eq_refl) as [E _].
    rewrite E. reflexivity.
  - destruct (Hw3 "O" "o.upf" (or_intror (or_introl eq_refl)) eq_refl)
      as [E _].
    rewrite E. reflexivity.
Defined.

Lemma packPsps_stores_every_file_witness :
  exists w' outJSON packed,
    packPsps example_externals "psp/psp.json" w_direct = (Ok tt, w') /\
    Dict.get (fs w') "psp/psp.json"
    = Some (json_dumps example_externals (VDict outJSON)) /\
    encode_psp example_externals "TI" = Some packed /\
    Dict.get outJSON "ti.upf" = Some (VStr packed).
Proof.
  assert (H : packPsps example_externals "psp/psp.json" w_direct
              = (Ok tt, snd (packPsps example_externals "psp/psp.json"
                               w_direct)))
    by (vm_compute; reflexivity).
  destruct (packPsps_stores_every_file example_externals "psp/psp.json"
              w_direct tt _ H)
    as (dir & t & text & inJSON & elements & outJSON
        & H1 & H2 & H3 & H4 & H5 & H6 & H7 & _).
  assert (Hdir : dir = "psp") by (vm_compute in H1; congruence). subst dir.
  assert (Ht : t = "table.json") by (vm_compute in H2; congruence). subst t.
  assert (Htext : text = "<table>") by (vm_compute in H3; congruence).
  subst text.
  assert (Hj : inJSON = example_table)
    by (vm_compute in H4; injection H4 as <-; reflexivity).
  subst inJSON.
  assert (He : elements = ["Ti"; "O"])
    by (vm_compute in H5; injection H5 as <-; reflexivity).
  subst elements.
  destruct (H7 "Ti" (or_introl eq_refl))
    as (name & content & packed & (entry & Hn1 & Hn2) & Hf & Hen & Ho).
  assert (Hname : name = "ti.upf").
  { vm_compute in Hn1. injection Hn1 as <-. vm_compute in Hn2. congruence. }
  subst name.
  assert (Hc : content = "TI") by (vm_compute in Hf; congruence).
  subst content.
  exists (snd (packPsps example_externals "psp/psp.json" w_direct)),
    outJSON, packed.
  split; [exact H |]. split; [exact H6 |]. split; [exact Hen | exact Ho].
Defined.

(** ** The lines of a deck *)

Tactic Notation "lifted" hyp(H) "as" ident(a) ident(E) :=
  let w1 := fresh "w" in
  let E0 := fresh "E" in
  apply bind_Ok in H; destruct H as (a & w1 & E0 & H);
  apply lift_Ok in E0; destruct E0 as [E ->].



(** A deck that was produced, line by line. *)
Lemma write_xspectra_in_Ok X mode iabs dirs xkvec w deck w' :
  _write_xspectra_in X mode iabs dirs xkvec w = (Ok deck, w') ->
  exists d0 d1 d2 xk element edge xcoordcrys terminator cut_occ_states
         kpts shift xniter xerror xcheck_conv xnepoint xemin xemax
         cut_desmooth,
    list_getitem dirs 0 = Ok d0 /\
    list_getitem dirs 1 = Ok d1 /\
    list_getitem dirs 2 = Ok d2 /\
    xkvec_lines X mode xkvec = Ok xk /\
    card ["XS"; "element"] w = Ok element /\
    card ["XS"; "input_xspectra"; "edge"] w = Ok (VStr edge) /\
    card ["XS"; "kpts"; "kpts"] w = Ok (VStr kpts) /\
    card ["XS"; "kpts"; "shift"] w = Ok (VStr shift) /\
    deck = join_lines
             (deck_lines X mode iabs d0 d1 d2 xk (py_str X element) edge
                xcoordcrys terminator cut_occ_states kpts shift xniter xerror
                xcheck_conv xnepoint xemin xemax cut_desmooth)
           ++ newline /\
    w' = w.
Proof.
  intro H. unfold _write_xspectra_in in H.
  step H as XS w1 E1. apply cards_get_Ok in E1. destruct E1 as [Exs ->].
  lifted H as e Ee.
  lifted H as ix Eix.
  lifted H as edge0 Eedge0. lifted H as edge Eedge.
  lifted H as xniter Exniter.
  lifted H as xerror Exerror.
  lifted H as xcc0 Excc0. lifted H as xcc Excc.
  lifted H as xcheck Excheck.
  lifted H as d0 Ed0. lifted H as d1 Ed1. lifted H as d2 Ed2.
  step H as inp w2 Einp.
  lifted H as plot Eplot.
  lifted H as xnepoint Exnepoint.
  lifted H as xemin Exemin.
  lifted H as xemax Exemax.
  lifted H as term0 Eterm0. lifted H as term Eterm.
  lifted H as cos0 Ecos0. lifted H as cos Ecos.
  lifted H as cut_occ Ecut.
  lifted H as desmooth Edes.
  lifted H as kpts Ekpts.
  lifted H as k0 Ek0. lifted H as k Ek.
  lifted H as shift0 Eshift0. lifted H as shift Eshift.
  apply ret_Ok in H. destruct H as [-> ->].
  apply as_str_Ok in Eedge, Ek, Eshift. subst edge0 k0 shift0.
  assert (Hxk : exists xk, xkvec_lines X mode xkvec = Ok xk /\
                           w2 = w /\
                           inp = app [ "&input_xspectra";
      "    calculation = 'xanes_" ++ mode ++ "'";
      "    edge = '" ++ edge ++ "'";
      "    prefix = 'pwscf'";
      "    outdir = '../'";
      "    xniter = " ++ py_str X xniter;
      "    xiabs = " ++ str_nat iabs;
      "    xerror = " ++ py_str X xerror;
      "    xcoordcrys = " ++ xcc;
      "    xcheck_conv = " ++ py_str X xcheck;
      "    xepsilon(1) = " ++ str_Z d0;
      "    xepsilon(2) = " ++ str_Z d1;
      "    xepsilon(3) = " ++ str_Z d2 ] xk).
  { unfold xkvec_lines. destruct (String.eqb mode "quadrupole").
    - lifted Einp as q0 Eq0. lifted Einp as q1 Eq1. lifted Einp as q2 Eq2.
      apply ret_Ok in Einp. destruct Einp as [-> ->].
      rewrite Eq0, Eq1, Eq2. eexists. split; [reflexivity |].
      split; reflexivity.
    - apply ret_Ok in Einp. destruct Einp as [-> ->].
      exists []. split; [reflexivity |]. split; [reflexivity |].
      rewrite app_nil_r. reflexivity. }
  destruct Hxk as (xk & Hxk & -> & ->).
  exists d0, d1, d2, xk, e, edge, xcc, term, cos, k, shift, xniter, xerror,
    xcheck, xnepoint, xemin, xemax, desmooth.
  split; [exact Ed0 |]. split; [exact Ed1 |]. split; [exact Ed2 |].
  split; [exact Hxk |].
  unfold card. simpl. simpl in Exs.
  destruct (getitem (_cards (self w)) "XS") as [xs |]; [| discriminate Exs].
  injection Exs as ->.
  rewrite Ee, Eix, Eedge0, Ekpts, Ek0, Eshift0.
  repeat (split; [reflexivity |]). reflexivity.
Qed.

(** X5: the [xkvec] argument reaches the deck in a quadrupole calculation
    only.  For any other mode the result does not depend on it and a deck has
    thirty lines; for ["quadrupole"] a deck has thirty-three, the three
    [xkvec] lines, written with ten decimals, following the polarisation. *)
Theorem xkvec_lines_only_for_quadrupole X mode iabs dirs xkvec w :
  (String.eqb mode "quadrupole" = false ->
   (forall xkvec', _write_xspectra_in X mode iabs dirs xkvec' w
                   = _write_xspectra_in X mode iabs dirs xkvec w) /\
   (forall deck w', _write_xspectra_in X mode iabs dirs xkvec w = (Ok deck, w') ->
      exists lines, deck = join_lines lines ++ newline /\
                    List.length lines = 30%nat)) /\
  (String.eqb mode "quadrupole" = true ->
   forall deck w', _write_xspectra_in X mode iabs dirs xkvec w = (Ok deck, w') ->
     exists lines k0 k1 k2,
       deck = join_lines lines ++ newline /\
       List.length lines = 33%nat /\
       list_getitem xkvec 0 = Ok k0 /\
       list_getitem xkvec 1 = Ok k1 /\
       list_getitem xkvec 2 = Ok k2 /\
       nth_error lines 13 = Some ("    xkvec(1) = " ++ fmt_10f X k0) /\
       nth_error lines 14 = Some ("    xkvec(2) = " ++ fmt_10f X k1) /\
       nth_error lines 15 = Some ("    xkvec(3) = " ++ fmt_10f X k2)).
Proof.
  split; intro Hm.
  - split.
    + intro xkvec'. unfold _write_xspectra_in. rewrite Hm. reflexivity.
    + intros deck w' H. apply write_xspectra_in_Ok in H.
      destruct H as (d0 & d1 & d2 & xk & element & edge & xcc & term & cos
                     & kpts & shift & xniter & xerror & xcheck & xnepoint
                     & xemin & xemax & desmooth
                     & _ & _ & _ & Hxk & _ & _ & _ & _ & -> & _).
      unfold xkvec_lines in Hxk. rewrite Hm in Hxk. injection Hxk as <-.
      eexists. split; reflexivity.
  - intros deck w' H. apply write_xspectra_in_Ok in H.
    destruct H as (d0 & d1 & d2 & xk & element & edge & xcc & term & cos
                   & kpts & shift & xniter & xerror & xcheck & xnepoint
                   & xemin & xemax & desmooth
                   & _ & _ & _ & Hxk & _ & _ & _ & _ & -> & _).
    unfold xkvec_lines in Hxk. rewrite Hm in Hxk.
    destruct (list_getitem xkvec 0) as [k0 |]; [| discriminate Hxk].
    destruct (list_getitem xkvec 1) as [k1 |]; [| discriminate Hxk].
    destruct (list_getitem xkvec 2) as [k2 |]; [| discriminate Hxk].
    injection Hxk as <-.
    eexists. exists k0, k1, k2. repeat split; reflexivity.
Qed.

(** X6: the deck does not read the [prefix] and [outdir] entries of the cards:
    whatever is assigned to either of them, [_write_xspectra_in] gives the
    same result, and every deck has the lines [prefix = 'pwscf'] and
    [outdir = '../']. *)
Theorem deck_ignores_prefix_and_outdir X mode iabs dirs xkvec key v w u w1 :
  key = "prefix" \/ key = "outdir" ->
  cards_set ["XS"; "input_xspectra"] key v w = (Ok u, w1) ->
  fst (_write_xspectra_in X mode iabs dirs xkvec w1)
  = fst (_write_xspectra_in X mode iabs dirs xkvec w) /\
  forall deck, fst (_write_xspectra_in X mode iabs dirs xkvec w) = Ok deck ->
    exists lines, deck = join_lines lines ++ newline /\
                  nth_error lines 3 = Some "    prefix = 'pwscf'" /\
                  nth_error lines 4 = Some "    outdir = '../'".
Proof.
  intros Hkey H. split.
  - apply cards_set_Ok in H. destruct H as (c & Hc & ->).
    simpl in Hc.
    destruct (getitem (_cards (self w)) "XS") as [xs | e] eqn:Exs;
      [| discriminate Hc].
    destruct (getitem xs "input_xspectra") as [ix | e] eqn:Eix;
      [| discriminate Hc].
    destruct (setitem ix key v) as [ix' | e] eqn:Sx; [| discriminate Hc].
    destruct (setitem xs "input_xspectra" ix') as [xs' | e] eqn:Sxs;
      [| discriminate Hc].
    assert (G0 : getitem c "XS" = Ok xs')
      by apply (getitem_setitem_same _ _ _ _ Hc).
    assert (G1 : getitem xs' "input_xspectra" = Ok ix')
      by apply (getitem_setitem_same _ _ _ _ Sxs).
    assert (G2 : forall k, k <> "input_xspectra" ->
                           getitem xs' k = getitem xs k)
      by (intros k Hk; apply (getitem_setitem_other _ _ _ _ k Sxs Hk)).
    assert (G3 : forall k, k <> key -> getitem ix' k = getitem ix k)
      by (intros k Hk; apply (getitem_setitem_other _ _ _ _ k Sx Hk)).
    unfold _write_xspectra_in, bind, cards_get, lift.
    cbn [self with_self with_cards _cards get_path].
    rewrite G0, Exs.
    rewrite !(G2 "element"), !(G2 "plot"), !(G2 "cut_occ"), !(G2 "kpts")
      by discriminate.
    rewrite G1, Eix.
    rewrite !(G3 "edge"), !(G3 "xniter"), !(G3 "xerror"), !(G3 "xcoordcrys"),
      !(G3 "xcheck_conv") by (destruct Hkey as [-> | ->]; discriminate).
    repeat first
      [ reflexivity
      | match goal with
        | |- context [if ?b then _ else _] => destruct b
        end
      | match goal with
        | |- context [match ?x with Ok _ => _ | Raise _ => _ end] =>
            destruct x
        end ].
  - intros deck Hd.
    destruct (_write_xspectra_in X mode iabs dirs xkvec w)
      as [r w2] eqn:E. simpl in Hd. subst r.
    apply write_xspectra_in_Ok in E.
    destruct E as (d0 & d1 & d2 & xk & element & edge & xcc & term & cos
                   & kpts & shift & xniter & xerror & xcheck & xnepoint
                   & xemin & xemax & desmooth
                   & _ & _ & _ & _ & _ & _ & _ & _ & -> & _).
    eexists. split; [reflexivity |]. split; reflexivity.
Qed.

(** ** The decks of the photons *)

Section Visits.

Context (X : externals) (R : world -> world -> Prop)
        {R_PreOrder : RelationClasses.PreOrder R}.

Hypothesis V_mkdir : forall p, stable R (mkdir p).
Hypothesis V_open_w : forall p, stable R (open_w p).
Hypothesis V_f_write : forall p s, stable R (f_write p s).
Hypothesis V_structure_setitem : forall i l, stable R (structure_setitem i l).
Hypothesis V_pseudo_dir :
  stable R (cards_set ["QE"; "control"] "pseudo_dir" (VStr "../")).

(** Every element of the list has had its turn, in a world that [R] relates
    to the one the loop started from. *)
Lemma for_each_visits {A} (body : A -> M unit) (l : list A) :
  (forall x, stable R (body x)) ->
  (forall x, stable (extends_by anything) (body x)) ->
  forall w u w', for_each l body w = (Ok u, w') ->
  forall x, In x l ->
    exists wa wb, body x wa = (Ok tt, wb) /\
                  R w wa /\
                  extends_by anything w wa /\ extends_by anything wb w'.
Proof.
  intros Hb Ha. induction l as [| y l IH]; intros w u w' H x Hx; [destruct Hx |].
  simpl in H. step H as u1 w1 E1. destruct u1.
  destruct Hx as [-> | Hx].
  - exists w, w1. split; [exact E1 |]. split; [reflexivity |].
    split; [reflexivity |].
    apply (stable_Ok _ _ _ _ _ (stable_for_each _ _ _ Ha) H).
  - destruct (IH _ _ _ H x Hx) as (wa & wb & Hab & Ra & Ta & Tb).
    exists wa, wb. split; [exact Hab |].
    split; [etransitivity; [| exact Ra]; apply (stable_Ok _ _ _ _ _ (Hb y) E1) |].
    split; [| exact Tb].
    etransitivity; [| exact Ta]. apply (stable_Ok _ _ _ _ _ (Ha y) E1).
Qed.

(** The deck of the [m]-th photon: rendered in a world that [R] relates to
    the one the loop started from, and written to its [xanes.in]. *)
Lemma photon_loop_visits path iabs total l : forall n w u w',
  photon_loop X path iabs total l n w = (Ok u, w') ->
  forall m ph, nth_error l m = Some ph ->
    exists i deck wq,
      iabs = Some i /\
      R w wq /\
      _write_xspectra_in X "dipole" i (firstn 3 (dipole ph))
                         (firstn 3 (dipole ph)) wq = (Ok deck, wq) /\
      adds (EWrite (path_join (path_join path ("dipole" ++ str_nat (n + m + 1)))
                              "xanes.in") deck) w w'.
Proof.
  induction l as [| ph0 rest IH]; intros n w u w' H m ph Hm.
  - destruct m; discriminate Hm.
  - simpl in H.
    step H as d w1 E1. apply lift_Ok in E1. destruct E1 as [Ed ->].
    step H as weight w2 E2. apply lift_Ok in E2. destruct E2 as [Ew ->].
    step H as u3 w3 E3. grows E3 as T3.
    pose proof (stable_Ok _ _ _ _ _ (V_mkdir _) E3) as R3.
    step H as u4 w4 E4. grows E4 as T4.
    pose proof (stable_Ok _ _ _ _ _ (V_open_w _) E4) as R4.
    step H as i w5 E5. apply of_option_Ok in E5. destruct E5 as [Ei ->].
    step H as deck w6 E6.
    pose proof (reader_Ok _ _ _ _ (reader_write_xspectra_in _ _ _ _ _) E6)
      as ->.
    step H as u7 w7 E7. pose proof (f_write_adds _ _ _ _ _ E7) as A7.
    grows E7 as T7.
    pose proof (stable_Ok _ _ _ _ _ (V_f_write _ _) E7) as R7.
    step H as u8 w8 E8. grows E8 as T8.
    pose proof (stable_Ok _ _ _ _ _ (V_open_w _) E8) as R8.
    step H as u9 w9 E9. grows E9 as T9.
    pose proof (stable_Ok _ _ _ _ _ (V_f_write _ _) E9) as R9.
    pose proof (stable_Ok _ _ _ _ _ (photon_loop_anything _ _ _ _ _ _) H)
      as T10.
    assert (T04 : extends_by anything w w4) by (etransitivity; eassumption).
    assert (R04 : R w w4) by (etransitivity; eassumption).
    destruct m as [| m'].
    + injection Hm as <-. exists i, deck, w4.
      split; [exact Ei |]. split; [exact R04 |]. split; [exact E6 |].
      replace (n + 0 + 1)%nat with (n + 1)%nat by lia.
      apply (then_adds _ _ _ _ T04).
      apply (adds_then _ _ _ _ A7).
      etransitivity; [exact T8 |]. etransitivity; [exact T9 | exact T10].
    + simpl in Hm.
      destruct (IH _ _ _ _ H m' ph Hm) as (i' & deck' & wq & H1 & H2 & H3 & H4).
      exists i', deck', wq.
      replace (n + S m' + 1)%nat with (n + 1 + m' + 1)%nat by lia.
      split; [exact H1 |].
      split.
      { etransitivity; [exact R04 |]. etransitivity; [exact R7 |].
        etransitivity; [exact R8 |]. etransitivity; [exact R9 | exact H2]. }
      split; [exact H3 |].
      assert (T09 : extends_by anything w w9).
      { etransitivity; [exact T04 |]. etransitivity; [exact T7 |].
        etransitivity; [exact T8 | exact T9]. }
      apply (then_adds _ _ _ _ T09). exact H4.
Qed.

Lemma site_body_visits target element im k iabs site specie w u w' :
  site_body X target element im k iabs (site, specie) w = (Ok u, w') ->
  forall n axis, In (n, axis) axes ->
    exists i deck wq,
      iabs = Some i /\
      R w wq /\
      _write_xspectra_in X "dipole" i
        [fst (fst axis); snd (fst axis); snd axis]
        [fst (fst axis); snd (fst axis); snd axis] wq = (Ok deck, wq) /\
      adds (EWrite (path_join (dipole_dir target site specie n) "xanes.in")
                   deck) w w'.
Proof.
  intros H n axis Hn. unfold site_body in H.
  step H as u1 w1 E1. grows E1 as T1.
  pose proof (stable_Ok _ _ _ _ _ (V_mkdir _) E1) as R1.
  step H as i1 w2 E2. apply lift_Ok in E2. destruct E2 as [_ ->].
  step H as u3 w3 E3. grows E3 as T3.
  pose proof (stable_Ok _ _ _ _ _ (V_structure_setitem _ _) E3) as R3.
  step H as u4 w4 E4. grows E4 as T4.
  pose proof (stable_Ok _ _ _ _ _ V_pseudo_dir E4) as R4.
  step H as es w5 E5.
  pose proof (reader_Ok _ _ _ _ (reader_pwinput _ _) E5) as ->.
  step H as u6 w6 E6. grows E6 as T6.
  pose proof (stable_Ok _ _ _ _ _ (V_open_w _) E6) as R6.
  step H as u7 w7 E7. grows E7 as T7.
  pose proof (stable_Ok _ _ _ _ _ (V_f_write _ _) E7) as R7.
  step H as i2 w8 E8. apply lift_Ok in E8. destruct E8 as [_ ->].
  step H as u9 w9 E9. grows E9 as T9.
  pose proof (stable_Ok _ _ _ _ _ (V_structure_setitem _ _) E9) as R9.
  step H as total w10 E10. apply lift_Ok in E10. destruct E10 as [_ ->].
  assert (T : extends_by anything w w9).
  { etransitivity; [exact T1 |]. etransitivity; [exact T3 |].
    etransitivity; [exact T4 |]. etransitivity; [exact T6 |].
    etransitivity; [exact T7 | exact T9]. }
  assert (R09 : R w w9).
  { etransitivity; [exact R1 |]. etransitivity; [exact R3 |].
    etransitivity; [exact R4 |]. etransitivity; [exact R6 |].
    etransitivity; [exact R7 | exact R9]. }
  assert (Hm : exists m ph, nth_error photons m = Some ph /\
                            n = (0 + m + 1)%nat /\
                            firstn 3 (dipole ph)
                            = [fst (fst axis); snd (fst axis); snd axis]).
  { destruct Hn as [E | [E | [E | []]]]; injection E as <- <-.
    - exists 0%nat. eexists. repeat split; reflexivity.
    - exists 1%nat. eexists. repeat split; reflexivity.
    - exists 2%nat. eexists. repeat split; reflexivity. }
  destruct Hm as (m & ph & Hph & -> & Hax).
  destruct (photon_loop_visits _ _ _ _ _ _ _ _ H m ph Hph)
    as (i & deck & wq & Hi & Rq & Hdeck & A).
  rewrite Hax in Hdeck.
  exists i, deck, wq.
  split; [exact Hi |]. split; [etransitivity; [exact R09 | exact Rq] |].
  split; [exact Hdeck |].
  apply (then_adds _ _ _ _ T). exact A.
Qed.

End Visits.

Ltac deck_cards_stable :=
  first [ exact _
        | intros; unfold deck_cards; intro;
          unfold same;
          repeat match goal with
                 | |- (_, _) = (_, _) => f_equal
                 end;
          apply cards_set_card; reflexivity
        | prim_stable ].

Lemma site_body_deck_cards X target element im k iabs ss :
  stable (same deck_cards) (site_body X target element im k iabs ss).
Proof. apply fine_site_body; deck_cards_stable. Qed.

(** X17: in a completed call every requested site gets, in each of its three
    photon directories, a deck [xanes.in] of thirty lines for the calculation
    [xanes_dipole], with the edge of the instance, the polarisation along the
    photon's axis, the core wavefunction [../../Core_{element}.wfc] of the
    absorbing element, and the k-point mesh of the structure followed by the
    shift of the cards. *)
Theorem dipole_decks X target sites im w st w' :
  write X target sites im w = (Ok st, w') ->
  exists specs element,
    labels_at (species (structure_sc w)) im sites = Ok specs /\
    list_getitem specs 0 = Ok element /\
    forall site specie n axis,
      In (site, specie) (combine sites specs) -> In (n, axis) axes ->
      exists lines edge shift,
        adds (EWrite (path_join (dipole_dir target site specie n) "xanes.in")
                     (join_lines lines ++ newline)) w w' /\
        List.length lines = 30%nat /\
        nth_error lines 1 = Some "    calculation = 'xanes_dipole'" /\
        _edge (self w) = VStr edge /\
        nth_error lines 2 = Some ("    edge = '" ++ edge ++ "'") /\
        nth_error lines 10
        = Some ("    xepsilon(1) = " ++ str_Z (fst (fst axis))) /\
        nth_error lines 11
        = Some ("    xepsilon(2) = " ++ str_Z (snd (fst axis))) /\
        nth_error lines 12 = Some ("    xepsilon(3) = " ++ str_Z (snd axis)) /\
        nth_error lines 24
        = Some ("    filecore = '../../Core_" ++ element ++ ".wfc'") /\
        card ["XS"; "kpts"; "shift"] w = Ok (VStr shift) /\
        nth_error lines 29
        = Some (grid_text (_kpoints (self w) (structure_sc w)) ++ " " ++ shift).
Proof.
  intro H. pose proof H as Hw. apply write_Ok in H.
  destruct H as (w0 & symbols & specs & element & k & w1 & w2 & w3 & w4 & w5
                 & w6 & iabs & E0 & E1 & E2 & E3 & E4 & E5 & E6 & E7 & E8).
  destruct (prepare_cards_Ok _ _ _ _ _ _ _ _ _ E1) as (_ & Hspecs & Hel).
  destruct (prepare_cards_cards _ _ _ _ _ _ _ _ _ E1)
    as (C1 & C2 & C3 & _ & _).
  assert (S0 : self w0 = self w /\ structure_sc w0 = structure_sc w).
  { unfold fresh_frame in E0. injection E0 as <-. split; reflexivity. }
  destruct S0 as [S0 S0']. rewrite S0, S0' in *.
  exists specs, element. split; [exact Hspecs |]. split; [exact Hel |].
  assert (D6 : deck_cards w6 = deck_cards w1).
  { apply (fine_middle X target (same deck_cards)) with
      (symbols := symbols) (element := element) (k := k) (w2 := w2)
      (w3 := w3) (w4 := w4) (w5 := w5);
      first [assumption | deck_cards_stable]. }
  assert (T6 : extends_by anything w w6).
  { etransitivity.
    - apply (fine_head X target (extends_by anything)) with
        (sites := sites) (im := im) (prepared := (symbols, specs, element, k))
        (w0 := w0) (w1 := w1) (w2 := w2) (w3 := w3) (w4 := w4);
        first [assumption | writers_any].
    - etransitivity.
      + refine (stable_Ok _ _ _ _ _ _ E5).
        apply stable_write_ground_state; [exact _ | any_stable ..].
      + refine (stable_Ok _ _ _ _ _ _ E6).
        apply stable_inject_core_hole; [exact _ | any_stable ..]. }
  intros site specie n axis Hin Hn.
  destruct (for_each_visits (same deck_cards) _ _
              (site_body_deck_cards X target element im k iabs)
              (site_body_anything X target element im k iabs)
              _ _ _ E8 _ Hin) as (wa & wb & Hab & Ra & Ta & Tb).
  destruct (site_body_visits X (same deck_cards)
              ltac:(deck_cards_stable) ltac:(deck_cards_stable)
              ltac:(deck_cards_stable) ltac:(deck_cards_stable)
              ltac:(deck_cards_stable)
              _ _ _ _ _ _ _ _ _ _ Hab n axis Hn)
    as (i & deck & wq & _ & Rq & Hdeck & A).
  assert (Dq : deck_cards wq = deck_cards w1).
  { unfold same in Ra, Rq. congruence. }
  apply write_xspectra_in_Ok in Hdeck.
  destruct Hdeck as (d0 & d1 & d2 & xk & e & edge & xcc & term & cos
                     & kpts & shift & xniter & xerror & xcheck & xnepoint
                     & xemin & xemax & desmooth
                     & Hd0 & Hd1 & Hd2 & Hxk & He & Hedge & Hk & Hshift
                     & -> & _).
  unfold deck_cards in Dq. injection Dq as Q1 Q2 Q3 Q4.
  rewrite He, C1 in Q1. injection Q1 as ->.
  rewrite Hedge, C2 in Q2. injection Q2 as Q2.
  rewrite Hk, C3 in Q3. injection Q3 as ->.
  injection Hd0 as <-. injection Hd1 as <-. injection Hd2 as <-.
  injection Hxk as <-.
  assert (Hsh : card ["XS"; "kpts"; "shift"] w = Ok (VStr shift)).
  { rewrite <- Hshift, Q4.
    transitivity (card ["XS"; "kpts"; "shift"] w0).
    - unfold card. rewrite S0. reflexivity.
    - symmetry. refine (stable_Ok (same (card _)) _ _ _ _ _ E1).
      apply (fine_prepare_cards target); card_same. }
  eexists. exists edge, shift.
  split.
  { apply (then_adds _ _ wa _); [etransitivity; [exact T6 | exact Ta] |].
    apply (adds_then _ _ _ _ A Tb). }
  split; [reflexivity |]. split; [reflexivity |].
  split; [symmetry; exact Q2 |].
  repeat (split; [reflexivity |]).
  split; [exact Hsh |]. reflexivity.
Qed.

(** ** The exception that never leaves [write] *)

Lemma never_bind e {A B} (m : M A) (k : A -> M B) :
  never e m -> (forall a, never e (k a)) -> never e (bind m k).
Proof.
  intros Hm Hk w. unfold bind. specialize (Hm w).
  destruct (m w) as [[a | e'] w1]; simpl in *.
  - apply Hk.
  - intro H. apply Hm. injection H as ->. reflexivity.
Qed.

Lemma never_ret e {A} (a : A) : never e (ret a).
Proof. intros w H. discriminate H. Qed.

Lemma never_lift e {A} (r : result A) : r <> Raise e -> never e (lift r).
Proof. intros H w. exact H. Qed.

Lemma never_of_option e e' {A} (o : option A) :
  e' <> e -> never e (of_option o e').
Proof.
  intros Hne w. destruct o; simpl; [discriminate |].
  intro H. injection H as H. exact (Hne H).
Qed.

(** The handler's exception is caught. *)
Lemma never_try_caught e {A} (m h : M A) :
  never e h -> never e (try_except m e h).
Proof.
  intros Hh w. unfold try_except.
  destruct (m w) as [[a | e'] w1] eqn:E; simpl; [discriminate |].
  destruct (exn_eqb e' e) eqn:Ee.
  - apply Hh.
  - simpl. intro H. injection H as ->. destruct e; discriminate Ee.
Qed.

Lemma never_for_each e {A} (l : list A) (body : A -> M unit) :
  (forall x, never e (body x)) -> never e (for_each l body).
Proof.
  intro Hb. induction l as [| x l IH]; simpl.
  - apply never_ret.
  - apply never_bind; [apply Hb | intro; exact IH].
Qed.

Lemma getitem_quiet v k : getitem v k <> Raise FileNotFoundError.
Proof. destruct v; simpl; try discriminate. destruct (Dict.get d k); discriminate. Qed.

Lemma setitem_quiet v k x : setitem v k x <> Raise FileNotFoundError.
Proof. destruct v; discriminate. Qed.

Lemma get_path_quiet p : forall v, get_path v p <> Raise FileNotFoundError.
Proof.
  induction p as [| k p IH]; intro v; simpl; [discriminate |].
  destruct (getitem v k) eqn:E; [apply IH | rewrite <- E; apply getitem_quiet].
Qed.

Lemma set_path_quiet p k x : forall v, set_path v p k x <> Raise FileNotFoundError.
Proof.
  induction p as [| k1 p IH]; intro v; simpl; [apply setitem_quiet |].
  destruct (getitem v k1) as [inner | e] eqn:E;
    [| rewrite <- E; apply getitem_quiet].
  destruct (set_path inner p k x) as [inner' | e] eqn:E';
    [apply setitem_quiet | rewrite <- E'; apply IH].
Qed.

Lemma as_str_quiet v : as_str v <> Raise FileNotFoundError.
Proof. destruct v; discriminate. Qed.

Lemma Path_quiet x : Path x <> Raise FileNotFoundError.
Proof. destruct x; discriminate. Qed.

Lemma py_gt_quiet a b : py_gt a b <> Raise FileNotFoundError.
Proof. destruct a, b; discriminate. Qed.

Lemma index_lookup_quiet m site : index_lookup m site <> Raise FileNotFoundError.
Proof.
  induction m as [| [k v] m IH]; simpl; [discriminate |].
  destruct (Nat.eqb site k); [discriminate | exact IH].
Qed.

Lemma list_getitem_quiet {A} (l : list A) i :
  list_getitem l i <> Raise FileNotFoundError.
Proof. unfold list_getitem. destruct (nth_error l i); discriminate. Qed.

Lemma sum_weights_quiet l : forall t, sum_weights l t <> Raise FileNotFoundError.
Proof.
  induction l as [| ph l IH]; intro t; simpl; [discriminate |].
  destruct (list_getitem (dipole ph) 3) eqn:E;
    [apply IH | rewrite <- E; apply list_getitem_quiet].
Qed.

Lemma truediv_quiet a b : truediv a b <> Raise FileNotFoundError.
Proof. unfold truediv. destruct (Z.eqb b 0); discriminate. Qed.

Lemma never_getattr name : never FileNotFoundError (getattr name).
Proof.
  intro w. unfold getattr.
  repeat match goal with |- context [if ?b then _ else _] => destruct b end;
    discriminate.
Qed.

Lemma never_cards_get p : never FileNotFoundError (cards_get p).
Proof. intro w. apply get_path_quiet. Qed.

Lemma never_cards_set p k x : never FileNotFoundError (cards_set p k x).
Proof.
  intro w. unfold cards_set.
  destruct (set_path (_cards (self w)) p k x) eqn:E; simpl; [discriminate |].
  intro H. injection H as ->. exact (set_path_quiet _ _ _ _ E).
Qed.

Lemma never_structure_getitem i : never FileNotFoundError (structure_getitem i).
Proof.
  intro w. unfold structure_getitem.
  destruct (nth_error (species (structure_sc w)) i); discriminate.
Qed.

Lemma never_structure_setitem i l :
  never FileNotFoundError (structure_setitem i l).
Proof.
  intro w. unfold structure_setitem.
  destruct (list_set (species (structure_sc w)) i l); discriminate.
Qed.

Lemma never_total {A} (m : M A) :
  (forall w, exists a, fst (m w) = Ok a) -> never FileNotFoundError m.
Proof. intros H w. destruct (H w) as (a & ->). discriminate. Qed.

Create HintDb never.
#[local] Hint Resolve never_ret never_getattr never_cards_get never_cards_set
  never_structure_getitem never_structure_setitem : never.
#[local] Hint Resolve getitem_quiet as_str_quiet Path_quiet py_gt_quiet
  index_lookup_quiet list_getitem_quiet sum_weights_quiet truediv_quiet
  : never.

Ltac never_prim :=
  first
    [ solve [ auto with never ]
    | apply never_lift; solve [ auto with never ]
    | apply never_of_option; discriminate
    | apply never_total; intro; eexists; reflexivity ].

Ltac never_tac :=
  repeat first
    [ match goal with
      | H : _ |- never _ _ => solve [ simple apply H ]
      end
    | never_prim
    | apply never_bind; [ | intro ]
    | apply never_for_each; intro
    | match goal with
      | |- never _ (if ?b then _ else _) => destruct b
      | |- never _ (match ?x with _ => _ end) => destruct x
      end ].


Lemma never_site_species im sites :
  never FileNotFoundError (site_species im sites).
Proof. induction sites as [| s rest IH]; simpl; never_tac. Qed.

Lemma never_resolve_psp X symbols target :
  never FileNotFoundError (resolve_psp X symbols target).
Proof.
  unfold resolve_psp.
  apply never_bind; [never_tac | intro d].
  apply never_bind; [| intro; never_tac].
  destruct d; [| never_tac].
  apply never_try_caught.
  intros w H. rewrite second_try_raises in H. discriminate H.
Qed.

Lemma never_inject_core_hole element target :
  never FileNotFoundError (inject_core_hole element target).
Proof.
  unfold inject_core_hole, get_psp.
  apply never_bind; [never_tac | intro p].
  apply never_bind; [never_tac | intros _].
  apply never_bind; [never_tac | intros [chpsp |]]; [| never_tac].
  apply never_try_caught. never_tac.
Qed.

Lemma never_site_body X target element im k iabs ss :
  never FileNotFoundError (site_body X target element im k iabs ss).
Proof.
  unfold site_body, pwinput, get_psp. destruct ss as [site specie].
  repeat (apply never_bind; [solve [never_tac] | intro]).
  never_tac.
Qed.

(** X13: [write] never raises [FileNotFoundError]: a missing catalogue or
    pseudopotential file sends it into the archive tier, whose failure is an
    [AttributeError], and a missing core-hole file is answered by a
    warning. *)
Theorem write_never_raises_FileNotFoundError X target sites im w :
  fst (write X target sites im w) <> Raise FileNotFoundError.
Proof.
  revert w. change (never FileNotFoundError (write X target sites im)).
  unfold write.
  apply never_bind; [never_tac | intros _].
  apply never_bind.
  { unfold prepare_cards.
    repeat (apply never_bind;
            [first [apply never_site_species | never_tac] | intro]).
    never_tac. }
  intros [[[symbols species] element] k].
  apply never_bind; [unfold read_cutoffs; never_tac | intros _].
  apply never_bind; [apply never_resolve_psp | intros _].
  apply never_bind; [unfold store_cutoffs; never_tac | intros _].
  apply never_bind;
    [unfold write_ground_state, pwinput, get_psp; never_tac | intros _].
  apply never_bind; [apply never_inject_core_hole | intros _].
  apply never_bind; [unfold absorber_index, get_psp; never_tac | intro iabs].
  apply never_bind; [| intro; never_tac].
  apply never_for_each. intro ss. apply never_site_body.
Qed.

(** ** Missing core-hole files *)

Lemma literal_potential_is_no_wavefunction target chpsp element :
  chpsp ++ "/Core_" ++ element ++ ".wfc"
  <> path_join target "{element}.fch.upf".
Proof.
  intro E.
  assert (H : ends_with "c" (chpsp ++ "/Core_" ++ element ++ ".wfc")
              = ends_with "c" (path_join target "{element}.fch.upf"))
    by (rewrite E; reflexivity).
  unfold path_join in H.
  rewrite (ends_with_append "c" target) in H by (simpl; lia).
  replace (chpsp ++ "/Core_" ++ element ++ ".wfc")
    with ((chpsp ++ "/Core_" ++ element) ++ ".wfc") in H
    by (rewrite !append_assoc; reflexivity).
  rewrite (ends_with_append "c") in H by (simpl; lia).
  vm_compute in H. discriminate H.
Qed.

(** X15: a missing core-hole file does not stop [write].  When the potential
    [{element}.fch.upf] is missing from the core-hole directory, nothing is
    copied, not even a wavefunction file that is there; when only the
    wavefunction file is missing, the potential has been copied and stays.
    In both cases the ionised entry is in the mapping, one warning is emitted
    and the step returns normally. *)
Theorem missing_core_hole_file_warns element target w p chpsp :
  psp (locals w) = Some p ->
  _chpsp_directory (self w) = Some chpsp ->
  let potential := chpsp ++ "/" ++ element ++ ".fch.upf" in
  let wavefunction := chpsp ++ "/Core_" ++ element ++ ".wfc" in
  let copied := path_join target "{element}.fch.upf" in
  (Dict.get (fs w) potential = None ->
   inject_core_hole element target w
   = (Ok tt, with_event (core_hole_warning element chpsp)
                        (with_ionised element p w))) /\
  (forall s,
     Dict.get (fs w) potential = Some s ->
     potential <> copied ->
     Dict.get (fs w) wavefunction = None ->
     inject_core_hole element target w
     = (Ok tt, with_event (core_hole_warning element chpsp)
                 (with_event (ECopy potential copied)
                    (with_fs (Dict.set (fs w) copied s)
                             (with_ionised element p w))))).
Proof.
  intros Hp Hch potential wavefunction copied.
  assert (Hlit : wavefunction <> copied)
    by apply literal_potential_is_no_wavefunction.
  assert (E : inject_core_hole element target w
              = (try_except
                   (copyfile potential copied ;;
                    copyfile wavefunction
                             (path_join target "Core_{element}.wfc"))
                   FileNotFoundError
                   (fun w => (Ok tt,
                              with_event (core_hole_warning element chpsp) w)))
                  (with_ionised element p w)).
  { unfold inject_core_hole, get_psp, bind, get_local, of_option.
    rewrite Hp. unfold ret, set_psp, getattr.
    cbn [self with_locals String.eqb Ascii.eqb Bool.eqb fst snd].
    rewrite Hch. reflexivity. }
  rewrite E. clear E. clearbody potential wavefunction copied.
  unfold try_except, bind, copyfile. split.
  - intro Hf. cbn [fs with_ionised with_locals]. rewrite Hf.
    destruct (String.eqb potential copied); reflexivity.
  - intros s Hf Hne Hw. cbn [fs with_ionised with_locals]. rewrite Hf.
    apply String.eqb_neq in Hne. rewrite Hne.
    cbn [fs with_event with_fs].
    rewrite dict_get_set_other by exact Hlit.
    rewrite Hw.
    destruct (String.eqb wavefunction _); reflexivity.
Qed.

Lemma missing_core_hole_file_warns_witness :
  let r := inject_core_hole "Ti" "out" w_half_core_hole in
  fst r = Ok tt /\
  Dict.get (fs (snd r)) "out/{element}.fch.upf" = Some "TIFCH" /\
  trace (snd r)
  = [ECopy "ch/Ti.fch.upf" "out/{element}.fch.upf";
     core_hole_warning "Ti" "ch"].
Proof.
  destruct (missing_core_hole_file_warns "Ti" "out" w_half_core_hole
              (placeholder_psp ["Ti"; "O"]) "ch" eq_refl eq_refl)
    as [_ H].
  specialize (H "TIFCH" eq_refl).
  intro r. unfold r. rewrite H.
  - vm_compute. repeat split.
  - vm_compute. discriminate.
  - reflexivity.
Defined.

(** ** The directories of the sites *)

Lemma int_str_nat n : int (str_nat n) = Some n.
Proof.
  unfold int, str_nat. rewrite NilEmpty.usu. simpl.
  rewrite DecimalNat.Unsigned.of_to. reflexivity.
Qed.

Lemma int_zero s : int ("0" ++ s) = int s.
Proof.
  unfold int. simpl. destruct (NilEmpty.uint_of_string s); reflexivity.
Qed.

Lemma int_fmt_03 n : int (fmt_03 n) = Some n.
Proof.
  unfold fmt_03.
  destruct (String.length (str_nat n)) as [| [| [| l]]];
    try apply int_str_nat.
  - change ("00" ++ str_nat n) with ("0" ++ ("0" ++ str_nat n)).
    rewrite !int_zero. apply int_str_nat.
  - rewrite int_zero. apply int_str_nat.
Qed.

Lemma fmt_03_length n : (3 <= String.length (fmt_03 n))%nat.
Proof.
  unfold fmt_03.
  destruct (String.length (str_nat n)) as [| [| [| l]]] eqn:E;
    simpl; rewrite ?E; try lia.
  exfalso. unfold str_nat in E.
  pose proof (DecimalNat.Unsigned.to_of (Nat.to_uint n)) as Hn.
  rewrite DecimalNat.Unsigned.of_to in Hn.
  destruct (Nat.to_uint n); simpl in E; try discriminate E.
  discriminate Hn.
Qed.

(** Two names made of digits, an underscore and a label are equal only if
    the digits and the labels are. *)
Lemma digits_then_underscore a : forall b s s',
  NilEmpty.uint_of_string a <> None ->
  NilEmpty.uint_of_string b <> None ->
  a ++ "_" ++ s = b ++ "_" ++ s' -> a = b /\ s = s'.
Proof.
  induction a as [| c a IH]; intros [| c' b] s s' Ha Hb E.
  - simpl in E. injection E as E. split; [reflexivity | exact E].
  - simpl in E. injection E as <- _. exfalso. apply Hb. simpl.
    destruct (NilEmpty.uint_of_string b); reflexivity.
  - simpl in E. injection E as -> _. exfalso. apply Ha. simpl.
    destruct (NilEmpty.uint_of_string a); reflexivity.
  - simpl in E. injection E as <- E.
    destruct (IH b s s') as [-> ->]; [| | exact E | split; reflexivity].
    + intro N. apply Ha. simpl. rewrite N. reflexivity.
    + intro N. apply Hb. simpl. rewrite N. reflexivity.
Qed.

Lemma fmt_03_digits n : NilEmpty.uint_of_string (fmt_03 n) <> None.
Proof.
  pose proof (int_fmt_03 n) as H. unfold int in H.
  destruct (NilEmpty.uint_of_string (fmt_03 n)); [discriminate | discriminate H].
Qed.

(** X18: the directory of a requested site, [f"{site:03}_{specie}"] under the
    target, determines the site and its label: the site's number can be read
    back from its first part, which has at least three digits, and two
    requested sites share a directory only if they are the same site with the
    same label. *)
Theorem site_directories_are_distinct target site specie site' specie' :
  path_join target (fmt_03 site ++ "_" ++ specie)
  = path_join target (fmt_03 site' ++ "_" ++ specie') ->
  site = site' /\ specie = specie' /\
  int (fmt_03 site) = Some site /\
  (3 <= String.length (fmt_03 site))%nat.
Proof.
  intro E. apply path_join_inj in E.
  apply digits_then_underscore in E; try apply fmt_03_digits.
  destruct E as [E ->].
  assert (H : int (fmt_03 site) = int (fmt_03 site')) by (rewrite E; reflexivity).
  rewrite !int_fmt_03 in H. injection H as ->.
  split; [reflexivity |]. split; [reflexivity |].
  split; [apply int_fmt_03 | apply fmt_03_length].
Qed.

Lemma site_directories_are_distinct_witness :
  path_join "out" (fmt_03 7 ++ "_" ++ "Ti") = "out/007_Ti" /\
  path_join "out" (fmt_03 1234 ++ "_" ++ "O") = "out/1234_O" /\
  int (fmt_03 7) = Some 7%nat.
Proof.
  split; [reflexivity |]. split; [reflexivity |].
  apply (site_directories_are_distinct "out" 7 "Ti" 7 "Ti" eq_refl).
Defined.

(** ** The constructor *)

Lemma init_run env cds kp chpsp psp table json conv edge nm w :
  __init__ env cds kp chpsp psp table json conv edge nm w
  = (Ok tt,
     {| self := {| _cards := cds;
                   _chpsp_directory :=
                     settled chpsp (_get_CHPSP_DIRECTORY_from_environ env);
                   _psp_cutoff_table := table;
                   _psp_json := json;
                   _psp_directory :=
                     settled psp (_get_PSP_DIRECTORY_from_environ env);
                   _kpoints := kp;
                   _defaultConvPerAtom := conv;
                   _edge := edge;
                   _name := nm |};
        structure_sc := structure_sc w;
        fs := fs w;
        trace := (trace w ++
                  init_warnings
                    (settled chpsp (_get_CHPSP_DIRECTORY_from_environ env))
                    (settled psp (_get_PSP_DIRECTORY_from_environ env))
                    table)%list;
        locals := locals w |}).
Proof.
  unfold __init__, settled, init_warnings, bind, warn, ret, set_self,
    with_self, with_event.
  destruct chpsp as [c |], (_get_CHPSP_DIRECTORY_from_environ env) as [c' |],
    psp as [p |], (_get_PSP_DIRECTORY_from_environ env) as [p' |],
    table as [t |]; simpl;
    rewrite <- ?app_assoc, ?app_nil_r; reflexivity.
Qed.

Lemma init_warnings_psp chpsp psp table :
  In (EWarn psp_warning) (init_warnings chpsp psp table) <->
  psp = None \/ table = None.
Proof.
  unfold init_warnings.
  destruct chpsp, psp, table; simpl; split; intro H;
    repeat match goal with
           | H : _ \/ _ |- _ => destruct H
           | H : False |- _ => destruct H
           | H : EWarn _ = EWarn _ |- _ => try discriminate H; clear H
           | H : Some _ = None |- _ => discriminate H
           end; auto.
Qed.

Lemma write_reads_catalogue X target sites im w st w' d :
  _psp_directory (self w) = Some d ->
  write X target sites im w = (Ok st, w') ->
  exists t text psp_dict,
    _psp_cutoff_table (self w) = Some t /\
    Dict.get (fs w) (path_join d t) = Some text /\
    json_loads X text = Some psp_dict.
Proof.
  intros Hd H. apply write_Ok in H.
  destruct H as (w0 & symbols & specs & element & k & w1 & w2 & w3 & w4 & w5
                 & w6 & iabs & E0 & E1 & E2 & E3 & E4 & E5 & E6 & E7 & E8).
  assert (V2 : system_view w2 = system_view w).
  { keeps system_view in E0 as S0.
    assert (S1 : system_view w1 = system_view w0).
    { refine (stable_Ok (same system_view) _ _ _ _ _ E1).
      apply stable_prepare_cards; [exact _ | prim_stable |].
      intros p k0 x Hdiv. apply cards_set_system_view. exact Hdiv. }
    destruct (read_cutoffs_Ok _ _ _ E2) as (_ & _ & S2). congruence. }
  unfold system_view in V2. injection V2 as _ V2d V2t V2f _.
  assert (Hd2 : _psp_directory (self w2) = Some d) by congruence.
  destruct (resolve_psp_configured _ _ _ _ _ _ _ E3 Hd2)
    as (t & text & psp_dict & Ht & Hf & Hj & _).
  exists t, text, psp_dict.
  split; [congruence |]. split; [congruence | exact Hj].
Qed.

(** X1: the warning of the constructor about the neutral pseudopotentials
    tells which way a completed call of [write] on the new instance has gone.
    If it was emitted, no directory was settled on and the mapping holds the
    placeholder names; if it was not, the catalogue of the directory settled
    on (the argument, or else the environment's) has been read. *)
Theorem constructor_warning_and_write X env cds kp chpsp psp table json conv
    edge nm target sites im w st w' :
  let w0 := snd (__init__ env cds kp chpsp psp table json conv edge nm w) in
  let directory := settled psp (_get_PSP_DIRECTORY_from_environ env) in
  write X target sites im w0 = (Ok st, w') ->
  (adds (EWarn psp_warning) w w0 /\
   directory = None /\
   (exists element,
       local_psp w' = Some (Dict.set (placeholder_psp (species (structure_sc w)))
                                  (element ++ "+")
                                  (VStr (element ++ ".fch.upf")))) /\
   extends_by (to_literal_names target) w0 w')
  \/
  (~ adds (EWarn psp_warning) w w0 /\
   exists d t text psp_dict,
     directory = Some d /\
     table = Some t /\
     Dict.get (fs w) (path_join d t) = Some text /\
     json_loads X text = Some psp_dict).
Proof.
  intros w0 directory H. subst w0 directory.
  rewrite init_run in *. cbn [snd] in *.
  set (w0 := {| self := _; structure_sc := _; fs := _; trace := _;
                locals := _ |}) in *.
  destruct (settled psp (_get_PSP_DIRECTORY_from_environ env)) as [d |] eqn:Ed.
  - right.
    destruct (write_reads_catalogue X target sites im w0 st w' d eq_refl H)
      as (t & text & psp_dict & Ht & Hf & Hj).
    simpl in Ht, Hf. split.
    + intros (evs & Hevs & Hin). simpl in Hevs.
      apply app_inv_head in Hevs. subst evs.
      apply init_warnings_psp in Hin. destruct Hin as [Hin | Hin].
      * discriminate Hin.
      * rewrite Hin in Ht. discriminate Ht.
    + exists d, t, text, psp_dict. repeat split; assumption.
  - left.
    destruct (unconfigured_fallback X target sites im w0 st w' eq_refl H)
      as (_ & Hp & _ & _ & _ & Hc).
    split.
    + eexists. split; [reflexivity |].
      apply init_warnings_psp. left. reflexivity.
    + split; [reflexivity |]. split; [exact Hp | exact Hc].
Qed.

Lemma constructor_warning_and_write_witness :
  let made :=
    snd (__init__ empty_environ XSPECTRA_DEFAULT_CARDS (fun _ => (2, 2, 2)%Z)
           None None None None (1 # 10000000000) (VStr "K") "XSpectra"
           w_unconfigured) in
  trace made = [EWarn chpsp_warning; EWarn psp_warning] /\
  exists w',
    write example_externals "out" [0%nat] identity_mapping made
    = (Ok {| pass := true; errors := [] |}, w') /\
    adds (EWarn psp_warning) w_unconfigured made /\
    option_map (fun p => Dict.get p "O") (local_psp w')
    = Some (Some (VStr "O.upf")).
Proof.
  intro made. split; [reflexivity |].
  exists (snd (write example_externals "out" [0%nat] identity_mapping made)).
  assert (H : write example_externals "out" [0%nat] identity_mapping made
              = (Ok {| pass := true; errors := [] |},
                 snd (write example_externals "out" [0%nat] identity_mapping
                        made)))
    by (vm_compute; reflexivity).
  split; [exact H |].
  destruct (constructor_warning_and_write example_externals empty_environ
              XSPECTRA_DEFAULT_CARDS (fun _ => (2, 2, 2)%Z)
              None None None None (1 # 10000000000) (VStr "K") "XSpectra"
              "out" [0%nat] identity_mapping w_unconfigured _ _ H)
    as [(A & _ & _ & _) | (_ & d & t & text & psp_dict & Hd & _)].
  - split; [exact A |]. vm_compute. reflexivity.
  - discriminate Hd.
Defined.

(** ** The atoms a call relabels *)

#[local] Instance relabelled_within_PreOrder atoms
  : RelationClasses.PreOrder (relabelled_within atoms).
Proof.
  split.
  - intro w. repeat split.
  - intros a b c (L1 & P1 & N1) (L2 & P2 & N2).
    split; [congruence |]. split; [congruence |].
    intros i Hi. rewrite (N2 i Hi). apply (N1 i Hi).
Qed.











(** ** Directories before files *)

Lemma housed_from_more dirs dirs' evs :
  (forall d, In d dirs -> In d dirs') ->
  housed_from dirs evs -> housed_from dirs' evs.
Proof.
  revert dirs dirs'. induction evs as [| e evs IH]; intros dirs dirs' Hsub H;
    [exact I |].
  destruct e as [msg | d | src dst | p s]; simpl in *.
  - apply (IH dirs); assumption.
  - apply (IH (d :: dirs)); [| exact H].
    intros x [-> | Hx]; [left; reflexivity | right; apply Hsub, Hx].
  - destruct H as ((d & name & Hp & Hd) & H). split.
    + exists d, name. split; [exact Hp | apply Hsub, Hd].
    + apply (IH dirs); assumption.
  - destruct H as ((d & name & Hp & Hd) & H). split.
    + exists d, name. split; [exact Hp | apply Hsub, Hd].
    + apply (IH dirs); assumption.
Qed.

Lemma housed_from_app dirs a b :
  housed_from dirs a -> housed_from dirs b -> housed_from dirs (a ++ b)%list.
Proof.
  revert dirs. induction a as [| e a IH]; intros dirs Ha Hb; [exact Hb |].
  destruct e as [msg | d | src dst | p s]; simpl in *.
  - apply IH; assumption.
  - apply IH; [exact Ha |].
    apply (housed_from_more dirs); [intros x Hx; right; exact Hx | exact Hb].
  - destruct Ha as [Hd Ha]. split; [exact Hd | apply IH; assumption].
  - destruct Ha as [Hd Ha]. split; [exact Hd | apply IH; assumption].
Qed.

#[local] Instance housed_PreOrder dirs : RelationClasses.PreOrder (housed dirs).
Proof.
  split.
  - intro w. exists []. split; [symmetry; apply app_nil_r | exact I].
  - intros a b c (e1 & H1 & F1) (e2 & H2 & F2). exists (e1 ++ e2)%list. split.
    + rewrite H2, H1. symmetry. apply app_assoc.
    + apply housed_from_app; assumption.
Qed.



















(** ** The decks on the examples *)


Lemma excited_state_deck_witness :
  adds (EWrite "out/001_O/es.in" "<pwscf Ti Ti+ | 2 2 2>") w_resolved
       (snd (site_body show_externals "out" "Ti" identity_mapping (2, 2, 2)%Z
               (Some 3%nat) (1%nat, "O") w_resolved)).
Proof.
  assert (H : site_body show_externals "out" "Ti" identity_mapping (2, 2, 2)%Z
                (Some 3%nat) (1%nat, "O") w_resolved
              = (Ok tt,
                 snd (site_body show_externals "out" "Ti" identity_mapping
                        (2, 2, 2)%Z (Some 3%nat) (1%nat, "O") w_resolved)))
    by (vm_compute; reflexivity).
  destruct (excited_state_deck _ _ _ _ _ _ _ _ _ _ H)
    as (i & l & p & c & s & e & Hi & Hl & _ & _ & _ & _ & _ & A).
  assert (i = 1%nat) by (vm_compute in Hi; congruence). subst i.
  assert (l = ["Ti"; "Ti+"]) by (vm_compute in Hl; congruence). subst l.
  exact A.
Defined.

Lemma dipole_decks_witness :
  exists lines,
    adds (EWrite "out/000_Ti/dipole2/xanes.in" (join_lines lines ++ newline))
         w_direct
         (snd (write example_externals "out" [0%nat] identity_mapping
                 w_direct)) /\
    nth_error lines 1 = Some "    calculation = 'xanes_dipole'" /\
    nth_error lines 2 = Some "    edge = 'K'" /\
    nth_error lines 10 = Some "    xepsilon(1) = 0" /\
    nth_error lines 11 = Some "    xepsilon(2) = 1" /\
    nth_error lines 12 = Some "    xepsilon(3) = 0" /\
    nth_error lines 24 = Some "    filecore = '../../Core_Ti.wfc'" /\
    nth_error lines 29 = Some "2 2 2 0 0 0".
Proof.
  assert (H : write example_externals "out" [0%nat] identity_mapping w_direct
              = (Ok {| pass := true; errors := [] |},
                 snd (write example_externals "out" [0%nat] identity_mapping
                        w_direct)))
    by (vm_compute; reflexivity).
  destruct (dipole_decks _ _ _ _ _ _ _ H)
    as (specs & element & H1 & H2 & Hd).
  assert (Hs : specs = ["Ti"]) by (vm_compute in H1; congruence). subst specs.
  assert (He : element = "Ti") by (vm_compute in H2; congruence). subst element.
  destruct (Hd 0%nat "Ti" 2%nat (0, 1, 0)%Z)
    as (lines & edge & shift & A & _ & L1 & Le & L2 & L10 & L11 & L12 & L24
        & Hsh & L29).
  { left. reflexivity. }
  { right. left. reflexivity. }
  assert (edge = "K") by (vm_compute in Le; congruence). subst edge.
  assert (shift = "0 0 0") by (vm_compute in Hsh; congruence). subst shift.
  exists lines. split; [exact A |].
  repeat (split; [assumption |]). exact L29.
Defined.

Lemma deck_ignores_prefix_and_outdir_witness :
  exists w1,
    cards_set ["XS"; "input_xspectra"] "prefix" (VStr "other") w_resolved
    = (Ok tt, w1) /\
    card ["XS"; "input_xspectra"; "prefix"] w1 = Ok (VStr "other") /\
    fst (_write_xspectra_in example_externals "dipole" 3 [1; 0; 0]%Z [] w1)
    = fst (_write_xspectra_in example_externals "dipole" 3 [1; 0; 0]%Z []
             w_resolved).
Proof.
  exists (snd (cards_set ["XS"; "input_xspectra"] "prefix" (VStr "other")
                 w_resolved)).
  assert (H : cards_set ["XS"; "input_xspectra"] "prefix" (VStr "other")
                w_resolved
              = (Ok tt,
                 snd (cards_set ["XS"; "input_xspectra"] "prefix"
                        (VStr "other") w_resolved)))
    by (vm_compute; reflexivity).
  split; [exact H |]. split; [vm_compute; reflexivity |].
  apply (deck_ignores_prefix_and_outdir example_externals "dipole" 3
           [1; 0; 0]%Z [] "prefix" (VStr "other") w_resolved tt _
           (or_introl eq_refl) H).
Defined.

Lemma xkvec_lines_only_for_quadrupole_witness :
  _write_xspectra_in example_externals "dipole" 3 [1; 0; 0]%Z [] w_resolved
  = _write_xspectra_in example_externals "dipole" 3 [1; 0; 0]%Z [1; 0; 0]%Z
      w_resolved /\
  fst (_write_xspectra_in example_externals "quadrupole" 3 [1; 0; 0]%Z []
         w_resolved) = Raise IndexError.
Proof.
  split.
  - apply (proj1 (xkvec_lines_only_for_quadrupole example_externals "dipole" 3
                    [1; 0; 0]%Z [1; 0; 0]%Z w_resolved) eq_refl).
  - reflexivity.
Defined.
